(** * The live-debugging Lambda stub: relay state machine and error codec

    A shallow embedding of [packages/resources/lambda/stub/index.js].

    - [JSON]: the values carried by frames.
    - [ErrorCodec]: [destroyCircular] and [deserializeError] over an explicit
      object store (objects have identity and a prototype, which an
      assignment to [__proto__] replaces; properties are ordered, enumerable
      or not, and may point back to an ancestor).
    - [Relay]: the module-level [_ref] cell, the sockets and timers it talks
      to, and the handlers installed by [main], as a state/exception/log
      monad stepped by host events. *)

From Stdlib Require Import ZArith Lia.
From stdpp Require Import base list strings pretty.

Set Warnings "-register-all".

(** ** JSON values *)

Module JSON.

Inductive json :=
| JNull
| JBool (b : bool)
| JNum (n : Z)
| JStr (s : string)
| JArr (items : list json)
| JObj (fields : list (string * json)).

(** Property read on a parsed value, [undefined] being [None]. *)
Fixpoint assoc {A} (k : string) (l : list (string * A)) : option A :=
  match l with
  | [] => None
  | (k', a) :: l' => if bool_decide (k' = k) then Some a else assoc k l'
  end.

Definition field (j : json) (k : string) : option json :=
  match j with
  | JObj fields => assoc k fields
  | _ => None
  end.

(** JavaScript truthiness of an optional JSON value ([None] is [undefined]). *)
Definition truthy (v : option json) : bool :=
  match v with
  | None | Some JNull => false
  | Some (JBool b) => b
  | Some (JNum n) => negb (n =? 0)%Z
  | Some (JStr s) => negb (bool_decide (s = ""))
  | Some (JArr _) | Some (JObj _) => true
  end.

(** Structural induction that goes through the items of an array and the
    fields of an object. *)
Fixpoint json_nested_ind (P : json → Prop)
    (Hnull : P JNull) (Hbool : ∀ b, P (JBool b)) (Hnum : ∀ n, P (JNum n))
    (Hstr : ∀ s, P (JStr s))
    (Harr : ∀ items, Forall P items → P (JArr items))
    (Hobj : ∀ fields, Forall (λ kj, P kj.2) fields → P (JObj fields))
    (j : json) : P j :=
  match j with
  | JNull => Hnull
  | JBool b => Hbool b
  | JNum n => Hnum n
  | JStr s => Hstr s
  | JArr items =>
      Harr items
        ((fix go (items : list json) : Forall P items :=
            match items return Forall P items with
            | [] => @List.Forall_nil _ P
            | j :: items' =>
                @List.Forall_cons _ P j items'
                  (json_nested_ind P Hnull Hbool Hnum Hstr Harr Hobj j) (go items')
            end) items)
  | JObj fields =>
      Hobj fields
        ((fix go (fields : list (string * json)) : Forall (λ kj, P kj.2) fields :=
            match fields return Forall (λ kj, P kj.2) fields with
            | [] => @List.Forall_nil _ (λ kj, P kj.2)
            | kj :: fields' =>
                @List.Forall_cons _ (λ kj, P kj.2) kj fields'
                  (json_nested_ind P Hnull Hbool Hnum Hstr Harr Hobj kj.2) (go fields')
            end) fields)
  end.

(** No object of the value has two fields of the same name. *)
Fixpoint distinct_keys (j : json) : bool :=
  match j with
  | JArr items => forallb distinct_keys items
  | JObj fields =>
      bool_decide (NoDup fields.*1) && forallb (λ kj, distinct_keys kj.2) fields
  | _ => true
  end.

End JSON.

(** ** Error codec *)

Module ErrorCodec.
Import JSON.

Definition loc := nat.

Inductive jsvalue :=
| VUndefined
| VNull
| VBool (b : bool)
| VNum (n : Z)
| VStr (s : string)
| VFun (f : nat)
| VObj (l : loc).

#[global] Instance value_eq_dec : EqDecision jsvalue.
Proof. solve_decision. Defined.

Inductive jstype := TUndefined | TObject | TBoolean | TNumber | TString | TFunction.

#[global] Instance jstype_eq_dec : EqDecision jstype.
Proof. solve_decision. Defined.

Definition typeof (v : jsvalue) : jstype :=
  match v with
  | VUndefined => TUndefined
  | VNull | VObj _ => TObject
  | VBool _ => TBoolean
  | VNum _ => TNumber
  | VStr _ => TString
  | VFun _ => TFunction
  end.

Definition truthy (v : jsvalue) : bool :=
  match v with
  | VUndefined | VNull => false
  | VBool b => b
  | VNum n => negb (n =? 0)%Z
  | VStr s => negb (bool_decide (s = ""))
  | VFun _ | VObj _ => true
  end.

Inductive res (A : Type) := Ok (a : A) | TypeErr | OutOfFuel.
Arguments Ok {A} a.
Arguments TypeErr {A}.
Arguments OutOfFuel {A}.

(** A property slot: its value and whether [Object.entries] lists it. *)
Record prop := Prop_ { pvalue : jsvalue; enumerable : bool }.

(** What the codec can observe of an object as it was created: an array, a
    native error (whose prototype carries [name] and an empty [message]), or
    neither. *)
Inductive kind := Plain | Array | NativeError (name : string).

(** The prototype of an object: the one it was created with, which [okind]
    describes, or what an assignment to [__proto__] has put in its place:
    [null], a function, or an object of the store. *)
Inductive proto := Original | NullProto | FunProto (f : nat) | Ref (l : loc).

#[global] Instance proto_eq_dec : EqDecision proto.
Proof. solve_decision. Defined.

Record object := Object { okind : kind; oprops : list (string * prop); oproto : proto }.

(** The store; an object's identity is its index. *)
Abbreviation heap := (list object).

Definition obj (h : heap) (l : loc) : object :=
  default (Object Plain [] Original) (h !! l).

(** String-valued data properties found on the built-in prototypes. *)
Definition inherited (c : kind) (k : string) : jsvalue :=
  match c with
  | NativeError n =>
      if bool_decide (k = "name") then VStr n
      else if bool_decide (k = "message") then VStr ""
      else VUndefined
  | _ => VUndefined
  end.

(** [Object.entries] of a string: one entry per character. *)
Definition string_entries (s : string) : list (string * jsvalue) :=
  imap (λ i c, (pretty i, VStr (String c EmptyString))) (String.list_ascii_of_string s).

(** The lookup of [k] above [o], along the prototype chain; as everywhere
    in this model, a function has no readable property. A chain is finite:
    [fuel] bounds the objects of the store that are visited. *)
Fixpoint inherit (fuel : nat) (h : heap) (o : object) (k : string) : jsvalue :=
  match oproto o with
  | Original => inherited (okind o) k
  | NullProto | FunProto _ => VUndefined
  | Ref p =>
      match fuel with
      | 0 => VUndefined
      | S fuel' =>
          match assoc k (oprops (obj h p)) with
          | Some q => pvalue q
          | None => inherit fuel' h (obj h p) k
          end
      end
  end.

(** [v[k]]: the own slot, or else what the prototype chain gives. The
    accessor [__proto__] is modelled as a setter only: the codec reads own
    enumerable keys and the four common properties, never an inherited
    [__proto__]. *)
Definition get (h : heap) (v : jsvalue) (k : string) : jsvalue :=
  match v with
  | VObj l =>
      match assoc k (oprops (obj h l)) with
      | Some p => pvalue p
      | None => inherit (length h) h (obj h l) k
      end
  | VStr s => default VUndefined (assoc k (string_entries s))
  | _ => VUndefined
  end.

(** [o instanceof Error]: [Error.prototype] is on the prototype chain. *)
Fixpoint instanceOfError (fuel : nat) (h : heap) (o : object) : bool :=
  match oproto o with
  | Original => match okind o with NativeError _ => true | _ => false end
  | NullProto | FunProto _ => false
  | Ref p =>
      match fuel with
      | 0 => false
      | S fuel' => instanceOfError fuel' h (obj h p)
      end
  end.

(** [Object.entries(v)]: own enumerable properties, in order. *)
Definition entries (h : heap) (v : jsvalue) : res (list (string * jsvalue)) :=
  match v with
  | VUndefined | VNull => TypeErr
  | VObj l =>
      Ok (omap (λ kp, if enumerable kp.2 then Some (kp.1, pvalue kp.2) else None)
               (oprops (obj h l)))
  | VStr s => Ok (string_entries s)
  | _ => Ok []
  end.

(** Write a slot: [f] receives the slot already there, if any; a new slot
    goes last. *)
Fixpoint upsert (k : string) (f : option prop → prop) (ps : list (string * prop))
  : list (string * prop) :=
  match ps with
  | [] => [(k, f None)]
  | (k', p) :: ps' =>
      if bool_decide (k' = k) then (k', f (Some p)) :: ps'
      else (k', p) :: upsert k f ps'
  end.

Definition write (h : heap) (to : loc) (k : string) (f : option prop → prop) : heap :=
  alter (λ o, Object (okind o) (upsert k f (oprops o)) (oproto o)) to h.

(** Whether an assignment to [__proto__] on an object without such a slot
    reaches the accessor of [Object.prototype]: no object on the prototype
    chain has a slot of that name, and the chain does not end in [null]. *)
Fixpoint inheritsAccessor (fuel : nat) (h : heap) (o : object) : bool :=
  match oproto o with
  | Original | FunProto _ => true
  | NullProto => false
  | Ref p =>
      match fuel with
      | 0 => false
      | S fuel' =>
          match assoc "__proto__" (oprops (obj h p)) with
          | Some _ => false
          | None => inheritsAccessor fuel' h (obj h p)
          end
      end
  end.

(** Whether [o] is [p] or is on the prototype chain of [p]. *)
Fixpoint onChain (fuel : nat) (h : heap) (p o : loc) : bool :=
  bool_decide (p = o)
  || match oproto (obj h p) with
     | Ref p' =>
         match fuel with
         | 0 => false
         | S fuel' => onChain fuel' h p' o
         end
     | _ => false
     end.

Definition setPrototype (h : heap) (to : loc) (pr : proto) : heap :=
  alter (λ o, Object (okind o) (oprops o) pr) to h.

(** The setter of [Object.prototype.__proto__] called on [to]: a value that
    is neither an object nor [null] is ignored; a prototype that would close
    a cycle is refused with a [TypeError]. *)
Definition setProto (h : heap) (to : loc) (v : jsvalue) : res heap :=
  match v with
  | VNull => Ok (setPrototype h to NullProto)
  | VFun f => Ok (setPrototype h to (FunProto f))
  | VObj p =>
      if bool_decide (oproto (obj h to) = Ref p) then Ok h
      else if onChain (length h) h p to then TypeErr
      else Ok (setPrototype h to (Ref p))
  | _ => Ok h
  end.

(** [to[k] = v]: an existing slot keeps its attributes, a new one is
    enumerable; the key [__proto__], when [to] has no slot of that name and
    inherits the accessor, goes to the setter and writes no slot. *)
Definition assign (h : heap) (to : loc) (k : string) (v : jsvalue) : res heap :=
  if bool_decide (k = "__proto__")
     && bool_decide (assoc k (oprops (obj h to)) = None)
     && inheritsAccessor (length h) h (obj h to)
  then setProto h to v
  else Ok (write h to k (λ old, Prop_ v (from_option enumerable true old))).

(** [Object.defineProperty(to, k, {value: v, enumerable: e, ...})] *)
Definition defineProperty (h : heap) (to : loc) (k : string) (v : jsvalue) (e : bool) : heap :=
  write h to k (λ _, Prop_ v e).

Definition alloc (h : heap) (o : object) : heap * loc := (h ++ [o], length h).

Definition isArray (h : heap) (v : jsvalue) : bool :=
  match v with
  | VObj l => match okind (obj h l) with Array => true | _ => false end
  | _ => false
  end.

Definition commonProperties : list (string * bool) :=
  [("name", false); ("message", false); ("stack", false); ("code", true)].

(** [seen.includes(v)] *)
Definition includes (seen : list jsvalue) (v : jsvalue) : bool :=
  bool_decide (v ∈ seen).

(** The body of [for (const [key, value] of Object.entries(from))], with the
    recursive call abstracted as [rec]. *)
Fixpoint walk (rec : heap → jsvalue → res (heap * loc)) (from : jsvalue)
    (seen : list jsvalue) (to : loc) (es : list (string * jsvalue)) (h : heap)
  : res heap :=
  match es with
  | [] => Ok h
  | (key, value) :: es' =>
      if bool_decide (typeof value = TFunction) then walk rec from seen to es' h
      else if negb (truthy value) || negb (bool_decide (typeof value = TObject)) then
        match assign h to key value with
        | Ok h' => walk rec from seen to es' h'
        | TypeErr => TypeErr
        | OutOfFuel => OutOfFuel
        end
      else if negb (includes seen (get h from key)) then
        match rec h (get h from key) with
        | Ok (h', r) =>
            match assign h' to key (VObj r) with
            | Ok h'' => walk rec from seen to es' h''
            | TypeErr => TypeErr
            | OutOfFuel => OutOfFuel
            end
        | TypeErr => TypeErr
        | OutOfFuel => OutOfFuel
        end
      else
        match assign h to key (VStr "[Circular]") with
        | Ok h' => walk rec from seen to es' h'
        | TypeErr => TypeErr
        | OutOfFuel => OutOfFuel
        end
  end.

(** The body of [for (const { property, enumerable } of commonProperties)]. *)
Definition attach (from : jsvalue) (to : loc) (forceEnumerable : bool) (h : heap)
    (c : string * bool) : heap :=
  match get h from c.1 with
  | VStr s => defineProperty h to c.1 (VStr s) (if forceEnumerable then true else c.2)
  | _ => h
  end.

Fixpoint destroyCircular (fuel : nat) (h : heap) (from : jsvalue) (seen : list jsvalue)
    (to_ : option loc) (forceEnumerable : bool) : res (heap * loc) :=
  match fuel with
  | 0 => OutOfFuel
  | S fuel' =>
      let '(h, to) :=
        match to_ with
        | Some t => (h, t)
        | None => alloc h (Object (if isArray h from then Array else Plain) [] Original)
        end in
      let seen := seen ++ [from] in
      match entries h from with
      | Ok es =>
          match walk (λ h v, destroyCircular fuel' h v seen None forceEnumerable)
                     from seen to es h with
          | Ok h => Ok (foldl (attach from to forceEnumerable) h commonProperties, to)
          | TypeErr => TypeErr
          | OutOfFuel => OutOfFuel
          end
      | TypeErr => TypeErr
      | OutOfFuel => OutOfFuel
      end
  end.

(** [new Error()]: a native error whose only own slot is the hidden [stack]. *)
Definition new_Error (h : heap) : heap * loc :=
  alloc h (Object (NativeError "Error") [("stack", Prop_ (VStr "Error") false)] Original).

Definition deserializeError (fuel : nat) (h : heap) (value : jsvalue) : res (heap * jsvalue) :=
  match value with
  | VObj l =>
      if instanceOfError (length h) h (obj h l) then Ok (h, value)
      else if isArray h value then Ok (h, value)
      else
        let '(h, newError) := new_Error h in
        match destroyCircular fuel h value [] (Some newError) false with
        | Ok (h, _) => Ok (h, VObj newError)
        | TypeErr => TypeErr
        | OutOfFuel => OutOfFuel
        end
  | _ => Ok (h, value)
  end.

(** Modelled from the spec: the encoder's entry point is not part of this
    file; section 4.4 describes it as the depth-first walk of
    [destroyCircular] started on the error with nothing visited, into a
    fresh target, with [name], [message], [stack] re-attached non-enumerable
    and [code] enumerable. *)
Definition encode (fuel : nat) (h : heap) (e : jsvalue) : res (heap * loc) :=
  destroyCircular fuel h e [] None false.

Definition decode := deserializeError.

(** [JSON.parse] result placed in the store: children first, then the
    object holding them. *)
Fixpoint load (j : json) (h : heap) : heap * jsvalue :=
  match j with
  | JNull => (h, VNull)
  | JBool b => (h, VBool b)
  | JNum n => (h, VNum n)
  | JStr s => (h, VStr s)
  | JArr items =>
      let '(h1, ps) :=
        (fix go (i : nat) (items : list json) (h : heap) : heap * list (string * prop) :=
           match items with
           | [] => (h, [])
           | j :: items' =>
               let '(h1, v) := load j h in
               let '(h2, ps) := go (S i) items' h1 in
               (h2, (pretty i, Prop_ v true) :: ps)
           end) 0 items h in
      let '(h2, l) := alloc h1 (Object Array ps Original) in (h2, VObj l)
  | JObj fields =>
      let '(h1, ps) :=
        (fix go (fields : list (string * json)) (h : heap) : heap * list (string * prop) :=
           match fields with
           | [] => (h, [])
           | (k, j) :: fields' =>
               let '(h1, v) := load j h in
               let '(h2, ps) := go fields' h1 in
               (h2, (k, Prop_ v true) :: ps)
           end) fields h in
      let '(h2, l) := alloc h1 (Object Plain ps Original) in (h2, VObj l)
  end.

(** [deserializeError] applied to a freshly parsed value. *)
Definition deserializeError_json (j : json) : res (heap * jsvalue) :=
  let '(h, v) := load j [] in deserializeError (S (length h)) h v.

(** The two loops of [load], on their own. *)
Definition load_fields : list (string * json) → heap → heap * list (string * prop) :=
  fix go (fields : list (string * json)) (h : heap) : heap * list (string * prop) :=
    match fields with
    | [] => (h, [])
    | (k, j) :: fields' =>
        let '(h1, v) := load j h in
        let '(h2, ps) := go fields' h1 in
        (h2, (k, Prop_ v true) :: ps)
    end.

Definition load_items : nat → list json → heap → heap * list (string * prop) :=
  fix go (i : nat) (items : list json) (h : heap) : heap * list (string * prop) :=
    match items with
    | [] => (h, [])
    | j :: items' =>
        let '(h1, v) := load j h in
        let '(h2, ps) := go (S i) items' h1 in
        (h2, (pretty i, Prop_ v true) :: ps)
    end.

(** The store value of a JSON value that is not an array or an object. *)
Definition atom (j : json) : option jsvalue :=
  match j with
  | JNull => Some VNull
  | JBool b => Some (VBool b)
  | JNum n => Some (VNum n)
  | JStr s => Some (VStr s)
  | JArr _ | JObj _ => None
  end.

(** *** Well-formed stores and paths *)

(** A slot value that is a reference points below [n]. *)
Definition below (n : nat) (v : jsvalue) : Prop :=
  match v with
  | VObj l => l < n
  | _ => True
  end.

#[global] Instance below_dec n v : Decision (below n v).
Proof. destruct v; simpl; apply _. Defined.

(** An object whose references stay below [n] and whose keys are distinct. *)
Definition object_wf (n : nat) (o : object) : Prop :=
  Forall (λ kp, below n (pvalue kp.2)) (oprops o) ∧ NoDup (oprops o).*1.

(** A prototype put on object [l] through [__proto__] is an object of the
    store created after [l], as the codec leaves them. *)
Definition proto_wf (n l : nat) (pr : proto) : Prop :=
  match pr with
  | Ref p => l < p < n
  | _ => True
  end.

#[global] Instance proto_wf_dec n l pr : Decision (proto_wf n l pr).
Proof. destruct pr; simpl; apply _. Defined.

(** No dangling reference, no duplicate key, no cycle of prototypes. *)
Definition heap_wf (h : heap) : Prop :=
  Forall (object_wf (length h)) h
  ∧ Forall (λ l, proto_wf (length h) l (oproto (obj h l))) (seq 0 (length h)).

#[global] Instance heap_wf_dec h : Decision (heap_wf h).
Proof. unfold heap_wf, object_wf. apply _. Defined.

(** The own enumerable slot [k] of object [l]. *)
Definition own_enum (h : heap) (l : loc) (k : string) : option jsvalue :=
  match assoc k (oprops (obj h l)) with
  | Some p => if enumerable p then Some (pvalue p) else None
  | None => None
  end.

(** The objects met from [l] along the keys of [path], each step through an
    own enumerable slot holding an object. *)
Fixpoint chain (h : heap) (l : loc) (path : list string) : option (list loc) :=
  match path with
  | [] => Some [l]
  | k :: path' =>
      match own_enum h l k with
      | Some (VObj l') => (l ::.) <$> chain h l' path'
      | _ => None
      end
  end.

(** [v[k1][k2]...] *)
Fixpoint descend (h : heap) (v : jsvalue) (path : list string) : jsvalue :=
  match path with
  | [] => v
  | k :: path' => descend h (get h v k) path'
  end.

(** The values the walk copies as they are. *)
Definition copied (v : jsvalue) : bool :=
  match v with
  | VFun _ | VObj _ => false
  | _ => true
  end.

(** [Copy hs hf fresh seen l t]: in the store [hf], object [t] is the copy
    that [destroyCircular] makes of object [l] of the store [hs] when called
    with the visited list [seen]. Copied values are read back under the same
    key, a reference to a visited object (or to [l] itself) reads back as the
    marker, any other reference reads back as a later-created copy of its
    target, and the string-valued common properties read back as they are.
    When the target was created by the call ([fresh]), markers and copies sit
    in enumerable slots. The key [__proto__] is left out: its assignment goes
    to the prototype and makes no slot. *)
Inductive Copy (hs hf : heap) : bool → list jsvalue → nat → nat → Prop :=
| Copy_intro (fresh : bool) (seen : list jsvalue) (l t : nat) :
    (∀ k v, k ≠ "__proto__" → own_enum hs l k = Some v → copied v = true →
       get hf (VObj t) k = v) →
    (∀ k (c : nat), k ≠ "__proto__" → own_enum hs l k = Some (VObj c) →
       VObj c ∈ seen ++ [VObj l] →
       get hf (VObj t) k = VStr "[Circular]"
       ∧ (fresh = true → own_enum hf t k = Some (VStr "[Circular]"))) →
    (∀ k (c : nat), k ≠ "__proto__" → own_enum hs l k = Some (VObj c) →
       VObj c ∉ seen ++ [VObj l] →
       ∃ r : nat, get hf (VObj t) k = VObj r ∧ t < r
                  ∧ (fresh = true → own_enum hf t k = Some (VObj r))
                  ∧ Copy hs hf true (seen ++ [VObj l]) c r) →
    (∀ p s, p ∈ commonProperties.*1 → get hs (VObj l) p = VStr s →
       get hf (VObj t) p = VStr s) →
    Copy hs hf fresh seen l t.

(** What [load] makes of [j]: an atom as it is, an array or an object as a
    reference to a store object of that kind. *)
Definition loaded (j : json) (h : heap) (v : jsvalue) : Prop :=
  match j with
  | JArr _ =>
      ∃ l : nat, v = VObj l ∧ okind (obj h l) = Array ∧ oproto (obj h l) = Original
  | JObj fields =>
      ∃ l : nat, v = VObj l ∧ okind (obj h l) = Plain ∧ oproto (obj h l) = Original
        ∧ (∀ k, assoc k fields = None → own_enum h l k = None)
        ∧ ∀ k j' a, assoc k fields = Some j' → atom j' = Some a →
                    own_enum h l k = Some a
  | _ => atom j = Some v
  end.

(** [load] succeeds on [j]: from a well-formed store it gives a well-formed
    store and a value in it of the expected shape. *)
Definition load_ok (j : json) : Prop :=
  distinct_keys j = true → ∀ h : heap, heap_wf h →
  ∃ (h' : heap) v, load j h = (h', v) ∧ heap_wf h' ∧ below (length h') v
                   ∧ length h ≤ length h' ∧ loaded j h' v.

(** *** A sample store

    Object 0 is a [TypeError] with a hidden [stack] and [message], a [code],
    a reference to itself, a child, a method and a [null]; object 1, the
    child, points back to its parent and to itself. *)
Definition sample_heap : heap :=
  [ Object (NativeError "TypeError")
      [ ("stack", Prop_ (VStr "TypeError: boom") false);
        ("message", Prop_ (VStr "boom") false);
        ("code", Prop_ (VStr "E_BOOM") true);
        ("self", Prop_ (VObj 0) true);
        ("child", Prop_ (VObj 1) true);
        ("toJSON", Prop_ (VFun 0) true);
        ("cause", Prop_ VNull true) ] Original;
    Object Plain
      [ ("parent", Prop_ (VObj 0) true);
        ("me", Prop_ (VObj 1) true);
        ("count", Prop_ (VNum 3) true) ] Original ].

(** What a peer would send for [{ message: "bad", code: "E1", detail: {n: 1} }]. *)
Definition sample_plain : heap :=
  [ Object Plain [("n", Prop_ (VNum 1) true)] Original;
    Object Plain
      [ ("message", Prop_ (VStr "bad") true);
        ("code", Prop_ (VStr "E1") true);
        ("detail", Prop_ (VObj 0) true) ] Original ].

(** A value written by the walk into an object created at index [x] or
    later: never a function, and a reference only to an object created
    after [x]. *)
Definition written_after (x : nat) (v : jsvalue) : Prop :=
  match v with
  | VObj y => x < y
  | VFun _ => False
  | _ => True
  end.

(** *** Auxiliary notions for the proofs *)

Definition entry_list (o : object) : list (string * jsvalue) :=
  omap (λ kp, if enumerable kp.2 then Some (kp.1, pvalue kp.2) else None) (oprops o).

(** The part of the store a call reads: the objects below [n], closed under
    references. *)
Definition region (n : nat) (h : heap) : Prop :=
  n ≤ length h
  ∧ ∀ x : nat, x < n → object_wf n (obj h x) ∧ proto_wf n x (oproto (obj h x)).

(** Slot [k] of object [to] holds [v]. *)
Definition slot_is (h : heap) (to : nat) (k : string) (v : jsvalue) : Prop :=
  ∃ p, assoc k (oprops (obj h to)) = Some p ∧ pvalue p = v.

(** The target of a call: the object given as [to_], or the next free index. *)
Definition target (h : heap) (to_ : option loc) : nat := from_option id (length h) to_.

Definition all_enumerable (h : heap) (to : nat) : Prop :=
  ∀ k p, assoc k (oprops (obj h to)) = Some p → enumerable p = true.

(** The slot of each processed entry, once the walk is over. *)
Definition entry_done (hs : heap) (seen : list jsvalue) (to lo : nat) (h1 : heap)
    (k : string) (v : jsvalue) : Prop :=
  k ≠ "__proto__" →
  (copied v = true → slot_is h1 to k v)
  ∧ (∀ c : nat, v = VObj c → VObj c ∈ seen → slot_is h1 to k (VStr "[Circular]"))
  ∧ (∀ c : nat, v = VObj c → VObj c ∉ seen →
       ∃ r : nat, slot_is h1 to k (VObj r) ∧ lo ≤ r ∧ r < length h1
         ∧ ∀ hf : heap, (∀ x : nat, lo ≤ x < length h1 → hf !! x = h1 !! x) →
                        Copy hs hf true seen c r).

Definition new_slots (hc h1 : heap) (to m : nat) : Prop :=
  ∀ kp, kp ∈ oprops (obj h1 to) → kp ∈ oprops (obj hc to) ∨ written_after m (pvalue kp.2).

Definition new_objects (lo : nat) (h : heap) : Prop :=
  ∀ (x : nat) kp, lo ≤ x → kp ∈ oprops (obj h x) → written_after x (pvalue kp.2).

(** A prototype left by the walk on object [x]: the one it had, [null], or a
    copy created after [x]. *)
Definition proto_after (x : nat) (pr : proto) : Prop :=
  match pr with
  | Ref p => x < p
  | FunProto _ => False
  | _ => True
  end.

(** The objects created from index [lo] on are plain objects or arrays, with
    such a prototype. *)
Definition new_shapes (lo : nat) (h : heap) : Prop :=
  ∀ x : nat, lo ≤ x →
    (∀ name, okind (obj h x) ≠ NativeError name) ∧ proto_after x (oproto (obj h x)).


End ErrorCodec.

(** ** The relay: [_ref], sockets, timers and the handlers of [main] *)

Module Relay.
Import JSON.

Definition CONNECTION_LIFESPAN : Z := 1800000.

(** The invocation context handed over by the host. *)
Record Context := mkContext {
  functionName : string;
  memoryLimitInMB : string;
  awsRequestId : string;
  deadlineMs : Z;
  callbackWaitsForEmptyEventLoop : bool }.

(** [context.getRemainingTimeInMillis()]: the host counts down to the
    invocation's deadline. *)
Definition getRemainingTimeInMillis (ctx : Context) (now : Z) : Z :=
  (deadlineMs ctx - now)%Z.

(** An [error] event of the socket. *)
Record ErrorEvent := mkErrorEvent { type : string; message : string }.

(** The module-level cell [_ref]; [None] is [null] or [undefined]. *)
Record Ref := mkRef {
  ws : option nat;
  wsConnectedAt : Z;
  wsLastConnectError : option ErrorEvent;
  event : option json;
  context : option Context;
  callback : option nat;
  keepAliveTimer : option nat;
  debugRequestId : option string }.

Definition initial_ref : Ref :=
  mkRef None 0 None None None None None None.

(** The two sets of handlers a socket can carry: those installed by
    [connectAndSendMessage] and the logging-only ones installed by
    [disconnect]. *)
Inductive Handler := Live | Old.

Record Socket := mkSocket {
  url : option string;
  onopen : Handler;
  onclose : Handler;
  onmessage : Handler;
  onerror : Handler;
  closed : bool }.   (* the [close] event has been emitted *)

Inductive TimerStatus := Pending | Fired | Cleared.

Record Timer := mkTimer { due : Z; status : TimerStatus }.

Record World := mkWorld {
  ref : Ref;
  sockets : list Socket;
  timers : list Timer;
  process_env : list (string * string) }.

Definition initial (env : list (string * string)) : World :=
  mkWorld initial_ref [] [] env.

(** Outbound frames, before [JSON.stringify]. *)
Record Request := mkRequest {
  req_debugRequestId : option string;
  req_debugRequestTimeoutInMs : Z;
  req_debugSrcPath : option string;
  req_debugSrcHandler : option string;
  req_event : option json;
  req_functionName : string;
  req_memoryLimitInMB : string;
  req_awsRequestId : string;
  req_env : list (string * string) }.

Inductive Frame :=
| LambdaRequest (r : Request)   (* action: "stub.lambdaRequest" *)
| KeepAlive.                    (* action: "stub.keepAlive" *)

Inductive Thrown :=
| TypeError
| SyntaxError
| Error (msg : string)
| Deserialized (e : ErrorCodec.res (ErrorCodec.heap * ErrorCodec.jsvalue)).

Inductive Effect :=
| ENewWebSocket (c : nat) (endpoint : option string)
| EClose (c : nat)
| ESend (c : nat) (f : Frame)
| ESetTimeout (t : nat) (delay : Z)
| EClearTimeout (t : nat)
| ECallback (cb : nat) (data : option json)
| EThrow (x : Thrown).

(** *** State, exception and log monad *)

Inductive Outcome (A : Type) := Return (a : A) | Raise (x : Thrown).
Arguments Return {A} a.
Arguments Raise {A} x.

Definition M (A : Type) : Type := World → Outcome A * World * list Effect.

Definition ret {A} (a : A) : M A := λ w, (Return a, w, []).

Definition bind {A B} (m : M A) (f : A → M B) : M B :=
  λ w, match m w with
       | (Return a, w1, e1) =>
           match f a w1 with (o, w2, e2) => (o, w2, e1 ++ e2) end
       | (Raise x, w1, e1) => (Raise x, w1, e1)
       end.

Notation "'let*' x ':=' m 'in' k" := (bind m (λ x, k))
  (at level 10, x name, m at level 100, k at level 200).
Notation "m >> k" := (bind m (λ _, k))
  (at level 100, k at level 200, right associativity).

Definition raise {A} (x : Thrown) : M A := λ w, (Raise x, w, []).
Definition emit (e : Effect) : M unit := λ w, (Return tt, w, [e]).
Definition get_ref : M Ref := λ w, (Return (ref w), w, []).
Definition set_ref (f : Ref → Ref) : M unit :=
  λ w, (Return tt, mkWorld (f (ref w)) (sockets w) (timers w) (process_env w), []).
Definition getenv (k : string) : M (option string) :=
  λ w, (Return (assoc k (process_env w)), w, []).

(** Field updates of [_ref]. *)
Definition with_ws (v : option nat) (r : Ref) : Ref :=
  mkRef v (wsConnectedAt r) (wsLastConnectError r) (event r) (context r)
        (callback r) (keepAliveTimer r) (debugRequestId r).
Definition with_wsConnectedAt (v : Z) (r : Ref) : Ref :=
  mkRef (ws r) v (wsLastConnectError r) (event r) (context r)
        (callback r) (keepAliveTimer r) (debugRequestId r).
Definition with_wsLastConnectError (v : option ErrorEvent) (r : Ref) : Ref :=
  mkRef (ws r) (wsConnectedAt r) v (event r) (context r)
        (callback r) (keepAliveTimer r) (debugRequestId r).
Definition with_keepAliveTimer (v : option nat) (r : Ref) : Ref :=
  mkRef (ws r) (wsConnectedAt r) (wsLastConnectError r) (event r) (context r)
        (callback r) v (debugRequestId r).
Definition with_invocation (e : json) (c : Context) (cb : nat) (id : string) (r : Ref) : Ref :=
  mkRef (ws r) (wsConnectedAt r) (wsLastConnectError r) (Some e) (Some c)
        (Some cb) None (Some id).

(** *** The socket library and the timers, as far as the stub uses them *)

(** [new WebSocket(endpoint)] followed by the four handler assignments of
    [connectAndSendMessage]. *)
Definition new_WebSocket (endpoint : option string) : M nat :=
  λ w, let c := length (sockets w) in
       (Return c,
        mkWorld (ref w) (sockets w ++ [mkSocket endpoint Live Live Live Live false])
                (timers w) (process_env w),
        [ENewWebSocket c endpoint]).

(** The four handler assignments of [disconnect]. *)
Definition retire (s : Socket) : Socket :=
  mkSocket (url s) Old Old Old Old (closed s).

Definition set_old_handlers (c : nat) : M unit :=
  λ w, (Return tt,
        mkWorld (ref w) (alter retire c (sockets w)) (timers w) (process_env w), []).

Definition ws_close (c : nat) : M unit := emit (EClose c).
Definition ws_send (c : nat) (f : Frame) : M unit := emit (ESend c f).

Definition setTimeout (now delay : Z) : M nat :=
  λ w, let t := length (timers w) in
       (Return t,
        mkWorld (ref w) (sockets w) (timers w ++ [mkTimer (now + delay) Pending])
                (process_env w),
        [ESetTimeout t delay]).

Definition cancel (tm : Timer) : Timer :=
  match status tm with
  | Pending => mkTimer (due tm) Cleared
  | _ => tm
  end.

Definition clearTimeout (t : nat) : M unit :=
  λ w, (Return tt,
        mkWorld (ref w) (sockets w) (alter cancel t (timers w)) (process_env w),
        [EClearTimeout t]).

(** *** Util functions *)

Definition excluded_envs : list string :=
  [ "SST_DEBUG_ENDPOINT"; "SST_DEBUG_SRC_HANDLER"; "SST_DEBUG_SRC_PATH";
    "AWS_LAMBDA_FUNCTION_MEMORY_SIZE"; "AWS_LAMBDA_LOG_GROUP_NAME";
    "AWS_LAMBDA_LOG_STREAM_NAME"; "LD_LIBRARY_PATH"; "LAMBDA_TASK_ROOT";
    "AWS_LAMBDA_RUNTIME_API"; "AWS_EXECUTION_ENV"; "AWS_XRAY_DAEMON_ADDRESS";
    "AWS_LAMBDA_INITIALIZATION_TYPE"; "PATH"; "PWD"; "LAMBDA_RUNTIME_DIR";
    "LANG"; "NODE_PATH"; "TZ"; "SHLVL"; "_AWS_XRAY_DAEMON_ADDRESS";
    "_AWS_XRAY_DAEMON_PORT"; "AWS_XRAY_CONTEXT_MISSING"; "_HANDLER";
    "_X_AMZN_TRACE_ID" ].

(** [envs[key] = value] on the plain object [envs], for a string [value]:
    the key [__proto__] goes to the setter of [Object.prototype], which
    ignores a string and writes nothing; any other key is written, in place
    when [envs] has it and last otherwise. *)
Fixpoint put (k v : string) (envs : list (string * string)) : list (string * string) :=
  match envs with
  | [] => [(k, v)]
  | (k', v') :: envs' =>
      if bool_decide (k' = k) then (k', v) :: envs' else (k', v') :: put k v envs'
  end.

Definition env_set (envs : list (string * string)) (k v : string)
  : list (string * string) :=
  if bool_decide (k = "__proto__") then envs else put k v envs.

(** [process.env] is given as the list of its keys, each with its value. *)
Definition constructEnvs (env : list (string * string)) : list (string * string) :=
  foldl (λ envs kv, env_set envs kv.1 kv.2) []
        (filter (λ kv, kv.1 ∉ excluded_envs) env).

(** *** The functions of [main] *)

(** The keep-alive callback handed to [setTimeout]. *)
Definition keepAlive : M unit :=
  let* r := get_ref in
  match ws r with
  | Some c => ws_send c KeepAlive
  | None => raise TypeError
  end.

Definition sendMessage (now : Z) : M unit :=
  let* r := get_ref in
  match ws r with
  | None => raise TypeError
  | Some c =>
      match context r with
      | None => raise TypeError
      | Some ctx =>
          let* srcPath := getenv "SST_DEBUG_SRC_PATH" in
          let* srcHandler := getenv "SST_DEBUG_SRC_HANDLER" in
          let* env := (λ w, (Return (constructEnvs (process_env w)), w, [])) in
          ws_send c (LambdaRequest
            (mkRequest (debugRequestId r) (getRemainingTimeInMillis ctx now)
               srcPath srcHandler (event r)
               (functionName ctx) (memoryLimitInMB ctx) (awsRequestId ctx) env)) >>
          let* t := setTimeout now 540000 in
          set_ref (with_keepAliveTimer (Some t))
      end
  end.

Definition connectAndSendMessage (now : Z) : M unit :=
  let* endpoint := getenv "SST_DEBUG_ENDPOINT" in
  let* c := new_WebSocket endpoint in
  set_ref (with_ws (Some c)) >>
  set_ref (with_wsConnectedAt now) >>
  set_ref (with_wsLastConnectError None).

Definition disconnect : M unit :=
  let* r := get_ref in
  match ws r with
  | None => raise TypeError
  | Some c => set_old_handlers c >> ws_close c
  end.

(** The fields [receiveMessage] destructures out of [JSON.parse(data)]. *)
Definition failedNotConnected : string :=
  "server.failedToSendRequestDueToClientNotConnected".
Definition failedUnknown : string := "server.failedToSendRequestDueToUnknown".
Definition lambdaResponse : string := "client.lambdaResponse".

(** [a === s] for a parsed field [a] and a string [s]. *)
Definition is_string (a : option json) (s : string) : bool :=
  match a with
  | Some (JStr s') => bool_decide (s' = s)
  | _ => false
  end.

(** [a !== b] for a parsed field [a] and the stored [_ref.debugRequestId]. *)
Definition differs (a : option json) (b : option string) : bool :=
  match a, b with
  | None, None => false
  | Some (JStr s), Some s' => negb (bool_decide (s = s'))
  | _, _ => true
  end.

(** [data] is the result of [JSON.parse]; [None] when it is not JSON. *)
Definition receiveMessage (data : option json) : M unit :=
  match data with
  | None => raise SyntaxError
  | Some JNull => raise TypeError
  | Some j =>
      let action := field j "action" in
      let debugRequestId_ := field j "debugRequestId" in
      let responseData := field j "responseData" in
      let responseError := field j "responseError" in
      if is_string action failedNotConnected then
        raise (Error "Debug client not connected.")
      else if is_string action failedUnknown then
        raise (Error "Failed to send request to debug client.")
      else
        let* r := get_ref in
        if negb (is_string action lambdaResponse)
           || differs debugRequestId_ (debugRequestId r) then ret tt
        else
          match keepAliveTimer r with
          | Some t => clearTimeout t
          | None => ret tt
          end >>
          if truthy responseError then
            raise (Deserialized
                     (ErrorCodec.deserializeError_json (default JNull responseError)))
          else
            match callback r with
            | Some cb => emit (ECallback cb responseData)
            | None => raise TypeError
            end
  end.

(** The test of [ws.onclose] on the stored error event. *)
Definition unresolvable (e : ErrorEvent) : bool :=
  bool_decide (type e = "error") && String.prefix "getaddrinfo ENOTFOUND" (message e).

Definition onclose_live (now : Z) : M unit :=
  let* r := get_ref in
  match keepAliveTimer r with
  | Some t => clearTimeout t
  | None => ret tt
  end >>
  match wsLastConnectError r with
  | None => raise TypeError
  | Some e =>
      if unresolvable e then set_ref (with_ws None)
      else connectAndSendMessage now
  end.

Definition onopen_live (now : Z) : M unit := sendMessage now.
Definition onmessage_live (data : option json) : M unit := receiveMessage data.
Definition onerror_live (e : ErrorEvent) : M unit :=
  set_ref (with_wsLastConnectError (Some e)).

Definition main (now : Z) (ev : json) (ctx : Context) (cb : nat) : M unit :=
  let ctx := mkContext (functionName ctx) (memoryLimitInMB ctx) (awsRequestId ctx)
                       (deadlineMs ctx) false in
  set_ref (with_invocation ev ctx cb (awsRequestId ctx +:+ "-" +:+ pretty now)) >>
  let* r := get_ref in
  match ws r with
  | None => connectAndSendMessage now
  | Some _ =>
      if (now - wsConnectedAt r >=? CONNECTION_LIFESPAN)%Z then
        disconnect >> connectAndSendMessage now
      else sendMessage now
  end.

(** *** Host events *)

Inductive Event :=
| Invoke (ev : json) (ctx : Context) (cb : nat)
| WsOpen (c : nat)
| WsClose (c : nat)
| WsError (c : nat) (e : ErrorEvent)
| WsMessage (c : nat) (data : option json)
| Timeout (t : nat).

(** A socket emits nothing after its [close] event. *)
Definition socket (c : nat) : M (option Socket) :=
  λ w, (Return (match sockets w !! c with
                | Some s => if closed s then None else Some s
                | None => None
                end), w, []).

Definition mark_closed (c : nat) : M unit :=
  λ w, (Return tt,
        mkWorld (ref w)
          (alter (λ s, mkSocket (url s) (onopen s) (onclose s) (onmessage s) (onerror s) true)
                 c (sockets w))
          (timers w) (process_env w), []).

(** A timer runs its callback once, not before it is due, unless cleared. *)
Definition fire (now : Z) (t : nat) : M bool :=
  λ w, match timers w !! t with
       | Some tm =>
           match status tm with
           | Pending =>
               if (due tm <=? now)%Z then
                 (Return true,
                  mkWorld (ref w) (sockets w)
                          (<[t := mkTimer (due tm) Fired]> (timers w)) (process_env w), [])
               else (Return false, w, [])
           | _ => (Return false, w, [])
           end
       | None => (Return false, w, [])
       end.

Definition handle (now : Z) (e : Event) : M unit :=
  match e with
  | Invoke ev ctx cb => main now ev ctx cb
  | WsOpen c =>
      let* s := socket c in
      match s with
      | Some s => match onopen s with Live => onopen_live now | Old => ret tt end
      | None => ret tt
      end
  | WsClose c =>
      let* s := socket c in
      match s with
      | Some s =>
          mark_closed c >>
          match onclose s with Live => onclose_live now | Old => ret tt end
      | None => ret tt
      end
  | WsError c e =>
      let* s := socket c in
      match s with
      | Some s => match onerror s with Live => onerror_live e | Old => ret tt end
      | None => ret tt
      end
  | WsMessage c data =>
      let* s := socket c in
      match s with
      | Some s => match onmessage s with Live => onmessage_live data | Old => ret tt end
      | None => ret tt
      end
  | Timeout t =>
      let* go := fire now t in
      if go then keepAlive else ret tt
  end.

(** One turn of the event loop; an exception escaping a handler is logged
    as [EThrow]. *)
Definition step (w : World) (te : Z * Event) : World * list Effect :=
  match handle te.1 te.2 w with
  | (Return _, w', es) => (w', es)
  | (Raise x, w', es) => (w', es ++ [EThrow x])
  end.

Fixpoint run (w : World) (tr : list (Z * Event)) : World * list Effect :=
  match tr with
  | [] => (w, [])
  | te :: tr' =>
      let '(w1, e1) := step w te in
      let '(w2, e2) := run w1 tr' in
      (w2, e1 ++ e2)
  end.

(** *** Observations on logs and worlds *)

Definition is_open (e : Effect) : bool :=
  match e with ENewWebSocket _ _ => true | _ => false end.
Definition is_send (e : Effect) : bool :=
  match e with ESend _ _ => true | _ => false end.
Definition is_callback (e : Effect) : bool :=
  match e with ECallback _ _ => true | _ => false end.
Definition is_invoke (e : Event) : bool :=
  match e with Invoke _ _ _ => true | _ => false end.
Definition is_close (e : Event) : bool :=
  match e with WsClose _ => true | _ => false end.

Definition count (p : Effect → bool) (es : list Effect) : nat :=
  length (List.filter p es).

(** The log of [if (_ref.keepAliveTimer) clearTimeout(_ref.keepAliveTimer)]. *)
Definition clear_log (t : option nat) : list Effect :=
  match t with
  | Some t => [EClearTimeout t]
  | None => []
  end.

Definition is_live (h : Handler) : bool :=
  match h with Live => true | Old => false end.

(** A socket that can still reach the stub: not closed, and carrying at
    least one handler of [connectAndSendMessage]. *)
Definition listening (s : Socket) : bool :=
  negb (closed s)
  && (is_live (onopen s) || is_live (onclose s) || is_live (onmessage s)
      || is_live (onerror s)).

(** Only the socket held in [_ref.ws] is listening. *)
Definition single_listener (w : World) : Prop :=
  ∀ c s, sockets w !! c = Some s → listening s = true → ws (ref w) = Some c.

(** No handle is held and no socket is listening. *)
Definition quiescent (w : World) : Prop :=
  ws (ref w) = None ∧ ∀ c s, sockets w !! c = Some s → listening s = false.

(** An invocation arriving less than the lifespan after [t0], or any event
    other than a close. *)
Definition within_lifespan (t0 : Z) (te : Z * Event) : Prop :=
  match te.2 with
  | Invoke _ _ _ => (te.1 - t0 < CONNECTION_LIFESPAN)%Z
  | WsClose _ => False
  | _ => True
  end.

(** An event emitted by socket [c]. *)
Definition on_socket (c : nat) (e : Event) : bool :=
  match e with
  | WsOpen c' | WsClose c' | WsError c' _ | WsMessage c' _ => bool_decide (c' = c)
  | _ => false
  end.

(** What the message handler may do in world [w]: stop the stored timer,
    call the stored callback, throw. *)
Definition message_effect (w : World) (e : Effect) : Prop :=
  (∃ t, e = EClearTimeout t ∧ keepAliveTimer (ref w) = Some t)
  ∨ (∃ d cb, e = ECallback cb d ∧ callback (ref w) = Some cb)
  ∨ (∃ x, e = EThrow x).



(** *** Sample worlds (the scenarios of the specification) *)

Definition ctx0 : Context := mkContext "fn" "128" "req" 30000 true.
Definition env0 : list (string * string) :=
  [("SST_DEBUG_ENDPOINT", "wss://debug"); ("PATH", "/bin"); ("STAGE", "dev")].
Definition payload0 : json := JObj [("x", JNum 1)].
Definition response (id : string) : json :=
  JObj [("action", JStr "client.lambdaResponse"); ("debugRequestId", JStr id);
        ("responseData", JObj [("y", JNum 2)])].

(** One invocation at time 5, before its socket has opened. *)
Definition w_invoked : World := (run (initial env0) [(5%Z, Invoke payload0 ctx0 7)]).1.

(** The same, after the socket has opened at time 6 and the request is out. *)
Definition w_sent : World :=
  (run (initial env0) [(5%Z, Invoke payload0 ctx0 7); (6%Z, WsOpen 0)]).1.

(** A transient error event (scenario D) and an unresolvable-target one
    (scenario E). *)
Definition econnreset : ErrorEvent := mkErrorEvent "error" "ECONNRESET".
Definition enotfound : ErrorEvent := mkErrorEvent "error" "getaddrinfo ENOTFOUND host".
Definition w_reset : World := (run w_sent [(7%Z, WsError 0 econnreset)]).1.

End Relay.

(** ** Facts about the relay *)

Module RelayFacts.
Import JSON Relay.

Lemma count_app p a b : count p (a ++ b) = count p a + count p b.
Proof. unfold count. by rewrite List.filter_app, length_app. Qed.

Ltac split_match :=
  match goal with
  | |- context [match ?x with _ => _ end] =>
      lazymatch x with
      | context [match _ with _ => _ end] => fail
      | _ => destruct x eqn:?
      end
  end.

Ltac exec :=
  unfold step, handle, main, onopen_live, onclose_live, onmessage_live, onerror_live,
    receiveMessage, sendMessage, connectAndSendMessage, disconnect, keepAlive,
    bind, ret, raise, emit, get_ref, set_ref, getenv, socket, mark_closed, fire,
    new_WebSocket, set_old_handlers, ws_close, ws_send, setTimeout, clearTimeout;
  simpl.

Lemma step_keeps_invocation (w : World) (te : Z * Event) :
  is_invoke te.2 = false →
  event (ref (step w te).1) = event (ref w)
  ∧ context (ref (step w te).1) = context (ref w)
  ∧ callback (ref (step w te).1) = callback (ref w)
  ∧ debugRequestId (ref (step w te).1) = debugRequestId (ref w)
  ∧ process_env (step w te).1 = process_env w.
Proof.
  destruct w as [[] ss ts env], te as [now []]; try discriminate; intros _; exec;
    repeat (split_match; simpl; try done).
Qed.

Lemma run_keeps_invocation (tr : list (Z * Event)) (w : World) :
  Forall (λ te, is_invoke te.2 = false) tr →
  event (ref (run w tr).1) = event (ref w)
  ∧ context (ref (run w tr).1) = context (ref w)
  ∧ callback (ref (run w tr).1) = callback (ref w)
  ∧ debugRequestId (ref (run w tr).1) = debugRequestId (ref w)
  ∧ process_env (run w tr).1 = process_env w.
Proof.
  revert w. induction tr as [|te tr IH]; intros w Htr; [done|].
  inversion Htr as [|?? Hte Htr']; subst. simpl.
  destruct (step w te) as [w1 e1] eqn:Hstep.
  destruct (run w1 tr) as [w2 e2] eqn:Hrun. simpl.
  specialize (IH w1 Htr'). rewrite Hrun in IH. simpl in IH.
  pose proof (step_keeps_invocation w te Hte) as Hk. rewrite Hstep in Hk. simpl in Hk.
  destruct IH as (-> & -> & -> & -> & ->). done.
Qed.

(** A step other than an invocation or a close leaves the transport alone
    and opens nothing. *)
Lemma step_keeps_transport (w : World) (te : Z * Event) :
  is_invoke te.2 = false → is_close te.2 = false →
  ws (ref (step w te).1) = ws (ref w)
  ∧ wsConnectedAt (ref (step w te).1) = wsConnectedAt (ref w)
  ∧ sockets (step w te).1 = sockets w
  ∧ count is_open (step w te).2 = 0.
Proof.
  destruct w as [[] ss ts env], te as [now []]; try discriminate; intros _ _; exec;
    repeat (split_match; simpl; try done).
Qed.

(** C8, counterexample. The frame [null] is no failure signal and does not
    carry the response action, yet it is not dropped: destructuring the
    parsed value throws a TypeError. A frame that is not JSON throws a
    SyntaxError in [JSON.parse]. *)
Lemma null_frame_is_thrown :
  is_string (field JNull "action") failedNotConnected = false
  ∧ is_string (field JNull "action") failedUnknown = false
  ∧ is_string (field JNull "action") lambdaResponse = false
  ∧ step w_sent (7%Z, WsMessage 0 (Some JNull)) = (w_sent, [EThrow TypeError])
  ∧ step w_sent (7%Z, WsMessage 0 None) = (w_sent, [EThrow SyntaxError])
  ∧ step w_sent (7%Z, WsMessage 0 (Some JNull)) ≠ (w_sent, []).
Proof. split_and!; try reflexivity. discriminate. Qed.

(** C8, amended. A frame that parses to a value other than [null], that is
    not a failure signal, and whose action is not the response action or
    whose request id differs from the stored one, is dropped by the live
    message handler: the world is unchanged and the log is empty, so no
    completion, no failure, and socket, request and timer stay as they
    were. *)
Theorem stale_frame_discarded (w : World) (c : nat) (s : Socket) (now : Z) (j : json) :
  sockets w !! c = Some s → closed s = false → onmessage s = Live →
  j ≠ JNull →
  is_string (field j "action") failedNotConnected = false →
  is_string (field j "action") failedUnknown = false →
  is_string (field j "action") lambdaResponse = false
  ∨ differs (field j "debugRequestId") (debugRequestId (ref w)) = true →
  step w (now, WsMessage c (Some j)) = (w, []).
Proof.
  intros Hs Hc Hm Hj H1 H2 H3.
  destruct w as [r ss ts env]. simpl in *.
  exec. rewrite Hs, Hc, Hm.
  destruct j; try congruence; simpl in *; try reflexivity.
  rewrite H1, H2. simpl.
  destruct H3 as [-> | ->]; simpl; try reflexivity.
  rewrite orb_true_r. reflexivity.
Qed.

Lemma stale_frame_discarded_witness :
  step w_sent (7%Z, WsMessage 0 (Some (response "req-4"))) = (w_sent, []).
Proof.
  apply (stale_frame_discarded w_sent 0
           (mkSocket (Some "wss://debug") Live Live Live Live false));
    try reflexivity; [discriminate | right; reflexivity].
Defined.

(** C5. An invocation that finds a socket in [_ref.ws] aged at least
    [CONNECTION_LIFESPAN] = 1800000 ms rotates exactly once before anything
    is sent: the old socket gets the four logging-only handlers and one
    [close], one new socket is created and stored, later events of the old
    socket do nothing, and the new socket's [open] delivers this
    invocation's request. *)
Theorem expired_lifespan_rotates_once (w : World) (c : nat) (s : Socket)
    (now : Z) (ev : json) (ctx : Context) (cb : nat) :
  ws (ref w) = Some c → sockets w !! c = Some s →
  (CONNECTION_LIFESPAN ≤ now - wsConnectedAt (ref w))%Z →
  CONNECTION_LIFESPAN = 1800000%Z ∧
  ∃ w1,
    let c' := length (sockets w) in
    let endpoint := assoc "SST_DEBUG_ENDPOINT" (process_env w) in
    step w (now, Invoke ev ctx cb) = (w1, [EClose c; ENewWebSocket c' endpoint])
    ∧ sockets w1 = <[c := mkSocket (url s) Old Old Old Old (closed s)]> (sockets w)
                   ++ [mkSocket endpoint Live Live Live Live false]
    ∧ ws (ref w1) = Some c'
    ∧ wsConnectedAt (ref w1) = now
    ∧ (∀ t e, on_socket c e = true →
         ∃ w', step w1 (t, e) = (w', []) ∧ ref w' = ref w1)
    ∧ (∀ t, ∃ w2 rq tm,
         step w1 (t, WsOpen c') = (w2, [ESend c' (LambdaRequest rq); ESetTimeout tm 540000])
         ∧ req_event rq = Some ev
         ∧ req_debugRequestId rq = Some (awsRequestId ctx +:+ "-" +:+ pretty now)).
Proof.
  intros Hws Hs Hage. split; [reflexivity|].
  destruct w as [[] ss ts env]. simpl in *. subst.
  assert (Hlt : c < length ss) by (eapply lookup_lt_Some; eauto).
  assert (Hge : (now - wsConnectedAt0 >=? CONNECTION_LIFESPAN)%Z = true)
    by (apply Z.geb_le; lia).
  eexists. exec. rewrite Hge. simpl. rewrite length_alter.
  split; [reflexivity|]. simpl.
  assert (Halt : alter retire c ss = <[c:=mkSocket (url s) Old Old Old Old (closed s)]> ss).
  { apply list_eq. intros i. destruct (decide (i = c)) as [->|Hne].
    - rewrite list_lookup_alter_eq, Hs, list_lookup_insert_eq by done. done.
    - rewrite list_lookup_alter_ne, list_lookup_insert_ne by done. done. }
  rewrite Halt.
  split; [reflexivity|]. split; [reflexivity|]. split; [reflexivity|].
  split.
  - intros t e He.
    destruct e; simpl in He; try discriminate; apply bool_decide_eq_true in He; subst;
      exec; rewrite lookup_app_l, list_lookup_insert_eq by (rewrite ?length_insert; done);
      simpl; destruct (closed s); simpl; eauto.
  - intros t. exec.
    rewrite lookup_app_r by (rewrite length_insert; done).
    rewrite length_insert, Nat.sub_diag. simpl. eauto 10.
Qed.

Lemma expired_lifespan_rotates_once_witness :
  ws (ref w_sent) = Some 0 ∧ wsConnectedAt (ref w_sent) = 5%Z ∧
  ∃ w1, step w_sent (1800005%Z, Invoke JNull ctx0 8)
        = (w1, [EClose 0; ENewWebSocket 1 (Some "wss://debug")]).
Proof.
  split; [reflexivity|]. split; [reflexivity|].
  destruct (expired_lifespan_rotates_once w_sent 0
              (mkSocket (Some "wss://debug") Live Live Live Live false)
              1800005%Z JNull ctx0 8) as (_ & w1 & H & _);
    [reflexivity | reflexivity | vm_compute; discriminate |].
  exists w1. exact H.
Defined.

(** An invocation that finds a socket younger than the lifespan sends on it
    and touches nothing of the transport. *)
Lemma invoke_reuses_socket (w : World) (c : nat) (now : Z) (ev : json)
    (ctx : Context) (cb : nat) :
  ws (ref w) = Some c →
  (now - wsConnectedAt (ref w) < CONNECTION_LIFESPAN)%Z →
  ∃ w' rq tm,
    step w (now, Invoke ev ctx cb)
    = (w', [ESend c (LambdaRequest rq); ESetTimeout tm 540000])
    ∧ req_event rq = Some ev
    ∧ req_debugRequestId rq = Some (awsRequestId ctx +:+ "-" +:+ pretty now)
    ∧ sockets w' = sockets w
    ∧ ws (ref w') = Some c
    ∧ wsConnectedAt (ref w') = wsConnectedAt (ref w).
Proof.
  intros Hws Hage. destruct w as [[] ss ts env]. simpl in *. subst.
  assert (Hlt : (now - wsConnectedAt0 >=? CONNECTION_LIFESPAN)%Z = false).
  { destruct (Z.geb_spec (now - wsConnectedAt0) CONNECTION_LIFESPAN); [lia | done]. }
  exec. rewrite Hlt. simpl. eauto 10.
Qed.

Lemma run_within_lifespan (t0 : Z) (c : nat) (tr : list (Z * Event)) (w : World) :
  Forall (within_lifespan t0) tr →
  ws (ref w) = Some c → wsConnectedAt (ref w) = t0 →
  ws (ref (run w tr).1) = Some c
  ∧ wsConnectedAt (ref (run w tr).1) = t0
  ∧ sockets (run w tr).1 = sockets w
  ∧ count is_open (run w tr).2 = 0.
Proof.
  revert w. induction tr as [|[now e] tr IH]; intros w Htr Hws Hat; [done|].
  inversion Htr as [|?? Hte Htr']; subst. simpl.
  destruct (step w (now, e)) as [w1 e1] eqn:Hstep.
  destruct (run w1 tr) as [w2 e2] eqn:Hrun. simpl.
  assert (ws (ref w1) = Some c ∧ wsConnectedAt (ref w1) = wsConnectedAt (ref w)
          ∧ sockets w1 = sockets w ∧ count is_open e1 = 0) as (Hws1 & Hat1 & Hss1 & He1).
  { destruct (is_invoke e) eqn:Hinv.
    - destruct e; try discriminate. unfold within_lifespan in Hte. simpl in Hte.
      destruct (invoke_reuses_socket w c now ev ctx cb Hws Hte)
        as (w' & rq & tm & Hs & _ & _ & ? & ? & ?).
      rewrite Hs in Hstep. injection Hstep as <- <-. done.
    - destruct (is_close e) eqn:Hcl.
      { destruct e; try discriminate. destruct Hte. }
      pose proof (step_keeps_transport w (now, e) Hinv Hcl) as Hk.
      rewrite Hstep in Hk. simpl in Hk. destruct Hk as (-> & -> & -> & ->). done. }
  specialize (IH w1 Htr' Hws1 Hat1). rewrite Hrun in IH. simpl in IH.
  destruct IH as (-> & -> & -> & He2).
  rewrite count_app, He1, He2, Hss1. done.
Qed.

(** C6. After the first invocation of a process has opened the socket at
    [t0], any run of events in which every invocation arrives less than
    [CONNECTION_LIFESPAN] after [t0] (and the socket does not close) keeps
    the number of sockets opened at 1; each further such invocation sends
    its request on that socket and changes nothing of the transport. *)
Theorem reuse_within_lifespan (env : list (string * string)) (t0 : Z) (ev : json)
    (ctx : Context) (cb : nat) (tr : list (Z * Event)) :
  Forall (within_lifespan t0) tr →
  let r := run (initial env) ((t0, Invoke ev ctx cb) :: tr) in
  count is_open r.2 = 1
  ∧ ws (ref r.1) = Some 0
  ∧ wsConnectedAt (ref r.1) = t0
  ∧ length (sockets r.1) = 1
  ∧ ∀ now ev' ctx' cb',
      (now - t0 < CONNECTION_LIFESPAN)%Z →
      ∃ w' rq tm,
        step r.1 (now, Invoke ev' ctx' cb')
        = (w', [ESend 0 (LambdaRequest rq); ESetTimeout tm 540000])
        ∧ req_event rq = Some ev'
        ∧ sockets w' = sockets r.1
        ∧ ws (ref w') = Some 0
        ∧ wsConnectedAt (ref w') = t0.
Proof.
  intros Htr. simpl.
  destruct (step (initial env) (t0, Invoke ev ctx cb)) as [w1 e1] eqn:Hstep.
  unfold initial in Hstep. revert Hstep. exec. intros [= <- <-].
  match goal with |- context [run ?w tr] => set (w1 := w) end.
  pose proof (run_within_lifespan t0 0 tr w1 Htr eq_refl eq_refl) as (Hws & Hat & Hss & Hop).
  destruct (run w1 tr) as [w2 e2] eqn:Hrun. simpl in *.
  split; [unfold count in *; simpl; by rewrite Hop|].
  split; [done|]. split; [done|]. split; [by rewrite Hss|].
  intros now ev' ctx' cb' Hage.
  destruct (invoke_reuses_socket w2 0 now ev' ctx' cb' Hws) as (w' & rq & tm & ? & ? & ? & ? & ? & ?);
    [by rewrite Hat|].
  exists w', rq, tm. split_and!; try done; congruence.
Qed.

Lemma reuse_within_lifespan_witness :
  count is_open
    (run (initial env0)
       [(0%Z, Invoke payload0 ctx0 7); (1%Z, WsOpen 0);
        (2%Z, WsMessage 0 (Some (response "req-0")));
        (5000%Z, Invoke payload0 ctx0 8); (1799999%Z, Invoke JNull ctx0 9)]).2 = 1.
Proof.
  apply (reuse_within_lifespan env0 0%Z payload0 ctx0 7
           [(1%Z, WsOpen 0); (2%Z, WsMessage 0 (Some (response "req-0")));
            (5000%Z, Invoke payload0 ctx0 8); (1799999%Z, Invoke JNull ctx0 9)]).
  repeat constructor; unfold within_lifespan; simpl; unfold CONNECTION_LIFESPAN; lia.
Defined.

(** The close handler when an [error] event has been stored since the
    socket was created, and is not an unresolvable-target failure: it creates
    exactly one new socket (after stopping the keep-alive timer); when that
    socket opens, the request is sent again with the request id and the
    event stored in [_ref], which no step other than a new invocation ever
    changes. *)
Lemma transient_close_reconnects_and_resends (w : World) (c : nat) (s : Socket)
    (e : ErrorEvent) (ctx : Context) (now : Z) :
  sockets w !! c = Some s → closed s = false → onclose s = Live →
  wsLastConnectError (ref w) = Some e → unresolvable e = false →
  context (ref w) = Some ctx →
  ∃ w1,
    let c' := length (sockets w) in
    step w (now, WsClose c)
    = (w1, clear_log (keepAliveTimer (ref w))
           ++ [ENewWebSocket c' (assoc "SST_DEBUG_ENDPOINT" (process_env w))])
    ∧ ws (ref w1) = Some c'
    ∧ (∀ t, ∃ w2 rq tm,
         step w1 (t, WsOpen c') = (w2, [ESend c' (LambdaRequest rq); ESetTimeout tm 540000])
         ∧ req_debugRequestId rq = debugRequestId (ref w)
         ∧ req_event rq = event (ref w))
    ∧ (∀ tr, Forall (λ te, is_invoke te.2 = false) tr →
         debugRequestId (ref (run w tr).1) = debugRequestId (ref w)
         ∧ event (ref (run w tr).1) = event (ref w)).
Proof.
  intros Hs Hc Ho He Hu Hctx.
  assert (Hlt : c < length (sockets w)) by (eapply lookup_lt_Some; eauto).
  destruct w as [[? ? ? ? ? ? kat ?] ss ts env]. simpl in *. subst.
  destruct kat; eexists; exec; rewrite Hs, Hc, Ho; simpl; rewrite Hu; simpl;
    rewrite ?length_alter; (split_and!; [reflexivity | reflexivity | |]).
  1,3: intros t; exec; rewrite lookup_app_r by (rewrite length_alter; done);
       rewrite length_alter, Nat.sub_diag; simpl; eauto 10.
  all: intros tr Htr;
    match goal with |- context [run ?w tr] =>
      pose proof (run_keeps_invocation tr w Htr) as (? & _ & _ & ? & _) end;
    done.
Qed.

Lemma transient_close_reconnects_and_resends_witness :
  ∃ w1, step w_reset (8%Z, WsClose 0)
        = (w1, [EClearTimeout 0; ENewWebSocket 1 (Some "wss://debug")])
        ∧ ∃ w2 rq tm,
            step w1 (9%Z, WsOpen 1)
            = (w2, [ESend 1 (LambdaRequest rq); ESetTimeout tm 540000])
            ∧ req_debugRequestId rq = Some "req-5"
            ∧ req_event rq = Some payload0.
Proof.
  destruct (transient_close_reconnects_and_resends w_reset 0
              (mkSocket (Some "wss://debug") Live Live Live Live false)
              econnreset (mkContext "fn" "128" "req" 30000 false) 8%Z)
    as (w1 & H1 & _ & H2 & _); try reflexivity.
  exists w1. split; [exact H1|]. exact (H2 9%Z).
Defined.

(** The three steps of a reconnect followed by a close, one by one. *)
Lemma close_reconnect_state (w : World) (c : nat) (s : Socket)
    (e : ErrorEvent) (now : Z) :
  sockets w !! c = Some s → closed s = false → onclose s = Live →
  wsLastConnectError (ref w) = Some e → unresolvable e = false →
  let w1 := (step w (now, WsClose c)).1 in
  ws (ref w1) = Some (length (sockets w))
  ∧ wsLastConnectError (ref w1) = None
  ∧ context (ref w1) = context (ref w)
  ∧ debugRequestId (ref w1) = debugRequestId (ref w)
  ∧ sockets w1 !! length (sockets w)
    = Some (mkSocket (assoc "SST_DEBUG_ENDPOINT" (process_env w)) Live Live Live Live false).
Proof.
  intros Hs Hc Ho He Hu.
  destruct w as [[? ? ? ? ? ? kat ?] ss ts env]. simpl in *. subst.
  destruct kat; exec; rewrite Hs, Hc, Ho; simpl; rewrite Hu; simpl;
    rewrite ?length_alter; (split_and!; try reflexivity);
    rewrite lookup_app_r by (rewrite length_alter; lia);
    by rewrite length_alter, Nat.sub_diag.
Qed.

Lemma open_sends_request (w : World) (c : nat) (s : Socket) (ctx : Context) (t : Z) :
  ws (ref w) = Some c → sockets w !! c = Some s → closed s = false → onopen s = Live →
  context (ref w) = Some ctx →
  ∃ rq,
    (step w (t, WsOpen c)).2
    = [ESend c (LambdaRequest rq); ESetTimeout (length (timers w)) 540000]
    ∧ req_debugRequestId rq = debugRequestId (ref w)
    ∧ ref (step w (t, WsOpen c)).1 = with_keepAliveTimer (Some (length (timers w))) (ref w)
    ∧ sockets (step w (t, WsOpen c)).1 = sockets w.
Proof.
  intros Hw Hs Hc Ho Hctx.
  destruct w as [[] ss ts env]. simpl in *. subst.
  exec. rewrite Hs, Hc, Ho. simpl. eexists. split_and!; reflexivity.
Qed.

Lemma close_on_null_error (w : World) (c : nat) (s : Socket) (now : Z) :
  sockets w !! c = Some s → closed s = false → onclose s = Live →
  wsLastConnectError (ref w) = None →
  (step w (now, WsClose c)).2 = clear_log (keepAliveTimer (ref w)) ++ [EThrow TypeError]
  ∧ ref (step w (now, WsClose c)).1 = ref w
  ∧ length (sockets (step w (now, WsClose c)).1) = length (sockets w).
Proof.
  intros Hs Hc Ho He.
  destruct w as [[? ? ? ? ? ? kat ?] ss ts env]. simpl in *. subst.
  exec. rewrite Hs, Hc, Ho. simpl. destruct kat; simpl; by rewrite length_alter.
Qed.

(** C1. A close is not always followed by a reconnect. The close handler
    reconnects on a stored transient [error] event, but
    [connectAndSendMessage] sets the stored event back to [null]; when the
    new socket, once open and the request resent under the same id, closes
    in its turn with no [error] event of its own, the handler stops the
    timer and throws a TypeError reading the type of [null]: no further
    socket is created and [_ref.ws] keeps the closed one. *)
Theorem close_after_reconnect_is_not_retried (w : World) (c : nat) (s : Socket)
    (e : ErrorEvent) (ctx : Context) (now t1 t2 : Z) :
  sockets w !! c = Some s → closed s = false → onclose s = Live →
  wsLastConnectError (ref w) = Some e → unresolvable e = false →
  context (ref w) = Some ctx →
  let c' := length (sockets w) in
  let w1 := (step w (now, WsClose c)).1 in
  let w2 := (step w1 (t1, WsOpen c')).1 in
  let w3 := (step w2 (t2, WsClose c')).1 in
  ws (ref w1) = Some c'
  ∧ wsLastConnectError (ref w1) = None
  ∧ (∃ rq tm,
       (step w1 (t1, WsOpen c')).2 = [ESend c' (LambdaRequest rq); ESetTimeout tm 540000]
       ∧ req_debugRequestId rq = debugRequestId (ref w)
       ∧ (step w2 (t2, WsClose c')).2 = [EClearTimeout tm; EThrow TypeError])
  ∧ ws (ref w3) = Some c'
  ∧ length (sockets w3) = length (sockets w2).
Proof.
  intros Hs Hc Ho He Hu Hctx c' w1 w2 w3.
  destruct (close_reconnect_state w c s e now Hs Hc Ho He Hu)
    as (Hws1 & Herr1 & Hctx1 & Hid1 & Hs1).
  fold w1 c' in Hws1, Herr1, Hctx1, Hid1, Hs1.
  rewrite Hctx in Hctx1.
  destruct (open_sends_request w1 c' _ ctx t1 Hws1 Hs1 eq_refl eq_refl Hctx1)
    as (rq & Hlog2 & Hid2 & Href2 & Hss2).
  fold w2 in Href2, Hss2.
  destruct (close_on_null_error w2 c'
              (mkSocket (assoc "SST_DEBUG_ENDPOINT" (process_env w)) Live Live Live Live false)
              t2) as (Hlog3 & Href3 & Hlen3);
    [by rewrite Hss2 | done | done | by rewrite Href2 |].
  fold w3 in Href3, Hlen3.
  split_and!; [done | done | | by rewrite Href3, Href2 | done].
  exists rq, (length (timers w1)). split_and!; [done | congruence |].
  by rewrite Hlog3, Href2.
Qed.

Lemma close_after_reconnect_is_not_retried_witness :
  let w1 := (step w_reset (8%Z, WsClose 0)).1 in
  let w2 := (step w1 (9%Z, WsOpen 1)).1 in
  (step w_reset (8%Z, WsClose 0)).2
  = [EClearTimeout 0; ENewWebSocket 1 (Some "wss://debug")]
  ∧ (step w2 (10%Z, WsClose 1)).2 = [EClearTimeout 1; EThrow TypeError]
  ∧ ws (ref (step w2 (10%Z, WsClose 1)).1) = Some 1.
Proof.
  intros w1 w2.
  destruct (close_after_reconnect_is_not_retried w_reset 0
              (mkSocket (Some "wss://debug") Live Live Live Live false)
              econnreset (mkContext "fn" "128" "req" 30000 false) 8%Z 9%Z 10%Z)
    as (_ & _ & _ & H & _); try reflexivity.
  split; [reflexivity|]. split; [reflexivity|]. exact H.
Defined.

Ltac lookup_cases :=
  repeat match goal with
  | H : (_ ++ [_]) !! _ = Some _ |- _ =>
      apply lookup_app_Some in H; destruct H as [H | [? H]];
      [| apply list_lookup_singleton_Some in H; destruct H as [? <-]]
  | H : alter _ ?i _ !! ?j = Some _ |- _ =>
      destruct (decide (i = j));
      [subst; rewrite list_lookup_alter_eq in H
      | rewrite list_lookup_alter_ne in H by done]
  | H : _ <$> ?x = Some _ |- _ => destruct x eqn:?; simpl in H; [|discriminate]
  | H : Some _ = Some _ |- _ => injection H as <-
  end.

Lemma listening_intro (s : Socket) :
  closed s = false →
  onopen s = Live ∨ onclose s = Live ∨ onmessage s = Live ∨ onerror s = Live →
  listening s = true.
Proof.
  unfold listening. intros -> H. simpl.
  destruct H as [-> | [-> | [-> | ->]]]; simpl; rewrite ?orb_true_r; done.
Qed.

Ltac use_listener Inv :=
  repeat match goal with
  | H : ?ss !! ?c = Some ?s, Hl : listening ?s = true |- _ =>
      lazymatch goal with
      | _ : _ = Some c |- _ => fail
      | _ => pose proof (Inv c s H Hl)
      end
  | H : ?ss !! ?c = Some ?s, Hc : closed ?s = false, Ho : _ ?s = Live |- _ =>
      lazymatch goal with
      | _ : listening s = true |- _ => fail
      | _ => assert (listening s = true) by (apply listening_intro; auto)
      end
  end.

Lemma single_listener_step (w : World) (te : Z * Event) :
  single_listener w → single_listener (step w te).1.
Proof.
  destruct w as [[] ss ts env], te as [now []]; unfold single_listener; simpl;
    intros Inv; exec; repeat (split_match; simpl); intros c' s' Hl Hli;
    lookup_cases; simpl in *; try done; try (by eauto).
  all: rewrite ?length_alter in *.
  all: try (unfold listening, retire in Hli; simpl in Hli;
            rewrite ?andb_false_r in Hli; discriminate).
  all: use_listener Inv; simplify_eq; try (f_equal; lia).
Qed.

Lemma single_listener_run (tr : list (Z * Event)) (w : World) :
  single_listener w → single_listener (run w tr).1.
Proof.
  revert w. induction tr as [|te tr IH]; intros w Hw; [done|]. simpl.
  pose proof (single_listener_step w te Hw) as H1.
  destruct (step w te) as [w1 e1]. specialize (IH w1 H1).
  destruct (run w1 tr) as [w2 e2]. done.
Qed.

Lemma single_listener_initial (env : list (string * string)) :
  single_listener (initial env).
Proof. intros c s H. done. Qed.

(** With no handle held and no socket listening, nothing but a new
    invocation opens or sends anything. *)
Lemma quiescent_step (w : World) (te : Z * Event) :
  quiescent w → is_invoke te.2 = false →
  quiescent (step w te).1
  ∧ count is_open (step w te).2 = 0
  ∧ count is_send (step w te).2 = 0.
Proof.
  destruct w as [[] ss ts env], te as [now []]; unfold quiescent; simpl;
    intros [-> Hq] Hi; try discriminate; exec; repeat (split_match; simpl);
    try done.
  all: match goal with
       | H : _ !! ?c = Some ?s |- _ =>
           pose proof (Hq c s H) as Hn; unfold listening in Hn;
           repeat match goal with H' : _ s = _ |- _ => rewrite H' in Hn end;
           simpl in Hn; rewrite ?orb_true_r in Hn; try discriminate
       end.
  split_and!; try done. intros c0 s0 Hl; lookup_cases; [done | by eauto].
Qed.

Lemma quiescent_run (tr : list (Z * Event)) (w : World) :
  quiescent w → Forall (λ te, is_invoke te.2 = false) tr →
  quiescent (run w tr).1
  ∧ count is_open (run w tr).2 = 0
  ∧ count is_send (run w tr).2 = 0.
Proof.
  revert w. induction tr as [|te tr IH]; intros w Hq Htr; [done|].
  inversion Htr as [|?? Hte Htr']; subst. simpl.
  destruct (quiescent_step w te Hq Hte) as (Hq1 & Ho1 & Hs1).
  destruct (step w te) as [w1 e1]. simpl in *.
  destruct (IH w1 Hq1 Htr') as (Hq2 & Ho2 & Hs2).
  destruct (run w1 tr) as [w2 e2]. simpl in *.
  rewrite !count_app, Ho1, Ho2, Hs1, Hs2. done.
Qed.

(** The close handler on an unresolvable-target error drops the handle and
    leaves no socket listening. *)
Lemma unresolvable_close_quiesces (w : World) (c : nat) (s : Socket)
    (e : ErrorEvent) (now : Z) :
  single_listener w →
  sockets w !! c = Some s → closed s = false → onclose s = Live →
  wsLastConnectError (ref w) = Some e → unresolvable e = true →
  quiescent (step w (now, WsClose c)).1
  ∧ (step w (now, WsClose c)).2 = clear_log (keepAliveTimer (ref w)).
Proof.
  intros Inv Hs Hc Ho He Hu.
  assert (Hl : listening s = true) by (apply listening_intro; auto).
  pose proof (Inv c s Hs Hl) as Hws.
  destruct w as [[? ? ? ? ? ? kat ?] ss ts env]. unfold single_listener in Inv.
  simpl in *. subst.
  exec. rewrite Hs, Hc, Ho. simpl.
  destruct kat; simpl; rewrite Hu; simpl; (split; [split; [done|] | done]).
  all: intros c' s' Hl'; simpl in Hl'; lookup_cases; simpl in *; try done.
  all: destruct (listening s') eqn:Hls; [|done];
    pose proof (Inv c' s' Hl' Hls); congruence.
Qed.

(** C7. In any world reached from the initial one, when the socket closes
    while the stored error event has type "error" and a message starting
    with "getaddrinfo ENOTFOUND", the close handler only stops the timer and
    drops the handle; from then until the next invocation no socket is
    created and nothing is sent, whatever events follow. *)
Theorem unresolvable_close_stops_reconnecting (env : list (string * string))
    (tr0 : list (Z * Event)) (c : nat) (s : Socket) (e : ErrorEvent) (now : Z)
    (tr : list (Z * Event)) :
  let w := (run (initial env) tr0).1 in
  sockets w !! c = Some s → closed s = false → onclose s = Live →
  wsLastConnectError (ref w) = Some e →
  type e = "error" → String.prefix "getaddrinfo ENOTFOUND" (message e) = true →
  Forall (λ te, is_invoke te.2 = false) tr →
  let r := run w ((now, WsClose c) :: tr) in
  (step w (now, WsClose c)).2 = clear_log (keepAliveTimer (ref w))
  ∧ ws (ref (step w (now, WsClose c)).1) = None
  ∧ ws (ref r.1) = None
  ∧ count is_open r.2 = 0
  ∧ count is_send r.2 = 0.
Proof.
  intros w Hs Hc Ho He Ht Hm Htr r.
  assert (Hu : unresolvable e = true).
  { unfold unresolvable. rewrite Hm, bool_decide_eq_true_2 by done. done. }
  assert (Inv : single_listener w)
    by (apply single_listener_run, single_listener_initial).
  destruct (unresolvable_close_quiesces w c s e now Inv Hs Hc Ho He Hu) as (Hq & Hlog).
  subst r. simpl.
  destruct (step w (now, WsClose c)) as [w1 e1] eqn:Hstep. simpl in *.
  destruct (quiescent_run tr w1 Hq Htr) as ((Hws & _) & Ho2 & Hs2).
  destruct (run w1 tr) as [w2 e2]. simpl in *.
  split; [done|]. split; [apply Hq|]. split; [done|].
  rewrite !count_app, Ho2, Hs2, Hlog.
  by destruct (keepAliveTimer (ref w)).
Qed.

Lemma unresolvable_close_stops_reconnecting_witness :
  let tr0 := [(5%Z, Invoke payload0 ctx0 7); (6%Z, WsError 0 enotfound)] in
  let r := run (run (initial env0) tr0).1
               [(7%Z, WsClose 0); (8%Z, WsOpen 0); (9%Z, WsClose 0); (10%Z, Timeout 0)] in
  ws (ref r.1) = None ∧ count is_open r.2 = 0 ∧ count is_send r.2 = 0.
Proof.
  intros tr0 r.
  destruct (unresolvable_close_stops_reconnecting env0 tr0 0
              (mkSocket (Some "wss://debug") Live Live Live Live false)
              enotfound 7%Z [(8%Z, WsOpen 0); (9%Z, WsClose 0); (10%Z, Timeout 0)])
    as (_ & _ & H); try reflexivity; [repeat constructor|].
  exact H.
Defined.

(** A timer that has run stays run. *)
Lemma step_keeps_fired (w : World) (te : Z * Event) (t : nat) (d : Z) :
  timers w !! t = Some (mkTimer d Fired) →
  timers (step w te).1 !! t = Some (mkTimer d Fired).
Proof.
  destruct w as [[] ss ts env], te as [now []]; simpl; intros Ht; exec;
    repeat (split_match; simpl); try done.
  all: repeat first
    [ done
    | apply lookup_app_l_Some
    | match goal with
      | |- alter cancel ?i _ !! _ = _ =>
          destruct (decide (i = t));
          [subst; rewrite list_lookup_alter_eq, Ht; done
          | rewrite list_lookup_alter_ne by done]
      | |- <[?i:=_]> _ !! _ = _ =>
          destruct (decide (i = t));
          [subst; simplify_eq; simpl in *; discriminate
          | rewrite list_lookup_insert_ne by done]
      end ].
Qed.

Lemma run_keeps_fired (tr : list (Z * Event)) (w : World) (t : nat) (d : Z) :
  timers w !! t = Some (mkTimer d Fired) →
  timers (run w tr).1 !! t = Some (mkTimer d Fired).
Proof.
  revert w. induction tr as [|te tr IH]; intros w Ht; [done|]. simpl.
  pose proof (step_keeps_fired w te t d Ht) as H1.
  destruct (step w te) as [w1 e1]. specialize (IH w1 H1).
  destruct (run w1 tr) as [w2 e2]. done.
Qed.

(** C10. Sending the request arms one timer, for exactly 540000 ms. While
    that timer is pending it does nothing before it is due; once due it
    sends one keep-alive frame on the socket then held in [_ref.ws], arms
    nothing, and is marked as run; a timer that is not pending does nothing,
    and a timer that has run never becomes pending again. *)
Theorem keep_alive_timer_fires_once (w : World) (c : nat) (ctx : Context) (now : Z) :
  ws (ref w) = Some c → context (ref w) = Some ctx →
  ∃ w1 rq,
    let t := length (timers w) in
    let d := (now + 540000)%Z in
    sendMessage now w
    = (Return tt, w1, [ESend c (LambdaRequest rq); ESetTimeout t 540000])
    ∧ timers w1 = timers w ++ [mkTimer d Pending]
    ∧ keepAliveTimer (ref w1) = Some t
    ∧ (∀ w' now', timers w' !! t = Some (mkTimer d Pending) → (now' < d)%Z →
         step w' (now', Timeout t) = (w', []))
    ∧ (∀ w' c' now', timers w' !! t = Some (mkTimer d Pending) → (d ≤ now')%Z →
         ws (ref w') = Some c' →
         step w' (now', Timeout t)
         = (mkWorld (ref w') (sockets w') (<[t := mkTimer d Fired]> (timers w'))
                    (process_env w'),
            [ESend c' KeepAlive]))
    ∧ (∀ w' now' tm, timers w' !! t = Some tm → status tm ≠ Pending →
         step w' (now', Timeout t) = (w', []))
    ∧ (∀ w' tr, timers w' !! t = Some (mkTimer d Fired) →
         timers (run w' tr).1 !! t = Some (mkTimer d Fired)).
Proof.
  intros Hws Hctx. destruct w as [[] ss ts env]. simpl in *. subst.
  eexists _, _. exec. split_and!; try reflexivity.
  - intros [r' ss' ts' env'] now' Ht Hlt. simpl in *. exec. rewrite Ht. simpl.
    destruct (Z.leb_spec (now + 540000) now'); [lia | done].
  - intros [r' ss' ts' env'] c' now' Ht Hle Hws'. simpl in *. exec. rewrite Ht. simpl.
    destruct (Z.leb_spec (now + 540000) now'); [|lia]. simpl. rewrite Hws'. done.
  - intros [r' ss' ts' env'] now' tm Ht Hst. simpl in *. exec. rewrite Ht.
    destruct (status tm); done.
  - intros w' tr Ht. by apply run_keeps_fired.
Qed.

Lemma keep_alive_timer_fires_once_witness :
  ∃ w1 rq, sendMessage 6%Z w_invoked
           = (Return tt, w1, [ESend 0 (LambdaRequest rq); ESetTimeout 0 540000])
           ∧ ∃ w2, step w1 (540006%Z, Timeout 0) = (w2, [ESend 0 KeepAlive])
                   ∧ step w2 (540007%Z, Timeout 0) = (w2, []).
Proof.
  destruct (keep_alive_timer_fires_once w_invoked 0
              (mkContext "fn" "128" "req" 30000 false) 6%Z)
    as (w1 & rq & Hsend & Htm & Hk & _ & Hfire & Hidle & _); try reflexivity.
  exists w1, rq. split; [exact Hsend|].
  assert (Hws : ws (ref w1) = Some 0) by (injection Hsend as <- _; reflexivity).
  eexists. split.
  - apply (Hfire w1 0 540006%Z); [rewrite Htm; reflexivity | simpl; lia | exact Hws].
  - apply (Hidle _ 540007%Z (mkTimer 540006 Fired)); [|discriminate].
    simpl. rewrite Htm. reflexivity.
Defined.

(** C3, counterexample. The same response frame delivered twice completes
    the invocation twice: the stored request id is still there after the
    first completion. *)
Lemma duplicate_response_completes_twice :
  let r := run w_sent [(7%Z, WsMessage 0 (Some (response "req-5")));
                       (8%Z, WsMessage 0 (Some (response "req-5")))] in
  r.2 = [EClearTimeout 0; ECallback 7 (Some (JObj [("y", JNum 2)]));
         EClearTimeout 0; ECallback 7 (Some (JObj [("y", JNum 2)]))]
  ∧ debugRequestId (ref r.1) = Some "req-5".
Proof. split; reflexivity. Qed.

(** The outcome of a matched response frame. *)
Lemma matched_response_step (w : World) (c : nat) (s : Socket) (now : Z)
    (j : json) (id : string) (cb : nat) :
  sockets w !! c = Some s → closed s = false → onmessage s = Live →
  field j "action" = Some (JStr lambdaResponse) →
  field j "debugRequestId" = Some (JStr id) →
  debugRequestId (ref w) = Some id →
  callback (ref w) = Some cb →
  step w (now, WsMessage c (Some j))
  = (mkWorld (ref w) (sockets w)
       (match keepAliveTimer (ref w) with
        | Some t => alter cancel t (timers w)
        | None => timers w
        end) (process_env w),
     clear_log (keepAliveTimer (ref w))
     ++ [if truthy (field j "responseError") then
           EThrow (Deserialized
                     (ErrorCodec.deserializeError_json
                        (default JNull (field j "responseError"))))
         else ECallback cb (field j "responseData")]).
Proof.
  intros Hs Hc Hm Ha Hid Hrid Hcb.
  destruct w as [[? ? ? ? ? ? kat ?] ss ts env]. simpl in *. subst.
  destruct j; try discriminate. simpl in *.
  destruct kat; exec; rewrite Hs, Hc, Hm; simpl; rewrite Ha, Hid; simpl;
    rewrite bool_decide_eq_true_2 by done; simpl;
    destruct (truthy (assoc "responseError" fields)); simpl; done.
Qed.

(** C3, amended. On a frame with the response action and the stored
    request id, the live message handler stops the stored keep-alive timer
    and then either throws the deserialized error (when [responseError] is
    truthy) or calls the callback with [responseData], one of the two and
    once per frame; [_ref] and the sockets are left as they were, so the
    same frame delivered again has the same outcome again. *)
Theorem matched_response_completes_per_frame (w : World) (c : nat) (s : Socket)
    (now now' : Z) (j : json) (id : string) (cb : nat) :
  sockets w !! c = Some s → closed s = false → onmessage s = Live →
  field j "action" = Some (JStr lambdaResponse) →
  field j "debugRequestId" = Some (JStr id) →
  debugRequestId (ref w) = Some id →
  callback (ref w) = Some cb →
  let outcome :=
    if truthy (field j "responseError") then
      EThrow (Deserialized
                (ErrorCodec.deserializeError_json (default JNull (field j "responseError"))))
    else ECallback cb (field j "responseData") in
  ∃ w1 w2,
    step w (now, WsMessage c (Some j))
    = (w1, clear_log (keepAliveTimer (ref w)) ++ [outcome])
    ∧ ref w1 = ref w
    ∧ sockets w1 = sockets w
    ∧ step w1 (now', WsMessage c (Some j))
      = (w2, clear_log (keepAliveTimer (ref w)) ++ [outcome]).
Proof.
  intros Hs Hc Hm Ha Hid Hrid Hcb outcome.
  pose proof (matched_response_step w c s now j id cb Hs Hc Hm Ha Hid Hrid Hcb) as H1.
  set (w1 := mkWorld (ref w) (sockets w)
               (match keepAliveTimer (ref w) with
                | Some t => alter cancel t (timers w)
                | None => timers w
                end) (process_env w)) in *.
  pose proof (matched_response_step w1 c s now' j id cb Hs Hc Hm Ha Hid Hrid Hcb) as H2.
  eexists w1, _. split; [exact H1|]. split; [reflexivity|]. split; [reflexivity|].
  exact H2.
Qed.

Lemma matched_response_completes_per_frame_witness :
  ∃ w1 w2,
    step w_sent (7%Z, WsMessage 0 (Some (response "req-5")))
    = (w1, [EClearTimeout 0; ECallback 7 (Some (JObj [("y", JNum 2)]))])
    ∧ step w1 (8%Z, WsMessage 0 (Some (response "req-5")))
      = (w2, [EClearTimeout 0; ECallback 7 (Some (JObj [("y", JNum 2)]))]).
Proof.
  destruct (matched_response_completes_per_frame w_sent 0
              (mkSocket (Some "wss://debug") Live Live Live Live false)
              7%Z 8%Z (response "req-5") "req-5" 7)
    as (w1 & w2 & H1 & _ & _ & H2); try reflexivity.
  exists w1, w2. split; [exact H1 | exact H2].
Defined.

(** C4, counterexample. The "client not connected" signal leaves the message
    handler as a thrown exception; the callback is not called. *)
Lemma failure_signal_is_thrown :
  step w_sent (7%Z, WsMessage 0 (Some (JObj [("action", JStr failedNotConnected)])))
  = (w_sent, [EThrow (Error "Debug client not connected.")]).
Proof. reflexivity. Qed.

(** C4, amended. The two failure signals and a matched response with a
    truthy [responseError] leave the live message handler as exceptions: two
    [Error]s with different messages, and the deserialized error; on none
    of these paths is the callback called. *)
Theorem failures_are_thrown (w : World) (c : nat) (s : Socket) (now : Z)
    (j : json) (id : string) :
  sockets w !! c = Some s → closed s = false → onmessage s = Live →
  (field j "action" = Some (JStr failedNotConnected) →
     step w (now, WsMessage c (Some j))
     = (w, [EThrow (Error "Debug client not connected.")]))
  ∧ (field j "action" = Some (JStr failedUnknown) →
     step w (now, WsMessage c (Some j))
     = (w, [EThrow (Error "Failed to send request to debug client.")]))
  ∧ (field j "action" = Some (JStr lambdaResponse) →
     field j "debugRequestId" = Some (JStr id) →
     debugRequestId (ref w) = Some id →
     truthy (field j "responseError") = true →
     ∃ w1, step w (now, WsMessage c (Some j))
           = (w1, clear_log (keepAliveTimer (ref w))
                  ++ [EThrow (Deserialized
                        (ErrorCodec.deserializeError_json
                           (default JNull (field j "responseError"))))])
           ∧ ref w1 = ref w)
  ∧ Error "Debug client not connected." ≠ Error "Failed to send request to debug client.".
Proof.
  intros Hs Hc Hm.
  destruct w as [[? ? ? ? ? ? kat ?] ss ts env]. simpl in *.
  split_and!; [| | |discriminate].
  - intros Ha. destruct j; try discriminate. simpl in *.
    exec. rewrite Hs, Hc, Hm. simpl. rewrite Ha. done.
  - intros Ha. destruct j; try discriminate. simpl in *.
    exec. rewrite Hs, Hc, Hm. simpl. rewrite Ha. done.
  - intros Ha Hid Hrid Herr. subst. destruct j; try discriminate. simpl in *.
    pose proof (matched_response_step
                  (mkWorld (mkRef ws0 wsConnectedAt0 wsLastConnectError0 event0 context0
                                  callback0 kat (Some id)) ss ts env)
                  c s now (JObj fields) id) as H.
    simpl in H. destruct callback0 as [cb|].
    + rewrite (H cb), Herr by done. eexists. split; reflexivity.
    + destruct kat; eexists; exec; rewrite Hs, Hc, Hm; simpl; rewrite Ha, Hid; simpl;
        rewrite bool_decide_eq_true_2 by done; simpl; rewrite Herr; done.
Qed.

Lemma failures_are_thrown_witness :
  step w_sent (7%Z, WsMessage 0 (Some (JObj [("action", JStr failedUnknown)])))
  = (w_sent, [EThrow (Error "Failed to send request to debug client.")]).
Proof.
  destruct (failures_are_thrown w_sent 0
              (mkSocket (Some "wss://debug") Live Live Live Live false)
              7%Z (JObj [("action", JStr failedUnknown)]) "req-5")
    as (_ & H & _); [reflexivity | reflexivity | reflexivity |].
  apply H. reflexivity.
Defined.

(** C2. When the socket closes and no [error] event was stored since it was
    created, the live close handler reads a property of [null]: after
    stopping the timer it throws a TypeError; no socket is created and the
    handle is kept. *)
Theorem close_without_error_event_throws (w : World) (c : nat) (s : Socket) (now : Z) :
  sockets w !! c = Some s → closed s = false → onclose s = Live →
  wsLastConnectError (ref w) = None →
  (step w (now, WsClose c)).2 = clear_log (keepAliveTimer (ref w)) ++ [EThrow TypeError]
  ∧ ref (step w (now, WsClose c)).1 = ref w.
Proof.
  intros Hs Hc Ho He.
  destruct w as [[? ? ? ? ? ? kat ?] ss ts env]. simpl in *. subst.
  exec. rewrite Hs, Hc, Ho. simpl. destruct kat; done.
Qed.

(** The idle close of a socket that never reported an error: one invocation
    answered, then the socket closes. *)
Lemma close_without_error_event_throws_witness :
  let w := (run w_sent [(7%Z, WsMessage 0 (Some (response "req-5")))]).1 in
  wsLastConnectError (ref w) = None
  ∧ (step w (660000%Z, WsClose 0)).2 = [EClearTimeout 0; EThrow TypeError].
Proof.
  intros w. split; [reflexivity|].
  apply (close_without_error_event_throws w 0
           (mkSocket (Some "wss://debug") Live Live Live Live false)); reflexivity.
Defined.

End RelayFacts.

(** ** Facts about the error codec *)

Module ErrorCodecFacts.
Import JSON ErrorCodec.

(** *** Slots *)

Lemma assoc_upsert_eq k f ps :
  assoc k (upsert k f ps) = Some (f (assoc k ps)).
Proof.
  induction ps as [|[k' p] ps IH]; simpl.
  - by rewrite bool_decide_eq_true_2.
  - case_bool_decide; simpl; [by rewrite bool_decide_eq_true_2|].
    by rewrite bool_decide_eq_false_2.
Qed.

Lemma assoc_upsert_ne k k' f ps :
  k ≠ k' → assoc k' (upsert k f ps) = assoc k' ps.
Proof.
  intros Hne. induction ps as [|[k'' p] ps IH]; simpl.
  - by rewrite bool_decide_eq_false_2.
  - case_bool_decide; simpl; [subst; by rewrite !bool_decide_eq_false_2|].
    by rewrite IH.
Qed.

Lemma upsert_keys k f ps :
  (upsert k f ps).*1 = if bool_decide (k ∈ ps.*1) then ps.*1 else ps.*1 ++ [k].
Proof.
  induction ps as [|[k' p] ps IH]; csimpl; [done|].
  destruct (decide (k' = k)) as [->|Hk].
  - rewrite !bool_decide_eq_true_2; [done | apply elem_of_cons; by left | done].
  - rewrite (bool_decide_eq_false_2 (k' = k)) by done. csimpl. rewrite IH.
    destruct (decide (k ∈ ps.*1)) as [Hin|Hin].
    + rewrite !bool_decide_eq_true_2; [done | apply elem_of_cons; by right | done].
    + rewrite !bool_decide_eq_false_2; [done | | done].
      intros Hin'. apply elem_of_cons in Hin' as [->|]; done.
Qed.

Lemma upsert_NoDup k f ps : NoDup ps.*1 → NoDup (upsert k f ps).*1.
Proof.
  intros Hnd. rewrite upsert_keys. case_bool_decide as Hin; [done|].
  apply NoDup_app. split_and!; [done | | apply NoDup_singleton].
  intros x Hx Hx'. apply list_elem_of_singleton in Hx'. by subst.
Qed.

Lemma upsert_elem_of k f ps kp :
  kp ∈ upsert k f ps → kp ∈ ps ∨ kp = (k, f (assoc k ps)).
Proof.
  induction ps as [|[k' p] ps IH]; simpl.
  - intros H. apply list_elem_of_singleton in H. by right.
  - case_bool_decide as Hk; intros H; apply elem_of_cons in H as [->|H].
    + subst. by right.
    + left. apply elem_of_cons. by right.
    + left. apply elem_of_cons. by left.
    + destruct (IH H) as [?|?]; [left; apply elem_of_cons; by right | by right].
Qed.

Lemma assoc_elem_of {A} k (a : A) ps : assoc k ps = Some a → (k, a) ∈ ps.
Proof.
  induction ps as [|[k' p] ps IH]; simpl; [done|].
  case_bool_decide; [intros [= ->]; subst; apply elem_of_cons; by left
                    | intros; apply elem_of_cons; right; auto].
Qed.

Lemma elem_of_assoc {A} k (a : A) ps :
  NoDup ps.*1 → (k, a) ∈ ps → assoc k ps = Some a.
Proof.
  induction ps as [|[k' p] ps IH]; csimpl; intros Hnd Hin.
  - by apply elem_of_nil in Hin.
  - apply NoDup_cons in Hnd as [Hk' Hnd].
    apply elem_of_cons in Hin as [[= -> ->]|Hin].
    + by rewrite bool_decide_eq_true_2.
    + rewrite bool_decide_eq_false_2; [auto|].
      intros ->. apply Hk'. apply list_elem_of_fmap. by exists (k, a).
Qed.

(** *** Writes to the store *)

Lemma write_length (h : heap) (to : nat) k f : length (write h to k f) = length h.
Proof. apply length_alter. Qed.

Lemma write_lookup_ne (h : heap) (to : nat) k f (x : nat) : x ≠ to → write h to k f !! x = h !! x.
Proof. intros. unfold write. by rewrite list_lookup_alter_ne. Qed.

Lemma obj_lookup (h : heap) (l : nat) o : h !! l = Some o → obj h l = o.
Proof. unfold obj, loc. by intros ->. Qed.

Lemma obj_dangling (h : heap) (l : nat) : h !! l = None → obj h l = Object Plain [] Original.
Proof. unfold obj, loc. by intros ->. Qed.

Lemma obj_same (h h' : heap) (l : nat) : h' !! l = h !! l → obj h' l = obj h l.
Proof. intros E. unfold obj, loc. by rewrite E. Qed.

Lemma obj_write_ne (h : heap) (to : nat) k f (x : nat) : x ≠ to → obj (write h to k f) x = obj h x.
Proof. intros. unfold obj, loc. by rewrite write_lookup_ne. Qed.

Lemma obj_write_eq (h : heap) (to : nat) k f :
  to < length h →
  obj (write h to k f) to
  = Object (okind (obj h to)) (upsert k f (oprops (obj h to))) (oproto (obj h to)).
Proof.
  intros Hlt. destruct (lookup_lt_is_Some_2 h to Hlt) as [o E].
  rewrite (obj_lookup h to o E).
  apply obj_lookup. unfold write. by rewrite list_lookup_alter_eq, E.
Qed.

Lemma setPrototype_length (h : heap) (to : nat) pr : length (setPrototype h to pr) = length h.
Proof. apply length_alter. Qed.

Lemma setPrototype_lookup_ne (h : heap) (to : nat) pr (x : nat) :
  x ≠ to → setPrototype h to pr !! x = h !! x.
Proof. intros. unfold setPrototype. by rewrite list_lookup_alter_ne. Qed.

Lemma obj_setPrototype_eq (h : heap) (to : nat) pr :
  to < length h →
  obj (setPrototype h to pr) to = Object (okind (obj h to)) (oprops (obj h to)) pr.
Proof.
  intros Hlt. destruct (lookup_lt_is_Some_2 h to Hlt) as [o E].
  rewrite (obj_lookup h to o E).
  apply obj_lookup. unfold setPrototype. by rewrite list_lookup_alter_eq, E.
Qed.

Lemma get_of_assoc (h : heap) (to : nat) k p :
  assoc k (oprops (obj h to)) = Some p → get h (VObj to) k = pvalue p.
Proof. intros E. simpl. by rewrite E. Qed.

Lemma slot_is_get (h : heap) (to : nat) k v : slot_is h to k v → get h (VObj to) k = v.
Proof. intros (p & Hp & <-). by apply get_of_assoc. Qed.

Lemma slot_is_same (h h' : heap) (to : nat) k v :
  h' !! to = h !! to → slot_is h to k v → slot_is h' to k v.
Proof. intros E. unfold slot_is. by rewrite (obj_same h h' to E). Qed.

(** *** Well-formed stores *)

Lemma below_mono n m v : n ≤ m → below n v → below m v.
Proof. destruct v; simpl; auto; lia. Qed.

Lemma proto_wf_mono n m (l : nat) pr : n ≤ m → proto_wf n l pr → proto_wf m l pr.
Proof. destruct pr; simpl; auto; lia. Qed.

Lemma object_wf_mono n m o : n ≤ m → object_wf n o → object_wf m o.
Proof.
  intros Hle [Hb Hnd]. split; [|done].
  eapply Forall_impl; [exact Hb|]. intros kp. by apply below_mono.
Qed.

Lemma object_wf_empty n c pr : object_wf n (Object c [] pr).
Proof. split; [constructor | constructor]. Qed.

Lemma heap_wf_obj (h : heap) (l : nat) : heap_wf h → object_wf (length h) (obj h l).
Proof.
  intros [Hwf _]. destruct (h !! l) eqn:E.
  - rewrite (obj_lookup _ _ _ E). eapply Forall_lookup_1; eauto.
  - rewrite (obj_dangling _ _ E). apply object_wf_empty.
Qed.

Lemma heap_wf_proto (h : heap) (l : nat) :
  heap_wf h → proto_wf (length h) l (oproto (obj h l)).
Proof.
  intros [_ Hp]. destruct (decide (l < length h)) as [Hl|Hl].
  - rewrite Forall_forall in Hp. apply Hp. apply elem_of_seq. lia.
  - rewrite obj_dangling; [done|]. apply lookup_ge_None. lia.
Qed.

Lemma heap_wf_intro (h : heap) :
  (∀ (x : nat) o, h !! x = Some o → object_wf (length h) o) →
  (∀ x : nat, x < length h → proto_wf (length h) x (oproto (obj h x))) →
  heap_wf h.
Proof.
  intros Ho Hp. split.
  - apply Forall_lookup. exact Ho.
  - apply Forall_forall. intros x Hx. apply elem_of_seq in Hx. apply Hp. lia.
Qed.

Lemma heap_wf_lookup (h : heap) (x : nat) o :
  heap_wf h → h !! x = Some o → object_wf (length h) o.
Proof. intros [Hwf _] Hx. eapply Forall_lookup_1; eauto. Qed.

Lemma heap_wf_alloc h o :
  heap_wf h → object_wf (S (length h)) o → (∀ p, oproto o ≠ Ref p) → heap_wf (h ++ [o]).
Proof.
  intros Hwf Ho Hpr.
  assert (Hlen : length (h ++ [o]) = S (length h)) by (rewrite length_app; simpl; lia).
  apply heap_wf_intro; rewrite Hlen.
  - intros x o' Hx. apply lookup_app_Some in Hx as [Hx|[_ Hx]].
    + eapply object_wf_mono; [|by eapply heap_wf_lookup]. lia.
    + apply list_lookup_singleton_Some in Hx as [_ <-]. done.
  - intros x Hx. destruct (decide (x < length h)) as [Hlt|Hge].
    + rewrite (obj_same h (h ++ [o]) x) by (by apply lookup_app_l).
      eapply proto_wf_mono; [|by apply heap_wf_proto]. lia.
    + assert (x = length h) as -> by lia.
      rewrite (obj_lookup (h ++ [o]) (length h) o).
      * destruct (oproto o) eqn:E; try done. by destruct (Hpr l).
      * rewrite lookup_app_r by lia. by rewrite Nat.sub_diag.
Qed.

Lemma object_wf_upsert n k f o :
  object_wf n o → (∀ old, below n (pvalue (f old))) →
  object_wf n (Object (okind o) (upsert k f (oprops o)) (oproto o)).
Proof.
  intros [Hb Hnd] Hf. split; simpl; [|by apply upsert_NoDup].
  apply Forall_forall. intros kp Hin.
  apply upsert_elem_of in Hin as [Hin | ->]; [|apply Hf].
  rewrite Forall_forall in Hb. by apply Hb.
Qed.

Lemma heap_wf_write (h : heap) (to : nat) k f :
  heap_wf h → (∀ old, below (length h) (pvalue (f old))) → heap_wf (write h to k f).
Proof.
  intros Hwf Hf. apply heap_wf_intro; rewrite write_length.
  - intros x o Hx. destruct (decide (x = to)) as [->|Hne].
    + unfold write in Hx. rewrite list_lookup_alter_eq in Hx.
      destruct (h !! to) as [o'|] eqn:E; simpl in Hx; [|done].
      injection Hx as <-. apply object_wf_upsert; [|done].
      by eapply heap_wf_lookup.
    + rewrite write_lookup_ne in Hx by done. by eapply heap_wf_lookup.
  - intros x Hx. destruct (decide (x = to)) as [->|Hne].
    + rewrite obj_write_eq by done. cbn [oproto]. by apply heap_wf_proto.
    + rewrite obj_write_ne by done. by apply heap_wf_proto.
Qed.

Lemma heap_wf_setPrototype (h : heap) (to : nat) pr :
  heap_wf h → proto_wf (length h) to pr → heap_wf (setPrototype h to pr).
Proof.
  intros Hwf Hpr. apply heap_wf_intro; rewrite setPrototype_length.
  - intros x o Hx. destruct (decide (x = to)) as [->|Hne].
    + unfold setPrototype in Hx. rewrite list_lookup_alter_eq in Hx.
      destruct (h !! to) as [o'|] eqn:E; simpl in Hx; [|done].
      injection Hx as <-. destruct (heap_wf_lookup h to o' Hwf E) as [? ?]. by split.
    + rewrite setPrototype_lookup_ne in Hx by done. by eapply heap_wf_lookup.
  - intros x Hx. destruct (decide (x = to)) as [->|Hne].
    + rewrite obj_setPrototype_eq by done. done.
    + rewrite (obj_same h _ x) by (by apply setPrototype_lookup_ne). by apply heap_wf_proto.
Qed.

(** *** Prototype chains *)

Lemma inheritsAccessor_original fuel (h : heap) o :
  oproto o = Original → inheritsAccessor fuel h o = true.
Proof. intros E. destruct fuel; simpl; by rewrite E. Qed.

Lemma instanceOfError_original fuel (h : heap) o :
  oproto o = Original →
  instanceOfError fuel h o = match okind o with NativeError _ => true | _ => false end.
Proof. intros E. destruct fuel; simpl; by rewrite E. Qed.

(** In a well-formed store a prototype chain only goes up, so it cannot
    come back to an earlier object. *)
Lemma onChain_above fuel (h : heap) (p to : nat) :
  heap_wf h → to < p → onChain fuel h p to = false.
Proof.
  intros Hwf. revert p. induction fuel as [|fuel IH]; intros p Hp; simpl;
    rewrite bool_decide_eq_false_2 by lia; simpl.
  - by destruct (oproto (obj h p)).
  - pose proof (heap_wf_proto h p Hwf) as Hpr.
    destruct (oproto (obj h p)) as [| | |p']; try done. simpl in Hpr. apply IH. lia.
Qed.

(** What a source object reads does not depend on the store beyond its
    region. *)
Lemma inherit_region (n : nat) (hs h : heap) k :
  region n hs → (∀ x : nat, x < n → h !! x = hs !! x) →
  ∀ (d l f f' : nat), l < n → n - l ≤ d → n - l ≤ f → n - l ≤ f' →
    inherit f h (obj h l) k = inherit f' hs (obj hs l) k.
Proof.
  intros [_ Hr] Hsame. induction d as [|d IH]; intros l f f' Hl Hd Hf Hf'; [lia|].
  rewrite (obj_same hs h l) by auto.
  destruct (Hr l Hl) as [_ Hpr].
  destruct f as [|f], f' as [|f']; try lia; simpl.
  destruct (oproto (obj hs l)) as [| | |p] eqn:E; try done. simpl in Hpr.
  rewrite (IH p f f') by lia.
  by rewrite (obj_same hs h p) by (apply Hsame; lia).
Qed.

Lemma get_region (n : nat) (hs h : heap) (l : nat) k :
  region n hs → (∀ x : nat, x < n → h !! x = hs !! x) → n ≤ length h → l < n →
  get h (VObj l) k = get hs (VObj l) k.
Proof.
  intros Hreg Hsame Hn Hl. simpl.
  rewrite (inherit_region n hs h k Hreg Hsame n l (length h) (length hs))
    by (destruct Hreg; lia).
  by rewrite (obj_same hs h l) by auto.
Qed.

(** *** Entries *)
Lemma elem_of_entry_list o k v :
  (k, v) ∈ entry_list o ↔ ∃ p, (k, p) ∈ oprops o ∧ enumerable p = true ∧ pvalue p = v.
Proof.
  unfold entry_list. rewrite list_elem_of_omap. split.
  - intros ([k' p] & Hin & Heq). simpl in Heq.
    destruct (enumerable p) eqn:E; [|done]. injection Heq as -> <-. eauto.
  - intros (p & Hin & He & <-). exists (k, p). split; [done|]. simpl. by rewrite He.
Qed.

Lemma entry_own_enum (h : heap) (l : nat) k v :
  NoDup (oprops (obj h l)).*1 → (k, v) ∈ entry_list (obj h l) → own_enum h l k = Some v.
Proof.
  intros Hnd Hin. apply elem_of_entry_list in Hin as (p & Hin & He & Hv).
  unfold own_enum. rewrite (elem_of_assoc k p _ Hnd Hin), He, Hv. done.
Qed.

Lemma own_enum_entry (h : heap) (l : nat) k v :
  own_enum h l k = Some v → (k, v) ∈ entry_list (obj h l).
Proof.
  unfold own_enum. destruct (assoc k (oprops (obj h l))) as [p|] eqn:E; [|done].
  destruct (enumerable p) eqn:He; [|done]. intros [= <-].
  apply elem_of_entry_list. exists p. split_and!; [by apply assoc_elem_of | done | done].
Qed.

Lemma own_enum_get (h : heap) (l : nat) k v : own_enum h l k = Some v → get h (VObj l) k = v.
Proof.
  unfold own_enum. simpl. destruct (assoc k (oprops (obj h l))) as [p|]; [|done].
  destruct (enumerable p); [|done]. by intros [= <-].
Qed.

Lemma entry_list_keys_NoDup o : NoDup (oprops o).*1 → NoDup (entry_list o).*1.
Proof.
  unfold entry_list. induction (oprops o) as [|[k p] ps IH]; csimpl; [done|].
  intros Hnd. apply NoDup_cons in Hnd as [Hk Hnd].
  destruct (enumerable p) eqn:E; csimpl; [|auto].
  apply NoDup_cons. split; [|auto].
  intros Hin. apply Hk. apply list_elem_of_fmap in Hin as ([k' v] & -> & Hin).
  apply list_elem_of_omap in Hin as ([k'' p'] & Hin & Heq). simpl in *.
  destruct (enumerable p'); [|done]. injection Heq as -> _.
  apply list_elem_of_fmap. by exists (k', p').
Qed.

(** Distinct references below [n] are at most [n]. *)
Lemma seen_bounded (n : nat) (seen : list jsvalue) :
  NoDup seen → Forall (λ v, ∃ x, v = VObj x ∧ x < n) seen → length seen ≤ n.
Proof.
  intros Hnd Hall.
  assert (Hsub : seen ⊆+ (VObj <$> seq 0 n)).
  { apply NoDup_submseteq; [done|]. intros v Hv.
    rewrite Forall_forall in Hall. destruct (Hall v Hv) as (x & -> & Hx).
    apply list_elem_of_fmap. exists x. split; [done|]. apply elem_of_seq. lia. }
  apply submseteq_length in Hsub. by rewrite length_fmap, length_seq in Hsub.
Qed.

(** *** Assignment *)

Lemma walk_copy_test v :
  negb (truthy v) || negb (bool_decide (typeof v = TObject))
  = match v with VObj _ => false | _ => true end.
Proof. destruct v; simpl; rewrite ?orb_true_r; done. Qed.

Lemma walk_function_test v :
  bool_decide (typeof v = TFunction) = match v with VFun _ => true | _ => false end.
Proof. by destruct v. Qed.

Lemma assign_other_key (h : heap) (to : nat) k v :
  k ≠ "__proto__" →
  assign h to k v = Ok (write h to k (λ old, Prop_ v (from_option enumerable true old))).
Proof. intros Hk. unfold assign. by rewrite (bool_decide_eq_false_2 _ Hk). Qed.

(** Whatever the key, an assignment that returns has touched only its
    target, and there only the slot of its key or the prototype. *)
Lemma assign_frame (h h1 : heap) (to : nat) k v :
  to < length h → assign h to k v = Ok h1 →
  length h1 = length h
  ∧ (∀ x : nat, x ≠ to → h1 !! x = h !! x)
  ∧ okind (obj h1 to) = okind (obj h to)
  ∧ ((oprops (obj h1 to) = oprops (obj h to)
      ∧ k = "__proto__"
      ∧ (oproto (obj h1 to) = oproto (obj h to)
         ∨ match v with
           | VNull => oproto (obj h1 to) = NullProto
           | VFun f => oproto (obj h1 to) = FunProto f
           | VObj p => oproto (obj h1 to) = Ref p
           | _ => False
           end))
     ∨ (oprops (obj h1 to)
        = upsert k (λ old, Prop_ v (from_option enumerable true old)) (oprops (obj h to))
        ∧ oproto (obj h1 to) = oproto (obj h to))).
Proof.
  intros Hto. unfold assign.
  destruct (bool_decide (k = "__proto__")
            && bool_decide (assoc k (oprops (obj h to)) = None)
            && inheritsAccessor (length h) h (obj h to)) eqn:Hc.
  - apply andb_true_iff in Hc as [Hc _]. apply andb_true_iff in Hc as [Hk _].
    apply bool_decide_eq_true_1 in Hk.
    assert (Hset : ∀ pr, length (setPrototype h to pr) = length h
      ∧ (∀ x : nat, x ≠ to → setPrototype h to pr !! x = h !! x)
      ∧ okind (obj (setPrototype h to pr) to) = okind (obj h to)
      ∧ oprops (obj (setPrototype h to pr) to) = oprops (obj h to)
      ∧ oproto (obj (setPrototype h to pr) to) = pr).
    { intros pr. split_and!; [apply setPrototype_length | | | |];
        [intros x Hx; by apply setPrototype_lookup_ne | | |];
        by rewrite obj_setPrototype_eq. }
    unfold setProto. destruct v as [| | | | |f|p].
    1,3,4,5: intros [= <-]; split_and!; try done; left; split_and!; try done; by left.
    + intros [= <-]. destruct (Hset NullProto) as (? & ? & ? & ? & ?).
      split_and!; try done. left. split_and!; try done. by right.
    + intros [= <-]. destruct (Hset (FunProto f)) as (? & ? & ? & ? & ?).
      split_and!; try done. left. split_and!; try done. by right.
    + case_bool_decide as Hsame.
      * intros [= <-]. split_and!; try done. left. split_and!; try done. by right.
      * destruct (onChain (length h) h p to); [done|]. intros [= <-].
        destruct (Hset (Ref p)) as (? & ? & ? & ? & ?).
        split_and!; try done. left. split_and!; try done. by right.
  - intros [= <-]. split_and!.
    + apply write_length.
    + intros x Hx. by apply write_lookup_ne.
    + by rewrite obj_write_eq.
    + right. by rewrite obj_write_eq.
Qed.

(** In a well-formed store, the assignments of the walk return: the value is
    a primitive, the marker, or a copy created after the target. *)
Lemma assign_spec (h : heap) (to : nat) k v :
  heap_wf h → to < length h → below (length h) v →
  (∀ r : nat, v = VObj r → to < r) →
  ∃ h1, assign h to k v = Ok h1 ∧ heap_wf h1.
Proof.
  intros Hwf Hto Hb Hv. unfold assign.
  destruct (bool_decide (k = "__proto__")
            && bool_decide (assoc k (oprops (obj h to)) = None)
            && inheritsAccessor (length h) h (obj h to)).
  - unfold setProto. destruct v as [| | | | |f|p]; try (by exists h).
    + eexists. split; [done|]. by apply heap_wf_setPrototype.
    + eexists. split; [done|]. by apply heap_wf_setPrototype.
    + case_bool_decide; [by exists h|].
      rewrite onChain_above by auto.
      eexists. split; [done|]. apply heap_wf_setPrototype; [done|].
      simpl in *. split; [by apply Hv | done].
  - eexists. split; [done|]. apply heap_wf_write; [done|]. intros old. exact Hb.
Qed.

Lemma assign_slot (h h1 : heap) (to : nat) k v :
  to < length h → k ≠ "__proto__" → assign h to k v = Ok h1 →
  assoc k (oprops (obj h1 to))
  = Some (Prop_ v (from_option enumerable true (assoc k (oprops (obj h to))))).
Proof.
  intros Hto Hk. rewrite assign_other_key by done. intros [= <-].
  rewrite obj_write_eq by done. simpl. by rewrite assoc_upsert_eq.
Qed.

Lemma assign_assoc_ne (h h1 : heap) (to : nat) k k' v :
  to < length h → k ≠ k' → assign h to k v = Ok h1 →
  assoc k' (oprops (obj h1 to)) = assoc k' (oprops (obj h to)).
Proof.
  intros Hto Hne Ha.
  destruct (assign_frame h h1 to k v Hto Ha) as (_ & _ & _ & [(-> & _)|(-> & _)]); [done|].
  by apply assoc_upsert_ne.
Qed.

Lemma all_enumerable_assign (h h1 : heap) (to : nat) k v :
  to < length h → assign h to k v = Ok h1 → all_enumerable h to → all_enumerable h1 to.
Proof.
  intros Hto Ha Hall k' p.
  destruct (assign_frame h h1 to k v Hto Ha) as (_ & _ & _ & [(-> & _)|(-> & _)]);
    [apply Hall|].
  destruct (decide (k = k')) as [<-|Hne].
  - rewrite assoc_upsert_eq. intros [= <-]. simpl.
    destruct (assoc k (oprops (obj h to))) as [p'|] eqn:E; simpl; [|done].
    by apply (Hall k).
  - rewrite assoc_upsert_ne by done. apply Hall.
Qed.

(** The slot [__proto__] stays absent from a target that has none and
    inherits the accessor. *)
Lemma assign_no_proto_slot (h h1 : heap) (to : nat) k v :
  to < length h → assign h to k v = Ok h1 →
  assoc "__proto__" (oprops (obj h to)) = None →
  k ≠ "__proto__" ∨ oproto (obj h to) = Original →
  assoc "__proto__" (oprops (obj h1 to)) = None.
Proof.
  intros Hto Ha Hnone Hk.
  destruct (decide (k = "__proto__")) as [->|Hne].
  - destruct Hk as [Hk|Hpr]; [done|].
    revert Ha. unfold assign.
    rewrite bool_decide_eq_true_2 by done.
    rewrite (bool_decide_eq_true_2 _ Hnone).
    rewrite inheritsAccessor_original by done. cbn [andb]. intros Ha.
    assert (Hslots : oprops (obj h1 to) = oprops (obj h to)); [|by rewrite Hslots].
    unfold setProto in Ha. destruct v as [| | | | |f|p];
      try (injection Ha as <-; by rewrite ?obj_setPrototype_eq).
    case_bool_decide; [by injection Ha as <-|].
    destruct (onChain (length h) h p to); [done|].
    injection Ha as <-. by rewrite obj_setPrototype_eq.
  - by rewrite (assign_assoc_ne h h1 to k "__proto__" v Hto Hne Ha).
Qed.

Lemma assign_keeps_proto (h h1 : heap) (to : nat) k v :
  to < length h → k ≠ "__proto__" → assign h to k v = Ok h1 →
  oproto (obj h1 to) = oproto (obj h to).
Proof.
  intros Hto Hk. rewrite assign_other_key by done. intros [= <-].
  by rewrite obj_write_eq.
Qed.

(** *** The walk returns, and writes only to its target *)

Lemma region_entry (n : nat) (h : heap) (l : nat) k v :
  region n h → l < n → (k, v) ∈ entry_list (obj h l) →
  get h (VObj l) k = v ∧ below n v.
Proof.
  intros [_ Hr] Hl Hin. destruct (Hr l Hl) as [[Hb Hnd] _]. split.
  - apply own_enum_get. by apply entry_own_enum.
  - apply elem_of_entry_list in Hin as (p & Hin & _ & <-).
    rewrite Forall_forall in Hb. apply (Hb (k, p) Hin).
Qed.

Lemma region_same (n : nat) (h h' : heap) :
  region n h → length h ≤ length h' → (∀ x : nat, x < n → h' !! x = h !! x) →
  region n h'.
Proof.
  intros [Hn Hr] Hlen Hsame. split; [lia|].
  intros x Hx. rewrite (obj_same h h' x) by auto. auto.
Qed.

Lemma own_enum_of_assoc (h : heap) (to : nat) k p :
  assoc k (oprops (obj h to)) = Some p → enumerable p = true →
  own_enum h to k = Some (pvalue p).
Proof. intros E He. unfold own_enum. by rewrite E, He. Qed.

Lemma own_enum_same (h h' : heap) (l : nat) k :
  h' !! l = h !! l → own_enum h' l k = own_enum h l k.
Proof. intros E. unfold own_enum. by rewrite (obj_same h h' l E). Qed.

Lemma walk_spec rec (hs : heap) (n : nat) (h0 : heap) (l : nat) seen (to : nat) es :
  region n hs → (∀ x : nat, x < n → h0 !! x = hs !! x) → n ≤ length h0 →
  l < n → n ≤ to → to < length h0 →
  (∀ (hc : heap) (c : nat),
     heap_wf hc → length h0 ≤ length hc →
     (∀ x : nat, x < n → hc !! x = hs !! x) → c < n → VObj c ∉ seen →
     ∃ h2, rec hc (VObj c) = Ok (h2, length hc) ∧ heap_wf h2
           ∧ length hc < length h2
           ∧ (∀ x : nat, x < length hc → h2 !! x = hc !! x)
           ∧ ∀ hf : heap, (∀ x : nat, length hc ≤ x < length h2 → hf !! x = h2 !! x) →
                          Copy hs hf true seen c (length hc)) →
  (∀ k v, (k, v) ∈ es → (k, v) ∈ entry_list (obj hs l)) → NoDup es.*1 →
  ∀ hc : heap,
    heap_wf hc → length h0 ≤ length hc →
    (∀ x : nat, x < length h0 → x ≠ to → hc !! x = h0 !! x) →
    ∃ h1, walk rec (VObj l) seen to es hc = Ok h1 ∧ heap_wf h1
          ∧ length hc ≤ length h1
          ∧ (∀ x : nat, x < length hc → x ≠ to → h1 !! x = hc !! x)
          ∧ okind (obj h1 to) = okind (obj hc to)
          ∧ (∀ k, k ∉ es.*1 →
               assoc k (oprops (obj h1 to)) = assoc k (oprops (obj hc to)))
          ∧ (all_enumerable hc to → all_enumerable h1 to)
          ∧ ("__proto__" ∉ es.*1 → oproto (obj h1 to) = oproto (obj hc to))
          ∧ (assoc "__proto__" (oprops (obj hc to)) = None →
             "__proto__" ∉ es.*1 ∨ oproto (obj hc to) = Original →
             assoc "__proto__" (oprops (obj h1 to)) = None)
          ∧ (∀ k v, (k, v) ∈ es → entry_done hs seen to (length hc) h1 k v).
Proof.
  intros Hreg Hsrc Hn Hl Hto Htolt Hrec.
  induction es as [|[k v] es IH]; intros Hes Hnd hc Hwf Hlen Hfr.
  { exists hc. split_and!; try done. intros k v Hin. by apply elem_of_nil in Hin. }
  assert (Hes' : ∀ k v, (k, v) ∈ es → (k, v) ∈ entry_list (obj hs l))
    by (intros; apply Hes, elem_of_cons; by right).
  assert (Hkv : (k, v) ∈ entry_list (obj hs l)) by (apply Hes, elem_of_cons; by left).
  csimpl in Hnd. apply NoDup_cons in Hnd as [Hk Hnd].
  destruct (region_entry n hs l k v Hreg Hl Hkv) as [Hget Hbelow].
  assert (Hsame : ∀ x : nat, x < n → hc !! x = hs !! x).
  { intros x Hx. rewrite Hfr by lia. by apply Hsrc. }
  assert (Hnotin : ∀ k0, k0 ∉ k :: es.*1 → k ≠ k0 ∧ k0 ∉ es.*1).
  { intros k0 Hk0. split; [intros ->|intros ?]; apply Hk0, elem_of_cons; auto. }
  (* the rest of the loop, after [to[k] = v'] in the store [hx] *)
  assert (Hrest : ∀ (hx : heap) v',
    heap_wf hx → length hc ≤ length hx →
    (∀ x : nat, x < length hc → x ≠ to → hx !! x = hc !! x) →
    obj hx to = obj hc to →
    below (length hx) v' → (∀ r : nat, v' = VObj r → to < r) →
    ∃ hx' h1, assign hx to k v' = Ok hx'
          ∧ walk rec (VObj l) seen to es hx' = Ok h1 ∧ heap_wf h1
          ∧ length hx ≤ length h1
          ∧ (∀ x : nat, x < length hx → x ≠ to → h1 !! x = hx !! x)
          ∧ okind (obj h1 to) = okind (obj hc to)
          ∧ (∀ k', k' ∉ k :: es.*1 →
               assoc k' (oprops (obj h1 to)) = assoc k' (oprops (obj hc to)))
          ∧ (all_enumerable hc to → all_enumerable h1 to)
          ∧ ("__proto__" ∉ k :: es.*1 → oproto (obj h1 to) = oproto (obj hc to))
          ∧ (assoc "__proto__" (oprops (obj hc to)) = None →
             "__proto__" ∉ k :: es.*1 ∨ oproto (obj hc to) = Original →
             assoc "__proto__" (oprops (obj h1 to)) = None)
          ∧ (k ≠ "__proto__" → slot_is h1 to k v')
          ∧ (∀ k' v, (k', v) ∈ es → entry_done hs seen to (length hx) h1 k' v)).
  { intros hx v' Hwfx Hlenx Hfrx Hobjx Hbx Hvx.
    assert (Htox : to < length hx) by lia.
    destruct (assign_spec hx to k v' Hwfx Htox Hbx Hvx) as (hx' & Ha & Hwfx').
    destruct (assign_frame hx hx' to k v' Htox Ha) as (Hlenx' & Hfrx' & Hkx' & _).
    destruct (IH Hes' Hnd hx')
      as (h1 & Hw & Hwf1 & Hlen1 & Hfr1 & Hk1 & Hoth1 & Hen1 & Hpr1 & Hno1 & Hdone1).
    - done.
    - lia.
    - intros x Hx Hne. rewrite Hfrx' by done. rewrite Hfrx by lia. by apply Hfr.
    - rewrite Hlenx' in Hlen1, Hfr1, Hdone1.
      exists hx', h1. split_and!; [done | done | done | done | | | | | | | | done].
      + intros x Hx Hne. rewrite Hfr1 by done. by apply Hfrx'.
      + by rewrite Hk1, Hkx', Hobjx.
      + intros k' Hk'. destruct (Hnotin k' Hk') as [Hne Hk'']. rewrite Hoth1 by done.
        rewrite (assign_assoc_ne hx hx' to k k' v') by done. by rewrite Hobjx.
      + intros Hall. apply Hen1. apply (all_enumerable_assign hx hx' to k v'); [done | done |].
        intros k' p'. rewrite Hobjx. apply Hall.
      + intros Hp. destruct (Hnotin _ Hp) as [Hne Hp']. rewrite Hpr1 by done.
        rewrite (assign_keeps_proto hx hx' to k v') by done. by rewrite Hobjx.
      + intros Hnone Hor. apply Hno1.
        * apply (assign_no_proto_slot hx hx' to k v'); [done | done | by rewrite Hobjx |].
          destruct Hor as [Hp|Hp]; [left; by destruct (Hnotin _ Hp) | right; by rewrite Hobjx].
        * destruct (decide (k = "__proto__")) as [->|Hne]; [by left|].
          destruct Hor as [Hp|Hp]; [left; by destruct (Hnotin _ Hp)|].
          right. rewrite (assign_keeps_proto hx hx' to k v') by done. by rewrite Hobjx.
      + intros Hne.
        exists (Prop_ v' (from_option enumerable true (assoc k (oprops (obj hx to))))).
        split; [|done]. rewrite Hoth1 by done. by apply (assign_slot hx hx' to k v'). }
  cbn [walk]. rewrite walk_function_test, walk_copy_test.
  assert (Hdone_tail : ∀ (hx h1 : heap), length hc ≤ length hx →
    (∀ k' v, (k', v) ∈ es → entry_done hs seen to (length hx) h1 k' v) →
    ∀ k' v, (k', v) ∈ es → entry_done hs seen to (length hc) h1 k' v).
  { intros hx h1 Hlenx Hd k' v0 Hin Hne. destruct (Hd k' v0 Hin Hne) as (D1 & D2 & D3).
    split_and!; [done | done |]. intros c -> Hc.
    destruct (D3 c eq_refl Hc) as (r & Hg & Hr1 & Hr2 & Hcp).
    exists r. split_and!; [done | lia | done |].
    intros hf Hhf. apply Hcp. intros x Hx. apply Hhf. lia. }
  assert (Hcopied : ∀ v', below (length hc) v' → (∀ r : nat, v' ≠ VObj r) →
    (∀ h1, (k ≠ "__proto__" → slot_is h1 to k v') →
           entry_done hs seen to (length hc) h1 k v) →
    ∃ h1, match assign hc to k v' with
          | Ok h' => walk rec (VObj l) seen to es h'
          | TypeErr => TypeErr
          | OutOfFuel => OutOfFuel
          end = Ok h1 ∧ heap_wf h1
          ∧ length hc ≤ length h1
          ∧ (∀ x : nat, x < length hc → x ≠ to → h1 !! x = hc !! x)
          ∧ okind (obj h1 to) = okind (obj hc to)
          ∧ (∀ k0, k0 ∉ ((k, v) :: es).*1 →
               assoc k0 (oprops (obj h1 to)) = assoc k0 (oprops (obj hc to)))
          ∧ (all_enumerable hc to → all_enumerable h1 to)
          ∧ ("__proto__" ∉ ((k, v) :: es).*1 → oproto (obj h1 to) = oproto (obj hc to))
          ∧ (assoc "__proto__" (oprops (obj hc to)) = None →
             "__proto__" ∉ ((k, v) :: es).*1 ∨ oproto (obj hc to) = Original →
             assoc "__proto__" (oprops (obj h1 to)) = None)
          ∧ (∀ k0 v0, (k0, v0) ∈ (k, v) :: es → entry_done hs seen to (length hc) h1 k0 v0)).
  { intros v' Hb Hv' Hhead.
    destruct (Hrest hc v')
      as (hx' & h1 & Ha & Hw & Hwf1 & Hlen1 & Hfr1 & Hk1 & Hoth1 & Hen1 & Hpr1 & Hno1 & Hg1 & Hd1);
      try done.
    { intros r Hr. by destruct (Hv' r). }
    rewrite Ha. exists h1. split_and!; try done.
    intros k0 v0 Hin. apply elem_of_cons in Hin as [[= -> ->]|Hin]; [by apply Hhead|].
    by apply (Hdone_tail hc h1). }
  destruct v as [| | | | | f | c].
  1-5: apply Hcopied; [done | done |]; intros h1 Hg Hne;
       split_and!; [intros _; by apply Hg | intros; done | intros; done].
  - (* a function-valued slot is skipped *)
    destruct (IH Hes' Hnd hc)
      as (h1 & Hw & Hwf1 & Hlen1 & Hfr1 & Hk1 & Hoth1 & Hen1 & Hpr1 & Hno1 & Hd1);
      try done.
    exists h1. split_and!; try done.
    + intros k0 Hk0. apply Hoth1. by destruct (Hnotin k0 Hk0).
    + intros Hp. apply Hpr1. by destruct (Hnotin _ Hp).
    + intros Hnone Hor. apply Hno1; [done|].
      destruct Hor as [Hp|Hp]; [left; by destruct (Hnotin _ Hp) | by right].
    + intros k0 v0 Hin. apply elem_of_cons in Hin as [[= -> ->]|Hin]; [|by apply Hd1].
      intros _. split_and!; [done | intros; done | intros; done].
  - simpl in Hbelow.
    assert (Hg : get hc (VObj l) k = VObj c).
    { rewrite <- Hget. apply (get_region n); [done | done | lia | done]. }
    rewrite Hg. unfold includes.
    destruct (decide (VObj c ∈ seen)) as [Hin|Hnin].
    + rewrite bool_decide_eq_true_2 by done. cbn [negb].
      apply Hcopied; [done | done |]. intros h1 Hg1 Hne. split_and!; [done | |].
      * intros c' [= <-] _. by apply Hg1.
      * intros c' [= <-] Hc'. done.
    + rewrite bool_decide_eq_false_2 by done. cbn [negb].
      destruct (Hrec hc c Hwf Hlen Hsame Hbelow Hnin)
        as (h2 & -> & Hwf2 & Hlen2 & Hfr2 & Hcp2).
      destruct (Hrest h2 (VObj (length hc)))
        as (hx' & h1 & Ha & Hw & Hwf1 & Hlen1 & Hfr1 & Hk1 & Hoth1 & Hen1 & Hpr1 & Hno1
            & Hg1 & Hd1);
        [done | lia | | | simpl; lia | |].
      { intros x Hx Hne. by apply Hfr2. }
      { apply obj_same, Hfr2. lia. }
      { intros r [= <-]. lia. }
      rewrite Ha.
      exists h1. split_and!; [done | done | lia | | done | done | done | done | done |].
      * intros x Hx Hne. rewrite Hfr1 by (done || lia). by apply Hfr2.
      * intros k0 v0 Hin0. apply elem_of_cons in Hin0 as [[= -> ->]|Hin0];
          [|apply (Hdone_tail h2 h1); [lia | done | done]].
        intros Hne. split_and!; [done | intros c' [= <-] Hc'; done |].
        intros c' [= <-] _. exists (length hc). split_and!; [by apply Hg1 | lia | lia |].
        intros hf Hhf. apply Hcp2. intros x Hx.
        rewrite Hhf by lia. apply Hfr1; lia.
Qed.

(** *** The common properties *)

Lemma attach_unfold (n : nat) (hs h : heap) (l to : nat) force c :
  region n hs → (∀ x : nat, x < n → h !! x = hs !! x) → n ≤ length h → l < n →
  attach (VObj l) to force h c
  = match get hs (VObj l) c.1 with
    | VStr s => write h to c.1 (λ _, Prop_ (VStr s) (if force then true else c.2))
    | _ => h
    end.
Proof.
  intros Hreg Hsame Hn Hl. unfold attach, defineProperty.
  by rewrite (get_region n hs h l c.1 Hreg Hsame Hn Hl).
Qed.

Lemma attach_fold_spec (n : nat) (hs : heap) (l to : nat) force cs :
  region n hs → l < n → n ≤ to → NoDup cs.*1 →
  ∀ h : heap,
    (∀ x : nat, x < n → h !! x = hs !! x) → to < length h → heap_wf h →
    let h' := foldl (attach (VObj l) to force) h cs in
    heap_wf h'
    ∧ length h' = length h
    ∧ (∀ x : nat, x ≠ to → h' !! x = h !! x)
    ∧ okind (obj h' to) = okind (obj h to)
    ∧ oproto (obj h' to) = oproto (obj h to)
    ∧ (∀ k, k ∉ cs.*1 ∨ (∀ s, get hs (VObj l) k ≠ VStr s) →
         assoc k (oprops (obj h' to)) = assoc k (oprops (obj h to)))
    ∧ (∀ p e s, (p, e) ∈ cs → get hs (VObj l) p = VStr s →
         assoc p (oprops (obj h' to)) = Some (Prop_ (VStr s) (if force then true else e))).
Proof.
  intros Hreg Hl Hto. induction cs as [|c cs IH]; intros Hnd h Hsame Htolt Hwf; cbn zeta.
  { simpl. split_and!; try done. intros p e s Hin. by apply elem_of_nil in Hin. }
  csimpl in Hnd. apply NoDup_cons in Hnd as [Hc Hnd].
  cbn [foldl]. rewrite (attach_unfold n hs h l to force c) by (done || lia).
  set (h1 := match get hs (VObj l) c.1 with
             | VStr s => write h to c.1 (λ _, Prop_ (VStr s) (if force then true else c.2))
             | _ => h
             end).
  assert (H1 : heap_wf h1 ∧ length h1 = length h
               ∧ (∀ x : nat, x ≠ to → h1 !! x = h !! x)
               ∧ okind (obj h1 to) = okind (obj h to)
               ∧ oproto (obj h1 to) = oproto (obj h to)
               ∧ (∀ k, k ≠ c.1 ∨ (∀ s, get hs (VObj l) k ≠ VStr s) →
                    assoc k (oprops (obj h1 to)) = assoc k (oprops (obj h to)))
               ∧ (∀ s, get hs (VObj l) c.1 = VStr s →
                    assoc c.1 (oprops (obj h1 to))
                    = Some (Prop_ (VStr s) (if force then true else c.2)))).
  { unfold h1. destruct (get hs (VObj l) c.1) as [| | | |s| |] eqn:E;
      try (split_and!; [done | done | done | done | done | done | intros s' [=]]).
    split_and!.
    - by apply heap_wf_write.
    - apply write_length.
    - intros x Hx. by apply write_lookup_ne.
    - by rewrite obj_write_eq.
    - by rewrite obj_write_eq.
    - intros k Hk. rewrite obj_write_eq by done. cbn [oprops].
      destruct (decide (c.1 = k)) as [<-|Hne]; [|by apply assoc_upsert_ne].
      destruct Hk as [Hk|Hk]; [done | by destruct (Hk s)].
    - intros s' [= <-]. rewrite obj_write_eq by done. cbn [oprops].
      by rewrite assoc_upsert_eq. }
  clearbody h1. destruct H1 as (Hwf1 & Hlen1 & Hfr1 & Hk1 & Hp1 & Ho1 & Hs1).
  destruct (IH Hnd h1) as (Hwf2 & Hlen2 & Hfr2 & Hk2 & Hp2 & Ho2 & Hs2);
    [intros x Hx; rewrite Hfr1 by lia; by apply Hsame | lia | done |].
  cbn zeta in *.
  split_and!; [done | lia | | congruence | congruence | |].
  - intros x Hx. rewrite Hfr2 by done. by apply Hfr1.
  - intros k Hk. rewrite Ho2, Ho1; [done | |].
    + destruct Hk as [Hk|Hk]; [left|by right]. intros ->. apply Hk. csimpl.
      apply elem_of_cons. by left.
    + destruct Hk as [Hk|Hk]; [left|by right]. intros ?. apply Hk. csimpl.
      apply elem_of_cons. by right.
  - intros p e s Hin Hg. apply elem_of_cons in Hin as [<-|Hin].
    + cbn [fst snd] in *. rewrite Ho2 by (by left). by apply Hs1.
    + by apply (Hs2 p e s).
Qed.

(** *** The specification of [destroyCircular] *)

Lemma destroyCircular_spec fuel :
  ∀ (hs h : heap) (l : nat) seen to_ force (n : nat),
    heap_wf h → region n hs → n ≤ length h →
    (∀ x : nat, x < n → h !! x = hs !! x) → l < n →
    Forall (λ v, ∃ x : nat, v = VObj x ∧ x < n) seen → NoDup seen → VObj l ∉ seen →
    (∀ t : nat, to_ = Some t → n ≤ t < length h) →
    n < fuel + length seen →
    ∃ h', destroyCircular fuel h (VObj l) seen to_ force = Ok (h', target h to_)
          ∧ heap_wf h'
          ∧ length h ≤ length h'
          ∧ target h to_ < length h'
          ∧ (∀ x : nat, x < length h → x ≠ target h to_ → h' !! x = h !! x)
          ∧ okind (obj h' (target h to_))
            = match to_ with
              | Some t => okind (obj h t)
              | None => if isArray h (VObj l) then Array else Plain
              end
          ∧ (own_enum hs l "__proto__" = None →
             oproto (obj h' (target h to_))
             = match to_ with
               | Some t => oproto (obj h t)
               | None => Original
               end)
          ∧ ((∀ t : nat, to_ = Some t →
                assoc "__proto__" (oprops (obj h t)) = None
                ∧ oproto (obj h t) = Original) →
             assoc "__proto__" (oprops (obj h' (target h to_))) = None)
          ∧ (∀ p e s, (p, e) ∈ commonProperties → get hs (VObj l) p = VStr s →
               assoc p (oprops (obj h' (target h to_)))
               = Some (Prop_ (VStr s) (if force then true else e)))
          ∧ (∀ hf : heap,
               (∀ x : nat, x = target h to_ ∨ length h ≤ x < length h' →
                           hf !! x = h' !! x) →
               Copy hs hf (bool_decide (to_ = None)) seen l (target h to_)).
Proof.
  induction fuel as [|fuel IH];
    intros hs h l seen to_ force n Hwf Hreg Hn Hsrc Hl Hseen Hnd Hnin Hto Hfuel.
  { exfalso.
    assert (length (VObj l :: seen) ≤ n); [|simpl in *; lia].
    apply seen_bounded; [by apply NoDup_cons | constructor; [by exists l | done]]. }
  set (seen' := seen ++ [VObj l]).
  assert (Hseen' : Forall (λ v, ∃ x : nat, v = VObj x ∧ x < n) seen')
    by (apply Forall_app; split; [done | constructor; [by exists l | constructor]]).
  assert (Hnd' : NoDup seen').
  { apply NoDup_app. split_and!; [done | | apply NoDup_singleton].
    intros v Hv Hv'. apply list_elem_of_singleton in Hv'. by subst. }
  assert (Hcommon : NoDup commonProperties.*1) by (apply (bool_decide_unpack _); vm_compute; exact I).
  assert (Hnotcommon : "__proto__" ∉ commonProperties.*1)
    by (apply (bool_decide_unpack _); vm_compute; exact I).
  assert (Hrec : ∀ (hc : heap) (c : nat),
      heap_wf hc → length h ≤ length hc →
      (∀ x : nat, x < n → hc !! x = hs !! x) → c < n → VObj c ∉ seen' →
      ∃ h2, destroyCircular fuel hc (VObj c) seen' None force = Ok (h2, length hc)
            ∧ heap_wf h2 ∧ length hc < length h2
            ∧ (∀ x : nat, x < length hc → h2 !! x = hc !! x)
            ∧ ∀ hf : heap, (∀ x : nat, length hc ≤ x < length h2 → hf !! x = h2 !! x) →
                           Copy hs hf true seen' c (length hc)).
  { intros hc c Hwfc Hlenc Hsame Hc Hcnin.
    destruct (IH hs hc c seen' None force n)
      as (h2 & Hdc & Hwf2 & Hlen2 & Hlt2 & Hfr2 & _ & _ & _ & _ & Hcp2); try done.
    - lia.
    - unfold seen'. rewrite length_app. simpl. lia.
    - unfold target in *. simpl in *.
      exists h2. split_and!; [done | done | lia | |].
      + intros x Hx. apply Hfr2; lia.
      + intros hf Hhf. apply Hcp2. intros x [-> | Hx]; apply Hhf; lia. }
  assert (Hbody : ∀ (h0 : heap) (to : nat) (fresh : bool),
    heap_wf h0 → length h ≤ length h0 → (∀ x : nat, x < n → h0 !! x = hs !! x) →
    n ≤ to → to < length h0 →
    (fresh = true → all_enumerable h0 to) →
    ∃ h1, walk (λ h v, destroyCircular fuel h v seen' None force) (VObj l) seen' to
               (entry_list (obj h0 l)) h0 = Ok h1
          ∧ let h' := foldl (attach (VObj l) to force) h1 commonProperties in
            heap_wf h'
            ∧ length h0 ≤ length h'
            ∧ (∀ x : nat, x < length h0 → x ≠ to → h' !! x = h0 !! x)
            ∧ okind (obj h' to) = okind (obj h0 to)
            ∧ (own_enum hs l "__proto__" = None → oproto (obj h' to) = oproto (obj h0 to))
            ∧ (assoc "__proto__" (oprops (obj h0 to)) = None →
               oproto (obj h0 to) = Original →
               assoc "__proto__" (oprops (obj h' to)) = None)
            ∧ (∀ p e s, (p, e) ∈ commonProperties → get hs (VObj l) p = VStr s →
                 assoc p (oprops (obj h' to))
                 = Some (Prop_ (VStr s) (if force then true else e)))
            ∧ (∀ hf : heap,
                 (∀ x : nat, x = to ∨ length h0 ≤ x < length h' → hf !! x = h' !! x) →
                 Copy hs hf fresh seen l to)).
  { intros h0 to fresh Hwf0 Hlen0 Hsrc0 Hnto Htolt Hfresh.
    assert (Hlto : l ≠ to) by lia.
    assert (Hobjl : obj h0 l = obj hs l) by (apply obj_same, Hsrc0; lia).
    assert (Hndl : NoDup (oprops (obj hs l)).*1).
    { destruct Hreg as [_ Hr]. by destruct (Hr l Hl) as [[_ ?] _]. }
    destruct (walk_spec (λ h v, destroyCircular fuel h v seen' None force)
                hs n h0 l seen' to (entry_list (obj h0 l)) Hreg Hsrc0)
      with (hc := h0)
      as (h1 & Hw & Hwf1 & Hlen1 & Hfr1 & Hk1 & Hoth1 & Hen1 & Hpr1 & Hno1 & Hdone1);
      try done; try lia.
    { intros hc c ? ? ? ? ?. apply Hrec; [done | lia | done | done | done]. }
    { intros k v. by rewrite Hobjl. }
    { apply entry_list_keys_NoDup. by rewrite Hobjl. }
    assert (Hsrc1 : ∀ x : nat, x < n → h1 !! x = hs !! x).
    { intros x Hx. rewrite Hfr1 by lia. by apply Hsrc0. }
    destruct (attach_fold_spec n hs l to force commonProperties Hreg Hl Hnto Hcommon h1)
      as (Hwf2 & Hlen2 & Hfr2 & Hk2 & Hp2 & Ho2 & Hs2); [done | lia | done |].
    cbn zeta in *.
    set (h' := foldl (attach (VObj l) to force) h1 commonProperties) in *.
    assert (Hkeep : ∀ k v, get hs (VObj l) k = v → slot_is h1 to k v → slot_is h' to k v).
    { intros k v Hg (p & Hp & Hpv).
      destruct (decide (k ∈ commonProperties.*1)) as [Hin|Hnc].
      - destruct (get hs (VObj l) k) as [| | | |s| |] eqn:E;
          try (exists p; split; [|done]; rewrite Ho2; [done|]; right; intros s'; by rewrite E).
        apply list_elem_of_fmap in Hin as ([k' e] & -> & Hin). cbn [fst] in *.
        eexists. split; [by apply (Hs2 k' e s)|]. by subst.
      - exists p. split; [|done]. rewrite Ho2; [done | by left]. }
    assert (Hnoproto : own_enum hs l "__proto__" = None →
              "__proto__" ∉ (entry_list (obj h0 l)).*1).
    { intros Hown Hin. apply list_elem_of_fmap in Hin as ([k v] & Hk & Hin).
      cbn [fst] in Hk. subst k. rewrite Hobjl in Hin.
      apply (entry_own_enum hs l _ v Hndl) in Hin. congruence. }
    exists h1. split; [done|]. cbn zeta. fold h'.
    split_and!; [done | lia | | congruence | | | |].
    - intros x Hx Hne. rewrite Hfr2 by done. by apply Hfr1.
    - intros Hown. rewrite Hp2. apply Hpr1. by apply Hnoproto.
    - intros Hnone Horig. rewrite Ho2 by (by left). apply Hno1; [done | by right].
    - intros p e s Hin Hg. by apply (Hs2 p e s).
    - intros hf Hhf.
      assert (Hhfto : hf !! to = h' !! to) by (apply Hhf; by left).
      assert (Hhfen : ∀ k, own_enum hf to k = own_enum h' to k)
        by (intros k; by apply own_enum_same).
      assert (Henum : ∀ k (c : nat) v', fresh = true → get hs (VObj l) k = VObj c →
                slot_is h1 to k v' → own_enum hf to k = Some v').
      { intros k c v' Hf Hg (p & Hp & <-). rewrite Hhfen.
        apply own_enum_of_assoc.
        - rewrite Ho2; [done|]. right. intros s. by rewrite Hg.
        - by apply (Hen1 (Hfresh Hf) k). }
      constructor.
      + intros k v Hne Hown Hcp.
        pose proof (own_enum_get _ _ _ _ Hown) as Hg.
        destruct (Hdone1 k v) as (D1 & _ & _); [rewrite Hobjl; by apply own_enum_entry | done |].
        apply slot_is_get. apply (slot_is_same h'); [done|]. apply Hkeep; [done | by apply D1].
      + intros k c Hne Hown Hc.
        pose proof (own_enum_get _ _ _ _ Hown) as Hg.
        destruct (Hdone1 k (VObj c)) as (_ & D2 & _);
          [rewrite Hobjl; by apply own_enum_entry | done |].
        specialize (D2 c eq_refl Hc).
        assert (Hs' : slot_is h' to k (VStr "[Circular]")).
        { destruct D2 as (p & Hp & Hpv). exists p. split; [|done].
          rewrite Ho2; [done|]. right. intros s. by rewrite Hg. }
        split.
        * apply slot_is_get. by apply (slot_is_same h').
        * intros Hf. by apply (Henum k c).
      + intros k c Hne Hown Hc.
        pose proof (own_enum_get _ _ _ _ Hown) as Hg.
        destruct (Hdone1 k (VObj c)) as (_ & _ & D3);
          [rewrite Hobjl; by apply own_enum_entry | done |].
        destruct (D3 c eq_refl Hc) as (r & Hsr & Hr1 & Hr2 & Hcp).
        assert (Hs' : slot_is h' to k (VObj r)).
        { destruct Hsr as (p & Hp & Hpv). exists p. split; [|done].
          rewrite Ho2; [done|]. right. intros s. by rewrite Hg. }
        exists r. split_and!.
        * apply slot_is_get. by apply (slot_is_same h').
        * lia.
        * intros Hf. by apply (Henum k c).
        * apply Hcp. intros x Hx. rewrite Hhf by (right; lia). apply Hfr2. lia.
      + intros p s Hp Hg.
        apply list_elem_of_fmap in Hp as ([p' e] & -> & Hp). cbn [fst] in *.
        erewrite get_of_assoc; [|rewrite (obj_same h' hf to Hhfto); by apply (Hs2 p' e s)].
        done. }
  cbn [destroyCircular]. fold seen'.
  destruct to_ as [t|]; unfold target, alloc; cbn [from_option id].
  - destruct (Hto t eq_refl) as [Hnt Htlt].
    destruct (Hbody h t false)
      as (h1 & Hw & Hwf2 & Hlen2 & Hfr2 & Hk2 & Hp2 & Hno2 & Hc2 & Hcp2); try done.
    change (entries h (VObj l)) with (Ok (entry_list (obj h l))).
    cbn beta iota. rewrite Hw.
    eexists. split_and!; [done | done | done | lia | done | done | done | | done |].
    + intros Ht. destruct (Ht t eq_refl) as [? ?]. by apply Hno2.
    + rewrite bool_decide_eq_false_2 by done. exact Hcp2.
  - set (o := Object (if isArray h (VObj l) then Array else Plain) [] Original).
    assert (Hwf0 : heap_wf (h ++ [o]))
      by (apply heap_wf_alloc; [done | apply object_wf_empty | done]).
    assert (Hlen0 : length (h ++ [o]) = S (length h)) by (rewrite length_app; simpl; lia).
    assert (Hobj0 : obj (h ++ [o]) (length h) = o).
    { apply obj_lookup. rewrite lookup_app_r by lia. by rewrite Nat.sub_diag. }
    destruct (Hbody (h ++ [o]) (length h) true)
      as (h1 & Hw & Hwf2 & Hlen2 & Hfr2 & Hk2 & Hp2 & Hno2 & Hc2 & Hcp2);
      [done | lia | | lia | lia | |].
    { intros x Hx. rewrite lookup_app_l by lia. by apply Hsrc. }
    { intros _ k p. rewrite Hobj0. done. }
    change (entries (h ++ [o]) (VObj l)) with (Ok (entry_list (obj (h ++ [o]) l))).
    cbn beta iota. rewrite Hw.
    eexists. split_and!; [done | done | lia | lia | | | | | done |].
    + intros x Hx Hne. rewrite Hfr2 by lia. apply lookup_app_l. lia.
    + by rewrite Hk2, Hobj0.
    + intros Hown. by rewrite Hp2, Hobj0.
    + intros _. apply Hno2; by rewrite Hobj0.
    + rewrite bool_decide_eq_true_2 by done. intros hf Hhf. apply Hcp2.
      intros x Hx. apply Hhf. destruct Hx; [by left | right; lia].
Qed.

(** *** Reading a copy along a path *)

Lemma chain_head (h : heap) (l : nat) path locs :
  chain h l path = Some locs → head locs = Some l.
Proof.
  destruct path as [|k path]; simpl; [by intros [= <-]|].
  destruct (own_enum h l k) as [[]|]; try done.
  destruct (chain h l0 path); simpl; [|done]. by intros [= <-].
Qed.

Lemma head_elem_of {A} (l : list A) x : head l = Some x → x ∈ l.
Proof. destruct l; simpl; [done|]. intros [= ->]. apply elem_of_cons. by left. Qed.

Lemma last_cons_Some {A} (l : list A) x y : last l = Some y → last (x :: l) = Some y.
Proof. destruct l; [done|]. done. Qed.

Lemma descend_app (h : heap) v path key :
  descend h v (path ++ [key]) = get h (descend h v path) key.
Proof. revert v. induction path as [|k path IH]; intros v; simpl; [done|]. apply IH. Qed.

Lemma Copy_path (hs hf : heap) path :
  ∀ fresh seen (l t : nat) (locs : list nat),
    Copy hs hf fresh seen l t → "__proto__" ∉ path →
    chain hs l path = Some locs → NoDup locs → (∀ x : nat, x ∈ locs → VObj x ∉ seen) →
    ∃ o : nat, last locs = Some o
      ∧ (∀ key v, key ≠ "__proto__" → own_enum hs o key = Some v → copied v = true →
           descend hf (VObj t) (path ++ [key]) = v)
      ∧ (∀ key (a : nat), key ≠ "__proto__" → own_enum hs o key = Some (VObj a) →
           VObj a ∈ seen ∨ a ∈ locs →
           descend hf (VObj t) (path ++ [key]) = VStr "[Circular]")
      ∧ (∀ p s, p ∈ commonProperties.*1 → get hs (VObj o) p = VStr s →
           descend hf (VObj t) (path ++ [p]) = VStr s)
      ∧ (fresh = true →
           ∃ (locs' : list nat) (o' : nat),
             chain hf t path = Some locs' ∧ last locs' = Some o'
             ∧ NoDup locs' ∧ Forall (λ x, t ≤ x) locs'
             ∧ ∀ key (a : nat), key ≠ "__proto__" → own_enum hs o key = Some (VObj a) →
                 VObj a ∈ seen ∨ a ∈ locs →
                 own_enum hf o' key = Some (VStr "[Circular]")).
Proof.
  induction path as [|k path IH]; intros fresh seen l t locs Hcp Hpath Hch Hnd Hseen.
  - simpl in Hch. injection Hch as <-. exists l. split; [done|].
    destruct Hcp as [fresh seen l t Hc1 Hc2 Hc3 Hc4].
    assert (Hin : ∀ a : nat, VObj a ∈ seen ∨ a ∈ [l] → VObj a ∈ seen ++ [VObj l]).
    { intros a [Ha|Ha]; apply elem_of_app; [by left | right].
      apply list_elem_of_singleton in Ha. subst. apply list_elem_of_singleton. done. }
    split_and!.
    + intros key v Hne Hown Hv. simpl. by apply Hc1.
    + intros key a Hne Hown Ha. simpl. by apply (Hc2 key a Hne Hown), Hin.
    + intros p s Hp Hg. simpl. by apply Hc4.
    + intros ->. exists [t], t. split_and!; [done | done | apply NoDup_singleton | |].
      * by constructor.
      * intros key a Hne Hown Ha. by apply (Hc2 key a Hne Hown); [apply Hin|].
  - simpl in Hch.
    assert (Hk : k ≠ "__proto__") by (intros ->; apply Hpath, elem_of_cons; by left).
    assert (Hpath' : "__proto__" ∉ path) by (intros ?; apply Hpath, elem_of_cons; by right).
    destruct (own_enum hs l k) as [[| | | | | |c]|] eqn:Hown; try done.
    destruct (chain hs c path) as [locs1|] eqn:Hch1; [|done].
    simpl in Hch. injection Hch as <-.
    apply NoDup_cons in Hnd as [Hl Hnd1].
    pose proof (head_elem_of _ _ (chain_head _ _ _ _ Hch1)) as Hc.
    assert (Hcl : c ≠ l) by (intros ->; done).
    assert (Hcnin : VObj c ∉ seen ++ [VObj l]).
    { intros Hin. apply elem_of_app in Hin as [Hin|Hin].
      - apply (Hseen c); [apply elem_of_cons; by right | done].
      - apply list_elem_of_singleton in Hin. congruence. }
    destruct Hcp as [fresh seen l t Hc1 Hc2 Hc3 Hc4].
    destruct (Hc3 k c Hk Hown Hcnin) as (r & Hgr & Hr & Hen & Hcpr).
    destruct (IH true (seen ++ [VObj l]) c r locs1 Hcpr Hpath' Hch1 Hnd1)
      as (o & Hlast & P1 & P2 & P3 & P4).
    { intros x Hx Hin. apply elem_of_app in Hin as [Hin|Hin].
      - apply (Hseen x); [apply elem_of_cons; by right | done].
      - apply list_elem_of_singleton in Hin. injection Hin as ->. done. }
    assert (Hin : ∀ a : nat, VObj a ∈ seen ∨ a ∈ l :: locs1 →
                   VObj a ∈ seen ++ [VObj l] ∨ a ∈ locs1).
    { intros a [Ha|Ha].
      - left. apply elem_of_app. by left.
      - apply elem_of_cons in Ha as [->|Ha]; [|by right].
        left. apply elem_of_app. right. by apply list_elem_of_singleton. }
    exists o. split; [by apply last_cons_Some|].
    split_and!.
    + intros key v Hne Ho Hv. cbn [app descend]. rewrite Hgr. by apply P1.
    + intros key a Hne Ho Ha. cbn [app descend]. rewrite Hgr. apply (P2 key a Hne Ho).
      by apply Hin.
    + intros p s Hp Hg. cbn [app descend]. rewrite Hgr. by apply P3.
    + intros Hf. destruct (P4 eq_refl) as (locs' & o' & Hch' & Hlast' & Hnd' & Hall' & Hcirc').
      exists (t :: locs'), o'. split_and!.
      * simpl. rewrite (Hen Hf), Hch'. done.
      * by apply last_cons_Some.
      * apply NoDup_cons. split; [|done]. intros Hin'.
        rewrite Forall_forall in Hall'. specialize (Hall' t Hin'). lia.
      * constructor; [lia|]. eapply Forall_impl; [exact Hall'|]. intros x Hx. simpl in Hx. lia.
      * intros key a Hne Ho Ha. apply (Hcirc' key a Hne Ho). by apply Hin.
Qed.

(** *** [destroyCircular] on a whole store *)

Lemma heap_wf_region (h : heap) : heap_wf h → region (length h) h.
Proof.
  intros Hwf. split; [done|]. intros x _. split; [by apply heap_wf_obj | by apply heap_wf_proto].
Qed.

Lemma destroyCircular_top (h : heap) (l : nat) force fuel :
  heap_wf h → l < length h → length h < fuel →
  ∃ h', destroyCircular fuel h (VObj l) [] None force = Ok (h', length h)
        ∧ heap_wf h'
        ∧ length h < length h'
        ∧ (∀ x : nat, x < length h → h' !! x = h !! x)
        ∧ okind (obj h' (length h)) = (if isArray h (VObj l) then Array else Plain)
        ∧ assoc "__proto__" (oprops (obj h' (length h))) = None
        ∧ (∀ p e s, (p, e) ∈ commonProperties → get h (VObj l) p = VStr s →
             assoc p (oprops (obj h' (length h)))
             = Some (Prop_ (VStr s) (if force then true else e)))
        ∧ Copy h h' true [] l (length h).
Proof.
  intros Hwf Hl Hfuel.
  destruct (destroyCircular_spec fuel h h l [] None force (length h))
    as (h' & Hdc & Hwf' & Hlen' & Hlt' & Hfr' & Hk' & _ & Hno' & Hc' & Hcp'); try done.
  - by apply heap_wf_region.
  - constructor.
  - intros Hin. by apply elem_of_nil in Hin.
  - simpl. lia.
  - unfold target in *. simpl in *.
    exists h'. split_and!; [done | done | lia | | done | | done |].
    + intros x Hx. apply Hfr'; lia.
    + by apply Hno'.
    + by apply Hcp'.
Qed.

(** X1. On a store without dangling references or
    duplicate keys, cyclic or not, [destroyCircular] returns as soon as the
    fuel exceeds the number of objects; the copy is a new object, an array
    exactly when the source is one, and no existing object is modified. *)
Theorem destroyCircular_returns (h : heap) (l : nat) (force : bool) (fuel : nat) :
  heap_wf h → l < length h → length h < fuel →
  ∃ h', destroyCircular fuel h (VObj l) [] None force = Ok (h', length h)
        ∧ length h < length h'
        ∧ (∀ x : nat, x < length h → h' !! x = h !! x)
        ∧ heap_wf h'
        ∧ okind (obj h' (length h)) = (if isArray h (VObj l) then Array else Plain).
Proof.
  intros Hwf Hl Hfuel.
  destruct (destroyCircular_top h l force fuel Hwf Hl Hfuel)
    as (h' & ? & ? & ? & ? & ? & _). by exists h'.
Qed.

Lemma sample_heap_wf : heap_wf sample_heap.
Proof. apply (bool_decide_unpack _). vm_compute. exact I. Qed.

Lemma destroyCircular_returns_witness :
  ∃ h', destroyCircular 3 sample_heap (VObj 0) [] None true = Ok (h', 2)
        ∧ h' !! 0 = sample_heap !! 0.
Proof.
  destruct (destroyCircular_returns sample_heap 0 true 3) as (h' & H1 & _ & H2 & _);
    [exact sample_heap_wf | simpl; lia | simpl; lia |].
  exists h'. split; [exact H1|]. apply H2. simpl. lia.
Defined.

(** X2. Each of [name], [message], [stack], [code] that
    reads as a string on the source, own or inherited, becomes an own slot
    of the copy with that string; [code] is enumerable, the other three are
    enumerable only under [forceEnumerable]. *)
Theorem destroyCircular_common_properties (h : heap) (l : nat) (force : bool)
    (fuel : nat) (p : string) (e : bool) (s : string) :
  heap_wf h → l < length h → length h < fuel →
  (p, e) ∈ commonProperties → get h (VObj l) p = VStr s →
  ∃ h', destroyCircular fuel h (VObj l) [] None force = Ok (h', length h)
        ∧ assoc p (oprops (obj h' (length h)))
          = Some (Prop_ (VStr s) (if force then true else e)).
Proof.
  intros Hwf Hl Hfuel Hp Hg.
  destruct (destroyCircular_top h l force fuel Hwf Hl Hfuel)
    as (h' & ? & _ & _ & _ & _ & _ & Hc & _). exists h'. split; [done|]. by apply Hc.
Qed.

Lemma destroyCircular_common_properties_witness :
  ∃ h', destroyCircular 3 sample_heap (VObj 0) [] None false = Ok (h', 2)
        ∧ assoc "name" (oprops (obj h' 2)) = Some (Prop_ (VStr "TypeError") false).
Proof.
  apply (destroyCircular_common_properties sample_heap 0 false 3 "name" false "TypeError");
    [exact sample_heap_wf | simpl; lia | simpl; lia | | reflexivity].
  apply elem_of_cons. by left.
Defined.

(** X3. Along any path of own enumerable slots that meets no object twice
    and goes through no key [__proto__], a slot of another name than
    [__proto__] holding [undefined], [null], a boolean, a number or a string
    reads back unchanged in the copy, at the same path. *)
Theorem destroyCircular_copies_values (h : heap) (l : nat) (force : bool) (fuel : nat)
    (path : list string) (locs : list nat) (o : nat) (key : string) (v : jsvalue) :
  heap_wf h → l < length h → length h < fuel →
  "__proto__" ∉ path ++ [key] →
  chain h l path = Some locs → NoDup locs → last locs = Some o →
  own_enum h o key = Some v → copied v = true →
  ∃ h', destroyCircular fuel h (VObj l) [] None force = Ok (h', length h)
        ∧ descend h' (VObj (length h)) (path ++ [key]) = v.
Proof.
  intros Hwf Hl Hfuel Hkeys Hch Hnd Hlast Hown Hv.
  destruct (destroyCircular_top h l force fuel Hwf Hl Hfuel)
    as (h' & ? & _ & _ & _ & _ & _ & _ & Hcp). exists h'. split; [done|].
  destruct (Copy_path h h' path true [] l (length h) locs Hcp) as (o' & Hlast' & P1 & _);
    [intros ?; apply Hkeys, elem_of_app; by left | done | done | |].
  { intros x _ Hin. by apply elem_of_nil in Hin. }
  rewrite Hlast in Hlast'. injection Hlast' as <-. apply P1; [|done|done].
  intros ->. apply Hkeys, elem_of_app. right. by apply list_elem_of_singleton.
Qed.

Lemma destroyCircular_copies_values_witness :
  ∃ h', destroyCircular 3 sample_heap (VObj 0) [] None false = Ok (h', 2)
        ∧ descend h' (VObj 2) ["child"; "count"] = VNum 3.
Proof.
  apply (destroyCircular_copies_values sample_heap 0 false 3 ["child"] [0; 1] 1 "count");
    [exact sample_heap_wf | simpl; lia | simpl; lia | | reflexivity | | reflexivity
    | reflexivity | reflexivity].
  - apply (bool_decide_unpack _). vm_compute. exact I.
  - apply (bool_decide_unpack _). vm_compute. exact I.
Defined.

(** X4. Along any such path, a slot of another name than [__proto__] that
    refers to an object already on the path, the object itself included,
    reads back as the string "[Circular]" in the copy. *)
Theorem destroyCircular_marks_back_references (h : heap) (l : nat) (force : bool)
    (fuel : nat) (path : list string) (locs : list nat) (o : nat) (key : string)
    (a : nat) :
  heap_wf h → l < length h → length h < fuel →
  "__proto__" ∉ path ++ [key] →
  chain h l path = Some locs → NoDup locs → last locs = Some o →
  own_enum h o key = Some (VObj a) → a ∈ locs →
  ∃ h', destroyCircular fuel h (VObj l) [] None force = Ok (h', length h)
        ∧ descend h' (VObj (length h)) (path ++ [key]) = VStr "[Circular]".
Proof.
  intros Hwf Hl Hfuel Hkeys Hch Hnd Hlast Hown Ha.
  destruct (destroyCircular_top h l force fuel Hwf Hl Hfuel)
    as (h' & ? & _ & _ & _ & _ & _ & _ & Hcp). exists h'. split; [done|].
  destruct (Copy_path h h' path true [] l (length h) locs Hcp)
    as (o' & Hlast' & _ & P2 & _);
    [intros ?; apply Hkeys, elem_of_app; by left | done | done | |].
  { intros x _ Hin. by apply elem_of_nil in Hin. }
  rewrite Hlast in Hlast'. injection Hlast' as <-. apply (P2 key a); [|done|by right].
  intros ->. apply Hkeys, elem_of_app. right. by apply list_elem_of_singleton.
Qed.

Lemma destroyCircular_marks_back_references_witness :
  ∃ h', destroyCircular 3 sample_heap (VObj 0) [] None false = Ok (h', 2)
        ∧ descend h' (VObj 2) ["child"; "parent"] = VStr "[Circular]".
Proof.
  apply (destroyCircular_marks_back_references sample_heap 0 false 3
           ["child"] [0; 1] 1 "parent" 0);
    [exact sample_heap_wf | simpl; lia | simpl; lia | | reflexivity | | reflexivity
    | reflexivity | ].
  - apply (bool_decide_unpack _). vm_compute. exact I.
  - apply (bool_decide_unpack _). vm_compute. exact I.
  - apply elem_of_cons. by left.
Defined.

(** X5. At the end of any such path, the four common properties that read
    as strings on the source object read as the same strings on its copy: a
    nested error keeps its name, message, stack and code. *)
Theorem destroyCircular_keeps_nested_names (h : heap) (l : nat) (force : bool)
    (fuel : nat) (path : list string) (locs : list nat) (o : nat) (p s : string) :
  heap_wf h → l < length h → length h < fuel →
  "__proto__" ∉ path →
  chain h l path = Some locs → NoDup locs → last locs = Some o →
  p ∈ commonProperties.*1 → get h (VObj o) p = VStr s →
  ∃ h', destroyCircular fuel h (VObj l) [] None force = Ok (h', length h)
        ∧ descend h' (VObj (length h)) (path ++ [p]) = VStr s.
Proof.
  intros Hwf Hl Hfuel Hkeys Hch Hnd Hlast Hp Hg.
  destruct (destroyCircular_top h l force fuel Hwf Hl Hfuel)
    as (h' & ? & _ & _ & _ & _ & _ & _ & Hcp). exists h'. split; [done|].
  destruct (Copy_path h h' path true [] l (length h) locs Hcp Hkeys Hch Hnd)
    as (o' & Hlast' & _ & _ & P3 & _).
  { intros x _ Hin. by apply elem_of_nil in Hin. }
  rewrite Hlast in Hlast'. injection Hlast' as <-. by apply P3.
Qed.

Lemma destroyCircular_keeps_nested_names_witness :
  ∃ h', destroyCircular 3 sample_heap (VObj 0) [] None false = Ok (h', 2)
        ∧ descend h' (VObj 2) ["message"] = VStr "boom".
Proof.
  apply (destroyCircular_keeps_nested_names sample_heap 0 false 3 [] [0] 0 "message" "boom");
    [exact sample_heap_wf | simpl; lia | simpl; lia | | reflexivity | apply NoDup_singleton
    | reflexivity | | reflexivity].
  - apply not_elem_of_nil.
  - apply (bool_decide_unpack _). vm_compute. exact I.
Defined.

(** *** The copy is a tree *)

Lemma written_after_mono x y v : x ≤ y → written_after y v → written_after x v.
Proof. destruct v; simpl; auto. lia. Qed.

Lemma assign_tree (h h1 : heap) (to : nat) k v :
  to < length h → written_after to v → assign h to k v = Ok h1 →
  length h1 = length h
  ∧ (∀ x : nat, x ≠ to → h1 !! x = h !! x)
  ∧ new_slots h h1 to to
  ∧ okind (obj h1 to) = okind (obj h to)
  ∧ (proto_after to (oproto (obj h to)) → proto_after to (oproto (obj h1 to))).
Proof.
  intros Hto Hv Ha.
  destruct (assign_frame h h1 to k v Hto Ha) as (Hlen & Hfr & Hk & Hcases).
  split_and!; [done | done | | done |].
  - intros kp Hin. destruct Hcases as [(Hs & _)|(Hs & _)]; rewrite Hs in Hin; [by left|].
    apply upsert_elem_of in Hin as [Hin| ->]; [by left | by right].
  - intros Hp. destruct Hcases as [(_ & _ & [Hpr|Hpr])|(_ & Hpr)]; [by rewrite Hpr | | by rewrite Hpr].
    destruct v; try done; by rewrite Hpr.
Qed.

Lemma walk_tree rec from seen (to : nat) es :
  (∀ (hc h2 : heap) v (r : nat), rec hc v = Ok (h2, r) →
     r = length hc ∧ length hc < length h2
     ∧ (∀ x : nat, x < length hc → h2 !! x = hc !! x)
     ∧ new_objects (length hc) h2 ∧ new_shapes (length hc) h2) →
  ∀ hc h1 : heap,
    to < length hc →
    walk rec from seen to es hc = Ok h1 →
    length hc ≤ length h1
    ∧ (∀ x : nat, x < length hc → x ≠ to → h1 !! x = hc !! x)
    ∧ (new_objects (length hc) hc → new_objects (length hc) h1)
    ∧ (new_shapes (length hc) hc → new_shapes (length hc) h1)
    ∧ new_slots hc h1 to to
    ∧ okind (obj h1 to) = okind (obj hc to)
    ∧ (proto_after to (oproto (obj hc to)) → proto_after to (oproto (obj h1 to))).
Proof.
  intros Hrec. induction es as [|[k v] es IH]; intros hc h1 Hto Hw.
  { simpl in Hw. injection Hw as <-. split_and!; try done. intros kp Hin. by left. }
  assert (Hstep : ∀ (hx : heap) v',
    length hc ≤ length hx →
    (∀ x : nat, x < length hc → hx !! x = hc !! x) →
    (new_objects (length hc) hc → new_objects (length hc) hx) →
    (new_shapes (length hc) hc → new_shapes (length hc) hx) →
    written_after to v' →
    match assign hx to k v' with
    | Ok h' => walk rec from seen to es h'
    | TypeErr => TypeErr
    | OutOfFuel => OutOfFuel
    end = Ok h1 →
    length hc ≤ length h1
    ∧ (∀ x : nat, x < length hc → x ≠ to → h1 !! x = hc !! x)
    ∧ (new_objects (length hc) hc → new_objects (length hc) h1)
    ∧ (new_shapes (length hc) hc → new_shapes (length hc) h1)
    ∧ new_slots hc h1 to to
    ∧ okind (obj h1 to) = okind (obj hc to)
    ∧ (proto_after to (oproto (obj hc to)) → proto_after to (oproto (obj h1 to)))).
  { intros hx v' Hlenx Hfrx Hnewx Hshx Hv' Hw'.
    assert (Htox : to < length hx) by lia.
    destruct (assign hx to k v') as [hx'| |] eqn:Ha; try done.
    destruct (assign_tree hx hx' to k v' Htox Hv' Ha) as (Hlenx' & Hfrx' & Hslx' & Hkx' & Hpx').
    destruct (IH hx' h1) as (Hlen1 & Hfr1 & Hnew1 & Hsh1 & Hsl1 & Hk1 & Hp1); [lia | done |].
    rewrite Hlenx' in Hlen1, Hfr1, Hnew1, Hsh1.
    assert (Hobjx : obj hx to = obj hc to) by (apply obj_same, Hfrx; lia).
    split_and!; [lia | | | | | congruence |].
    - intros x Hx Hne. rewrite Hfr1 by (done || lia). rewrite Hfrx' by done. by apply Hfrx.
    - intros Hnew x kp Hx Hin.
      assert (Hne : x ≠ to) by lia.
      destruct (decide (x < length hx)) as [Hlt|Hge].
      + rewrite (obj_same hx' h1 x) in Hin by (apply Hfr1; done).
        rewrite (obj_same hx hx' x) in Hin by (by apply Hfrx').
        by apply (Hnewx Hnew x kp).
      + apply (Hnew1); [|lia|done].
        intros x' kp' Hx' Hin'. rewrite (obj_same hx hx' x') in Hin' by (apply Hfrx'; lia).
        apply (Hnewx Hnew x' kp'); [lia | done].
    - intros Hsh x Hx.
      assert (Hne : x ≠ to) by lia.
      destruct (decide (x < length hx)) as [Hlt|Hge].
      + rewrite (obj_same hx' h1 x) by (apply Hfr1; done).
        rewrite (obj_same hx hx' x) by (by apply Hfrx').
        by apply (Hshx Hsh x).
      + apply Hsh1; [|lia].
        intros x' Hx'. rewrite (obj_same hx hx' x') by (apply Hfrx'; lia).
        apply (Hshx Hsh x'). lia.
    - intros kp Hin. destruct (Hsl1 kp Hin) as [Hin'|Hw1]; [|by right].
      destruct (Hslx' kp Hin') as [Hin2|Hw2]; [left; by rewrite <- Hobjx | by right].
    - intros Hp. apply Hp1, Hpx'. by rewrite Hobjx. }
  cbn [walk] in Hw. rewrite walk_function_test, walk_copy_test in Hw.
  destruct v as [| | | | | f | c]; cbn beta iota in Hw;
    try (refine (Hstep hc _ _ _ _ _ _ Hw); [lia | done | done | done | simpl; done]).
  - by apply IH.
  - unfold includes in Hw. destruct (bool_decide (get hc from k ∈ seen)); cbn [negb] in Hw.
    + refine (Hstep hc _ _ _ _ _ _ Hw); [lia | done | done | done | simpl; done].
    + destruct (rec hc (get hc from k)) as [[h2 r]| |] eqn:Er; try done.
      destruct (Hrec hc h2 _ r Er) as (-> & Hlen2 & Hfr2 & Hnew2 & Hsh2).
      refine (Hstep h2 _ _ _ _ _ _ Hw); [lia | done | | | simpl; lia].
      * intros _. intros x kp Hx Hin. apply (Hnew2 x kp); [lia | done].
      * intros _. intros x Hx. apply (Hsh2 x). lia.
Qed.

Lemma attach_fold_tree from (to : nat) force cs (h : heap) m :
  to < length h →
  length (foldl (attach from to force) h cs) = length h
  ∧ (∀ x : nat, x ≠ to → foldl (attach from to force) h cs !! x = h !! x)
  ∧ new_slots h (foldl (attach from to force) h cs) to m
  ∧ okind (obj (foldl (attach from to force) h cs) to) = okind (obj h to)
  ∧ oproto (obj (foldl (attach from to force) h cs) to) = oproto (obj h to).
Proof.
  revert h. induction cs as [|c cs IH]; intros h Hto; csimpl.
  { split_and!; try done. intros kp Hin. by left. }
  assert (Hstep : length (attach from to force h c) = length h
            ∧ (∀ x : nat, x ≠ to → attach from to force h c !! x = h !! x)
            ∧ new_slots h (attach from to force h c) to m
            ∧ okind (obj (attach from to force h c) to) = okind (obj h to)
            ∧ oproto (obj (attach from to force h c) to) = oproto (obj h to)).
  { unfold attach. destruct (get h from c.1) eqn:E;
      try (split_and!; [done | done | intros kp Hin; by left | done | done]).
    unfold defineProperty. split_and!.
    - apply write_length.
    - intros x Hx. by apply write_lookup_ne.
    - intros kp. rewrite obj_write_eq by done. simpl.
      intros Hin. apply upsert_elem_of in Hin as [Hin| ->]; [by left | by right].
    - by rewrite obj_write_eq.
    - by rewrite obj_write_eq. }
  destruct Hstep as (Hlen1 & Hfr1 & Hsl1 & Hk1 & Hp1).
  destruct (IH (attach from to force h c)) as (Hlen2 & Hfr2 & Hsl2 & Hk2 & Hp2); [lia|].
  split_and!; [lia | | | congruence | congruence].
  - intros x Hx. rewrite Hfr2 by done. by apply Hfr1.
  - intros kp Hin. destruct (Hsl2 kp Hin) as [Hin'|?]; [|by right]. by apply Hsl1.
Qed.

Lemma destroyCircular_tree fuel :
  ∀ (h : heap) from seen to_ force (h' : heap) (t : nat),
    (∀ t0 : nat, to_ = Some t0 → t0 < length h) →
    destroyCircular fuel h from seen to_ force = Ok (h', t) →
    t = target h to_
    ∧ length h ≤ length h'
    ∧ (to_ = None → length h < length h')
    ∧ (∀ x : nat, x < length h → x ≠ t → h' !! x = h !! x)
    ∧ new_objects (length h) h'
    ∧ new_shapes (length h) h'
    ∧ new_slots h h' t t.
Proof.
  induction fuel as [|fuel IH]; intros h from seen to_ force h' t Hto Hdc; [done|].
  cbn [destroyCircular] in Hdc.
  set (seen' := seen ++ [from]) in *.
  assert (Hrec : ∀ (hc h2 : heap) v (r : nat),
    destroyCircular fuel hc v seen' None force = Ok (h2, r) →
    r = length hc ∧ length hc < length h2
    ∧ (∀ x : nat, x < length hc → h2 !! x = hc !! x)
    ∧ new_objects (length hc) h2 ∧ new_shapes (length hc) h2).
  { intros hc h2 v r Hr.
    destruct (IH hc v seen' None force h2 r) as (-> & Hl & Hlt & Hfr & Hnew & Hsh & _);
      [done | done|].
    unfold target in *. simpl in *. split_and!; [done | by apply Hlt | | done | done].
    intros x Hx. apply Hfr; lia. }
  assert (Hbody : ∀ (h0 : heap) (to : nat), to < length h0 → new_objects (length h0) h0 →
    new_shapes (length h0) h0 →
    match entries h0 from with
    | Ok es =>
        match walk (λ h v, destroyCircular fuel h v seen' None force) from seen' to es h0 with
        | Ok h => Ok (foldl (attach from to force) h commonProperties, to)
        | TypeErr => TypeErr
        | OutOfFuel => OutOfFuel
        end
    | TypeErr => TypeErr
    | OutOfFuel => OutOfFuel
    end = Ok (h', t) →
    t = to ∧ length h0 ≤ length h'
    ∧ (∀ x : nat, x < length h0 → x ≠ to → h' !! x = h0 !! x)
    ∧ new_objects (length h0) h'
    ∧ new_shapes (length h0) h'
    ∧ new_slots h0 h' to to
    ∧ okind (obj h' to) = okind (obj h0 to)
    ∧ (proto_after to (oproto (obj h0 to)) → proto_after to (oproto (obj h' to)))).
  { intros h0 to Hto0 Hnew0 Hsh0 Hb.
    destruct (entries h0 from) as [es| |]; try done.
    destruct (walk _ from seen' to es h0) as [h1| |] eqn:Hw; try done.
    assert (h' = foldl (attach from to force) h1 commonProperties ∧ t = to) as [-> ->]
      by (by injection Hb as <- <-).
    clear Hb.
    destruct (walk_tree _ from seen' to es Hrec h0 h1 Hto0 Hw)
      as (Hlen1 & Hfr1 & Hnew1 & Hsh1 & Hsl1 & Hk1 & Hp1).
    destruct (attach_fold_tree from to force commonProperties h1 to)
      as (Hlen2 & Hfr2 & Hsl2 & Hk2 & Hp2); [lia|].
    split_and!; [done | lia | | | | | congruence |].
    - intros x Hx Hne. rewrite Hfr2 by done. by apply Hfr1.
    - intros x kp Hx Hin. assert (x ≠ to) by lia.
      rewrite (obj_same h1 _ x) in Hin by (by apply Hfr2). by apply (Hnew1 Hnew0 x kp).
    - intros x Hx. assert (x ≠ to) by lia.
      rewrite (obj_same h1 _ x) by (by apply Hfr2). by apply (Hsh1 Hsh0 x).
    - intros kp Hin. destruct (Hsl2 kp Hin) as [Hin'|?]; [|by right]. by apply Hsl1.
    - intros Hp. rewrite Hp2. by apply Hp1. }
  assert (Hdangling : ∀ (h0 : heap), new_objects (length h0) h0 ∧ new_shapes (length h0) h0).
  { intros h0. split.
    - intros x kp Hx. rewrite obj_dangling; [|by apply lookup_ge_None]. simpl.
      intros Hin. by apply elem_of_nil in Hin.
    - intros x Hx. rewrite obj_dangling; [|by apply lookup_ge_None]. by split. }
  destruct to_ as [t0|]; unfold target, alloc in *; cbn [from_option id] in *.
  - specialize (Hto t0 eq_refl).
    destruct (Hbody h t0 Hto (proj1 (Hdangling h)) (proj2 (Hdangling h)) Hdc)
      as (-> & Hlen & Hfr & Hnew & Hsh & Hsl & _).
    split_and!; done.
  - cbn beta iota zeta in Hdc.
    set (o := Object (if isArray h from then Array else Plain) [] Original) in *.
    assert (Hlen0 : length (h ++ [o]) = S (length h)) by (rewrite length_app; simpl; lia).
    destruct (Hbody (h ++ [o]) (length h)) as (-> & Hlen & Hfr & Hnew & Hsh & Hsl & Hk & Hp);
      [lia | apply Hdangling | apply Hdangling | done |].
    assert (Hobj0 : obj (h ++ [o]) (length h) = o).
    { apply obj_lookup. rewrite lookup_app_r by lia. by rewrite Nat.sub_diag. }
    split_and!; [done | lia | intros; lia | | | |].
    + intros x Hx Hne. rewrite Hfr by lia. apply lookup_app_l. lia.
    + intros x kp Hx Hin. destruct (decide (x = length h)) as [->|Hne].
      * destruct (Hsl kp Hin) as [Hin'|Hw]; [|done].
        rewrite Hobj0 in Hin'. by apply elem_of_nil in Hin'.
      * apply (Hnew x kp); [lia | done].
    + intros x Hx. destruct (decide (x = length h)) as [->|Hne].
      * split.
        -- intros name. rewrite Hk, Hobj0. unfold o. cbn [okind].
           by destruct (isArray h from).
        -- apply Hp. by rewrite Hobj0.
      * apply (Hsh x). lia.
    + intros kp Hin. destruct (Hsl kp Hin) as [Hin'|Hw]; [|by right].
      rewrite Hobj0 in Hin'. by apply elem_of_nil in Hin'.
Qed.



(** A copy is never an instance of [Error]: its prototype chain goes through
    copies only. *)
Lemma instanceOfError_new fuel (h : heap) (lo x : nat) :
  new_shapes lo h → lo ≤ x → instanceOfError fuel h (obj h x) = false.
Proof.
  intros Hsh. revert x. induction fuel as [|fuel IH]; intros x Hx;
    destruct (Hsh x Hx) as [Hk Hp]; simpl.
  - destruct (oproto (obj h x)); try done. destruct (okind (obj h x)) eqn:E; try done.
    by destruct (Hk name).
  - destruct (oproto (obj h x)) as [| | |p]; try done.
    + destruct (okind (obj h x)) eqn:E; try done. by destruct (Hk name).
    + simpl in Hp. apply IH. lia.
Qed.

(** *** [deserializeError] *)

Lemma deserializeError_plain (h : heap) (l : nat) (fuel : nat) :
  heap_wf h → l < length h →
  instanceOfError (length h) h (obj h l) = false → isArray h (VObj l) = false →
  length h < fuel →
  ∃ h', deserializeError fuel h (VObj l) = Ok (h', VObj (length h))
        ∧ heap_wf h'
        ∧ length h < length h'
        ∧ (∀ x : nat, x < length h → h' !! x = h !! x)
        ∧ okind (obj h' (length h)) = NativeError "Error"
        ∧ (own_enum h l "__proto__" = None → oproto (obj h' (length h)) = Original)
        ∧ (∀ p e s, (p, e) ∈ commonProperties → get h (VObj l) p = VStr s →
             assoc p (oprops (obj h' (length h))) = Some (Prop_ (VStr s) e))
        ∧ Copy h h' false [] l (length h).
Proof.
  intros Hwf Hl Hinst Harr Hfuel.
  set (E := Object (NativeError "Error") [("stack", Prop_ (VStr "Error") false)] Original).
  assert (HwfE : heap_wf (h ++ [E])).
  { apply heap_wf_alloc; [done | | done]. split.
    - repeat constructor.
    - apply (bool_decide_unpack _). vm_compute. exact I. }
  assert (HlenE : length (h ++ [E]) = S (length h)) by (rewrite length_app; simpl; lia).
  assert (HobjE : obj (h ++ [E]) (length h) = E).
  { apply obj_lookup. rewrite lookup_app_r by lia. by rewrite Nat.sub_diag. }
  destruct (destroyCircular_spec fuel h (h ++ [E]) l [] (Some (length h)) false (length h))
    as (h' & Hdc & Hwf' & Hlen' & Hlt' & Hfr' & Hk' & Hpr' & _ & Hc' & Hcp'); try done.
  - by apply heap_wf_region.
  - lia.
  - intros x Hx. apply lookup_app_l. lia.
  - constructor.
  - intros Hin. by apply elem_of_nil in Hin.
  - intros t [= <-]. lia.
  - simpl. lia.
  - unfold target in *. cbn [from_option id] in *.
    exists h'. split_and!; [| done | lia | | | | done |].
    + unfold deserializeError. rewrite Hinst, Harr. unfold new_Error, alloc.
      cbn beta iota zeta. fold E. unfold loc in *. by rewrite Hdc.
    + intros x Hx. rewrite Hfr' by lia. apply lookup_app_l. lia.
    + by rewrite Hk', HobjE.
    + intros Hno. by rewrite (Hpr' Hno), HobjE.
    + apply Hcp'. done.
Qed.

Lemma Copy_values (hs hf : heap) fresh seen (l t : nat) :
  Copy hs hf fresh seen l t →
  ∀ k v, k ≠ "__proto__" → own_enum hs l k = Some v → copied v = true →
         get hf (VObj t) k = v.
Proof. intros [? ? ? ? Hc1 _ _ _]. exact Hc1. Qed.

(** X8. Given an object that is neither an instance of [Error] nor an array,
    [deserializeError] returns a new object made by [new Error()] and leaves
    every existing object as it was. Unless the input has an own enumerable
    slot named [__proto__], whose assignment replaces the prototype, the
    result keeps the prototype of [Error] and is an instance of it. Each of
    [name], [message], [stack], [code] that is a string on the input is an
    own slot of the result with that string ([code] enumerable, the others
    not), and every own enumerable slot of the input other than [__proto__]
    holding [undefined], [null], a boolean, a number or a string reads back
    unchanged on the result. *)
Theorem deserializeError_builds_error (h : heap) (l : nat) (fuel : nat) :
  heap_wf h → l < length h →
  instanceOfError (length h) h (obj h l) = false → isArray h (VObj l) = false →
  length h < fuel →
  ∃ h', deserializeError fuel h (VObj l) = Ok (h', VObj (length h))
        ∧ (∀ x : nat, x < length h → h' !! x = h !! x)
        ∧ okind (obj h' (length h)) = NativeError "Error"
        ∧ (own_enum h l "__proto__" = None →
             oproto (obj h' (length h)) = Original
             ∧ instanceOfError (length h') h' (obj h' (length h)) = true)
        ∧ (∀ p e s, (p, e) ∈ commonProperties → get h (VObj l) p = VStr s →
             assoc p (oprops (obj h' (length h))) = Some (Prop_ (VStr s) e))
        ∧ (∀ k v, k ≠ "__proto__" → own_enum h l k = Some v → copied v = true →
             get h' (VObj (length h)) k = v).
Proof.
  intros Hwf Hl Hinst Harr Hfuel.
  destruct (deserializeError_plain h l fuel Hwf Hl Hinst Harr Hfuel)
    as (h' & Hd & _ & _ & Hfr & Hk & Hpr & Hc & Hcp).
  exists h'. split_and!; try done.
  - intros Hno. split; [by apply Hpr|].
    rewrite instanceOfError_original by (by apply Hpr). by rewrite Hk.
  - by apply (Copy_values h h' false [] l (length h)).
Qed.

Lemma sample_plain_wf : heap_wf sample_plain.
Proof. apply (bool_decide_unpack _). vm_compute. exact I. Qed.

Lemma deserializeError_builds_error_witness :
  ∃ h', deserializeError 3 sample_plain (VObj 1) = Ok (h', VObj 2)
        ∧ instanceOfError (length h') h' (obj h' 2) = true
        ∧ assoc "message" (oprops (obj h' 2)) = Some (Prop_ (VStr "bad") false).
Proof.
  destruct (deserializeError_builds_error sample_plain 1 3)
    as (h' & H1 & _ & _ & H2 & H3 & _);
    [exact sample_plain_wf | simpl; lia | reflexivity | reflexivity | simpl; lia |].
  exists h'. split; [exact H1|]. split; [apply H2; reflexivity|].
  apply H3; [|reflexivity]. apply elem_of_cons. right. apply elem_of_cons. by left.
Defined.

(** X10. Copying an object that is not an array with
    [destroyCircular] and handing the copy to [deserializeError] yields an
    instance of [Error] with the prototype [new Error()] gave it; the common
    properties that read as strings on the original read as the same strings
    on it, and every slot that referred back to an object on its own path
    reads as "[Circular]" at the same path, as long as no key on the way is
    [__proto__]. Both calls return, and the original objects are
    untouched. *)
Theorem destroyCircular_then_deserializeError (h : heap) (l : nat) (force : bool)
    (fuel : nat) :
  heap_wf h → l < length h → okind (obj h l) ≠ Array → length h < fuel →
  ∃ h1, destroyCircular fuel h (VObj l) [] None force = Ok (h1, length h)
    ∧ ∀ fuel2, length h1 < fuel2 →
      ∃ h2, deserializeError fuel2 h1 (VObj (length h)) = Ok (h2, VObj (length h1))
        ∧ okind (obj h2 (length h1)) = NativeError "Error"
        ∧ oproto (obj h2 (length h1)) = Original
        ∧ instanceOfError (length h2) h2 (obj h2 (length h1)) = true
        ∧ (∀ x : nat, x < length h → h2 !! x = h !! x)
        ∧ (∀ p s, p ∈ commonProperties.*1 → get h (VObj l) p = VStr s →
             get h2 (VObj (length h1)) p = VStr s)
        ∧ (∀ (path : list string) (locs : list nat) (o : nat) (key : string) (a : nat),
             "__proto__" ∉ path ++ [key] →
             chain h l path = Some locs → NoDup locs → last locs = Some o →
             own_enum h o key = Some (VObj a) → a ∈ locs →
             descend h2 (VObj (length h1)) (path ++ [key]) = VStr "[Circular]").
Proof.
  intros Hwf Hl Hkind Hfuel.
  destruct (destroyCircular_top h l force fuel Hwf Hl Hfuel)
    as (h1 & Hdc & Hwf1 & Hlen1 & Hfr1 & Hk1 & Hno1 & Hc1 & Hcp1).
  exists h1. split; [done|]. intros fuel2 Hfuel2.
  assert (Harr : isArray h (VObj l) = false).
  { simpl. by destruct (okind (obj h l)). }
  assert (Harr1 : isArray h1 (VObj (length h)) = false).
  { simpl. by rewrite Hk1, Harr. }
  assert (Hinst1 : instanceOfError (length h1) h1 (obj h1 (length h)) = false).
  { destruct (destroyCircular_tree fuel h (VObj l) [] None force h1 (length h))
      as (_ & _ & _ & _ & _ & Hsh & _); [done | done |].
    by apply (instanceOfError_new _ h1 (length h)). }
  assert (Hown1 : own_enum h1 (length h) "__proto__" = None).
  { unfold own_enum. by rewrite Hno1. }
  destruct (deserializeError_plain h1 (length h) fuel2 Hwf1 Hlen1 Hinst1 Harr1 Hfuel2)
    as (h2 & Hd & Hwf2 & Hlen2 & Hfr2 & Hk2 & Hpr2 & Hc2 & Hcp2).
  exists h2. split_and!; [done | done | by apply Hpr2 | | | |].
  - rewrite instanceOfError_original by (by apply Hpr2). by rewrite Hk2.
  - intros x Hx. rewrite Hfr2 by lia. by apply Hfr1.
  - intros p s Hp Hg.
    apply list_elem_of_fmap in Hp as ([p' e] & -> & Hp). cbn [fst] in *.
    erewrite get_of_assoc; [|apply (Hc2 p' e s Hp)]; [done|].
    erewrite get_of_assoc; [|by apply (Hc1 p' e s Hp)]. done.
  - intros path locs o key a Hpk Hch Hnd Hlast Hown Ha.
    assert (Hpath : "__proto__" ∉ path) by (intros ?; apply Hpk, elem_of_app; by left).
    assert (Hkey : key ≠ "__proto__").
    { intros ->. apply Hpk, elem_of_app. right. by apply list_elem_of_singleton. }
    destruct (Copy_path h h1 path true [] l (length h) locs Hcp1 Hpath Hch Hnd)
      as (o1 & Hlast1 & _ & _ & _ & P4).
    { intros x _ Hin. by apply elem_of_nil in Hin. }
    rewrite Hlast in Hlast1. injection Hlast1 as <-.
    destruct (P4 eq_refl) as (locs' & o' & Hch' & Hlast' & Hnd' & _ & Hcirc).
    destruct (Copy_path h1 h2 path false [] (length h) (length h1) locs' Hcp2 Hpath Hch' Hnd')
      as (o2 & Hlast2 & P1 & _).
    { intros x _ Hin. by apply elem_of_nil in Hin. }
    rewrite Hlast' in Hlast2. injection Hlast2 as <-.
    apply P1; [done | | done]. apply (Hcirc key a Hkey Hown). by right.
Qed.

Lemma destroyCircular_then_deserializeError_witness :
  ∃ h1 h2, destroyCircular 3 sample_heap (VObj 0) [] None true = Ok (h1, 2)
    ∧ deserializeError (S (length h1)) h1 (VObj 2) = Ok (h2, VObj (length h1))
    ∧ get h2 (VObj (length h1)) "name" = VStr "TypeError"
    ∧ descend h2 (VObj (length h1)) ["child"; "me"] = VStr "[Circular]".
Proof.
  destruct (destroyCircular_then_deserializeError sample_heap 0 true 3)
    as (h1 & H1 & H2);
    [exact sample_heap_wf | simpl; lia | discriminate | simpl; lia |].
  destruct (H2 (S (length h1))) as (h2 & Hd & _ & _ & _ & _ & Hn & Hc); [lia|].
  exists h1, h2. split; [exact H1|]. split; [exact Hd|]. split.
  - apply Hn; [|reflexivity]. apply elem_of_cons. by left.
  - apply (Hc ["child"] [0; 1] 1 "me" 1); [ | reflexivity | | reflexivity | reflexivity |].
    + apply (bool_decide_unpack _). vm_compute. exact I.
    + apply (bool_decide_unpack _). vm_compute. exact I.
    + apply elem_of_cons. right. apply elem_of_cons. by left.
Defined.

End ErrorCodecFacts.

(** ** The codec and its inputs *)

Module ErrorCodecInputs.
Import JSON ErrorCodec ErrorCodecFacts.

(** *** Which keys the copy has *)






(** *** Which values [deserializeError] wraps *)

(** X9. [deserializeError] returns on every value of a well-formed store. An
    instance of [Error], an array and every value that is not an object
    come back as they are, and the store is not touched; exactly an object
    that is neither is replaced by a new object, and that one is an instance
    of [Error] when the input has no own enumerable slot named
    [__proto__]. *)
Theorem deserializeError_wraps_only_plain_objects (h : heap) (v : jsvalue) (fuel : nat) :
  heap_wf h → below (length h) v → length h < fuel →
  ∃ h' r, deserializeError fuel h v = Ok (h', r)
    ∧ (∀ x : nat, x < length h → h' !! x = h !! x)
    ∧ (∀ l : nat, v = VObj l →
         instanceOfError (length h) h (obj h l) = false → isArray h v = false →
         r = VObj (length h) ∧ r ≠ v ∧ length h < length h'
         ∧ (own_enum h l "__proto__" = None →
              instanceOfError (length h') h' (obj h' (length h)) = true))
    ∧ ((∀ l : nat, v = VObj l →
          instanceOfError (length h) h (obj h l) = true ∨ isArray h v = true) →
       r = v ∧ h' = h).
Proof.
  intros Hwf Hv Hfuel.
  destruct v as [| | | | | |l];
    try (eexists h, _; split_and!; [reflexivity | done | intros l' [=] | done]).
  simpl in Hv.
  destruct (instanceOfError (length h) h (obj h l)) eqn:Hinst;
    [|destruct (isArray h (VObj l)) eqn:Harr].
  - exists h, (VObj l). split_and!; [ | done | | done].
    + unfold deserializeError. by rewrite Hinst.
    + intros l' [= <-] Hn. congruence.
  - exists h, (VObj l). split_and!; [ | done | | done].
    + unfold deserializeError. by rewrite Hinst, Harr.
    + intros l' [= <-] _ Hn. congruence.
  - destruct (deserializeError_plain h l fuel Hwf Hv Hinst Harr Hfuel)
      as (h' & Hd & _ & Hlen & Hfr & Hk & Hpr & _).
    exists h', (VObj (length h)). split_and!; [done | done | |].
    + intros l' [= <-] _ _. split_and!; [done | | done |].
      * intros [= Heq]. lia.
      * intros Hno. rewrite instanceOfError_original by (by apply Hpr). by rewrite Hk.
    + intros Hn. destruct (Hn l eq_refl); congruence.
Qed.

Lemma deserializeError_wraps_only_plain_objects_witness :
  ∃ h' r, deserializeError 3 sample_heap (VObj 0) = Ok (h', r) ∧ r = VObj 0 ∧ h' = sample_heap.
Proof.
  destruct (deserializeError_wraps_only_plain_objects sample_heap (VObj 0) 3)
    as (h' & r & Hd & _ & _ & Hn);
    [exact sample_heap_wf | simpl; lia | simpl; lia |].
  exists h', r. split; [exact Hd|]. apply Hn.
  intros l [= <-]. left. reflexivity.
Defined.

(** *** Errors received as JSON *)

Lemma loaded_atom (j : json) (h : heap) (v a : jsvalue) :
  loaded j h v → atom j = Some a → v = a.
Proof. destruct j; simpl; try done; congruence. Qed.

Lemma load_fields_ok (fields : list (string * json)) :
  Forall (λ kj, load_ok kj.2) fields →
  forallb (λ kj, distinct_keys kj.2) fields = true →
  ∀ h : heap, heap_wf h →
  ∃ (h' : heap) ps,
    load_fields fields h = (h', ps) ∧ heap_wf h' ∧ length h ≤ length h'
    ∧ ps.*1 = fields.*1
    ∧ Forall (λ kp, below (length h') (pvalue kp.2)) ps
    ∧ (∀ k, assoc k fields = None → assoc k ps = None)
    ∧ (∀ k j a, assoc k fields = Some j → atom j = Some a →
         assoc k ps = Some (Prop_ a true)).
Proof.
  induction fields as [|[k j] fields IH]; intros Hall Hd h Hwf.
  { exists h, []. split_and!; try done. }
  inversion Hall as [|?? Hj Hall']; subst. cbn [forallb snd] in Hd, Hj.
  apply andb_true_iff in Hd as [Hdj Hd].
  destruct (Hj Hdj h Hwf) as (h1 & v & Hload & Hwf1 & Hv & Hlen1 & Hshape).
  destruct (IH Hall' Hd h1 Hwf1)
    as (h2 & ps & Hgo & Hwf2 & Hlen2 & Hkeys & Hbelow & Hnone & Hat).
  exists h2, ((k, Prop_ v true) :: ps).
  split_and!; [ | done | lia | csimpl; by rewrite Hkeys | | | ].
  - change (load_fields ((k, j) :: fields) h)
      with (let '(h1, v) := load j h in
            let '(h2, ps) := load_fields fields h1 in (h2, (k, Prop_ v true) :: ps)).
    by rewrite Hload, Hgo.
  - constructor; [|done]. simpl. eapply below_mono; [|exact Hv]. lia.
  - intros k0. simpl. case_bool_decide as Hk; [done|]. apply Hnone.
  - intros k0 j0 a. simpl. case_bool_decide as Hk.
    + intros [= <-] Ha. by rewrite (loaded_atom j h1 v a Hshape Ha).
    + apply Hat.
Qed.

Lemma load_items_ok (items : list json) :
  Forall load_ok items →
  forallb distinct_keys items = true →
  ∀ (i : nat) (h : heap), heap_wf h →
  ∃ (h' : heap) ps,
    load_items i items h = (h', ps) ∧ heap_wf h' ∧ length h ≤ length h'
    ∧ ps.*1 = pretty <$> seq i (length items)
    ∧ Forall (λ kp, below (length h') (pvalue kp.2)) ps.
Proof.
  induction items as [|j items IH]; intros Hall Hd i h Hwf.
  { exists h, []. split_and!; try done. }
  inversion Hall as [|?? Hj Hall']; subst. cbn [forallb] in Hd.
  apply andb_true_iff in Hd as [Hdj Hd].
  destruct (Hj Hdj h Hwf) as (h1 & v & Hload & Hwf1 & Hv & Hlen1 & _).
  destruct (IH Hall' Hd (S i) h1 Hwf1) as (h2 & ps & Hgo & Hwf2 & Hlen2 & Hkeys & Hbelow).
  exists h2, ((pretty i, Prop_ v true) :: ps).
  split_and!; [ | done | lia | csimpl; by rewrite Hkeys | ].
  - change (load_items i (j :: items) h)
      with (let '(h1, v) := load j h in
            let '(h2, ps) := load_items (S i) items h1 in
            (h2, (pretty i, Prop_ v true) :: ps)).
    by rewrite Hload, Hgo.
  - constructor; [|done]. simpl. eapply below_mono; [|exact Hv]. lia.
Qed.

Lemma load_alloc (h1 : heap) (c : kind) ps :
  heap_wf h1 → Forall (λ kp, below (length h1) (pvalue kp.2)) ps → NoDup ps.*1 →
  heap_wf (h1 ++ [Object c ps Original])
  ∧ obj (h1 ++ [Object c ps Original]) (length h1) = Object c ps Original
  ∧ length (h1 ++ [Object c ps Original]) = S (length h1).
Proof.
  intros Hwf Hb Hnd. split_and!.
  - apply heap_wf_alloc; [done | | done]. split; [|done]. simpl.
    eapply Forall_impl; [exact Hb|]. intros kp. apply below_mono. lia.
  - apply obj_lookup. rewrite lookup_app_r by lia. by rewrite Nat.sub_diag.
  - rewrite length_app. simpl. lia.
Qed.

Lemma load_spec (j : json) : load_ok j.
Proof.
  induction j as [|b|n|s|items IH|fields IH] using json_nested_ind; intros Hd h Hwf;
    try (eexists h, _; split_and!; [reflexivity | done | done | done | done]).
  - cbn [distinct_keys] in Hd.
    destruct (load_items_ok items IH Hd 0 h Hwf) as (h1 & ps & Hgo & Hwf1 & Hlen1 & Hkeys & Hb).
    destruct (load_alloc h1 Array ps Hwf1 Hb) as (Hwf2 & Hobj & Hlen2).
    { rewrite Hkeys. apply (NoDup_fmap_2 _). apply NoDup_seq. }
    exists (h1 ++ [Object Array ps Original]), (VObj (length h1)).
    split_and!; [ | done | simpl; lia | lia | ].
    + change (load (JArr items) h)
        with (let '(h1, ps) := load_items 0 items h in
              (h1 ++ [Object Array ps Original], VObj (length h1))).
      by rewrite Hgo.
    + exists (length h1). by rewrite Hobj.
  - cbn [distinct_keys] in Hd. apply andb_true_iff in Hd as [Hnd Hd].
    apply bool_decide_eq_true_1 in Hnd.
    destruct (load_fields_ok fields IH Hd h Hwf)
      as (h1 & ps & Hgo & Hwf1 & Hlen1 & Hkeys & Hb & Hnone & Hat).
    destruct (load_alloc h1 Plain ps Hwf1 Hb) as (Hwf2 & Hobj & Hlen2);
      [by rewrite Hkeys|].
    exists (h1 ++ [Object Plain ps Original]), (VObj (length h1)).
    split_and!; [ | done | simpl; lia | lia | ].
    + change (load (JObj fields) h)
        with (let '(h1, ps) := load_fields fields h in
              (h1 ++ [Object Plain ps Original], VObj (length h1))).
      by rewrite Hgo.
    + exists (length h1). split_and!; [done | by rewrite Hobj | by rewrite Hobj | |].
      * intros k Hk. unfold own_enum. rewrite Hobj. cbn [oprops].
        by rewrite (Hnone k Hk).
      * intros k j' a Hk Ha. unfold own_enum. rewrite Hobj. cbn [oprops].
        by rewrite (Hat k j' a Hk Ha).
Qed.

(** X11. [deserializeError] applied to a parsed JSON value in which no object
    repeats a key always returns. A JSON object becomes a new object; when
    it has no field named [__proto__], that object is an instance of
    [Error] with the prototype [new Error()] gave it. Every field other
    than [__proto__] holding a string, a number, a boolean or [null] reads
    back as sent; an array comes back as the array, and a string, a number,
    a boolean and [null] come back as they are. *)
Theorem deserializeError_json_builds_error (j : json) :
  distinct_keys j = true →
  ∃ (h' : heap) v,
    deserializeError_json j = Ok (h', v)
    ∧ match j with
      | JObj fields =>
          ∃ e : nat, v = VObj e
            ∧ (assoc "__proto__" fields = None →
                 okind (obj h' e) = NativeError "Error"
                 ∧ oproto (obj h' e) = Original
                 ∧ instanceOfError (length h') h' (obj h' e) = true)
            ∧ ∀ k j' a, k ≠ "__proto__" → assoc k fields = Some j' →
                        atom j' = Some a → get h' (VObj e) k = a
      | JArr _ => ∃ e : nat, v = VObj e ∧ okind (obj h' e) = Array
      | _ => atom j = Some v
      end.
Proof.
  intros Hd. unfold deserializeError_json.
  assert (Hwf0 : heap_wf []) by (by split; constructor).
  destruct (load_spec j Hd [] Hwf0) as (h & v & Hload & Hwf & Hv & _ & Hshape).
  rewrite Hload. cbn beta iota.
  destruct j as [|b|n|s|items|fields]; simpl in Hshape;
    try (injection Hshape as <-; eexists h, _; split; reflexivity).
  - destruct Hshape as (l & -> & Hk & Hpr). exists h, (VObj l). split; [|by exists l].
    unfold deserializeError. rewrite instanceOfError_original by done.
    rewrite Hk. simpl. by rewrite Hk.
  - destruct Hshape as (l & -> & Hk & Hpr & Hnone & Hat). simpl in Hv.
    destruct (deserializeError_plain h l (S (length h)) Hwf Hv)
      as (h' & Hde & _ & _ & _ & Hk' & Hpr' & _ & Hcp); [| |lia|].
    { rewrite instanceOfError_original by done. by rewrite Hk. }
    { simpl. by rewrite Hk. }
    exists h', (VObj (length h)). split; [done|].
    exists (length h). split_and!; [done | |].
    + intros Hno. pose proof (Hpr' (Hnone _ Hno)) as Hor.
      split_and!; [done | done |].
      rewrite instanceOfError_original by done. by rewrite Hk'.
    + intros k j' a Hne Hin Ha.
      apply (Copy_values h h' false [] l (length h) Hcp); [done | by apply (Hat k j' a) |].
      destruct j'; simpl in Ha; try done; by injection Ha as <-.
Qed.

Lemma deserializeError_json_builds_error_witness :
  ∃ (h' : heap) (e : nat),
    deserializeError_json
      (JObj [("message", JStr "bad"); ("code", JNum 7); ("detail", JObj [("n", JNum 1)])])
    = Ok (h', VObj e)
    ∧ instanceOfError (length h') h' (obj h' e) = true
    ∧ get h' (VObj e) "message" = VStr "bad"
    ∧ get h' (VObj e) "code" = VNum 7.
Proof.
  destruct (deserializeError_json_builds_error
              (JObj [("message", JStr "bad"); ("code", JNum 7);
                     ("detail", JObj [("n", JNum 1)])]))
    as (h' & v & Hd & e & -> & Hk & Hat); [vm_compute; reflexivity|].
  exists h', e. split_and!; [exact Hd | apply Hk; reflexivity | |].
  - apply (Hat "message" (JStr "bad")); [discriminate | reflexivity | reflexivity].
  - apply (Hat "code" (JNum 7)); [discriminate | reflexivity | reflexivity].
Defined.

(** A field named [__proto__] is not copied as a slot: its value becomes the
    prototype of the new object, which is then no instance of [Error] and
    has no [name]. *)
Lemma proto_field_replaces_prototype :
  ∃ h' : heap,
    deserializeError_json (JObj [("__proto__", JNull); ("message", JStr "m")])
    = Ok (h', VObj 1)
    ∧ oproto (obj h' 1) = NullProto
    ∧ instanceOfError (length h') h' (obj h' 1) = false
    ∧ assoc "__proto__" (oprops (obj h' 1)) = None
    ∧ get h' (VObj 1) "name" = VUndefined
    ∧ get h' (VObj 1) "message" = VStr "m".
Proof. eexists. vm_compute. repeat split. Qed.

End ErrorCodecInputs.

(** ** The relay over whole runs *)

Module RelayTraces.
Import JSON Relay RelayFacts.

(** *** The environment sent with a request *)

Lemma assoc_not_in {A} k (l : list (string * A)) : k ∉ l.*1 → assoc k l = None.
Proof.
  induction l as [|[k' a] l IH]; csimpl; [done|]. intros Hk.
  rewrite bool_decide_eq_false_2 by (intros ->; apply Hk, elem_of_cons; by left).
  apply IH. intros Hin. apply Hk, elem_of_cons. by right.
Qed.

Lemma put_keys k v envs k' :
  k' ∈ (put k v envs).*1 → k' ∈ envs.*1 ∨ k' = k.
Proof.
  induction envs as [|[k0 v0] envs IH]; csimpl.
  - intros Hin. apply list_elem_of_singleton in Hin. by right.
  - case_bool_decide; csimpl; [by left|].
    intros Hin. apply elem_of_cons in Hin as [->|Hin].
    + left. apply elem_of_cons. by left.
    + destruct (IH Hin) as [?|?]; [left; apply elem_of_cons; by right | by right].
Qed.

Lemma put_fresh k v envs : k ∉ envs.*1 → put k v envs = envs ++ [(k, v)].
Proof.
  induction envs as [|[k0 v0] envs IH]; csimpl; [done|]. intros Hk.
  rewrite bool_decide_eq_false_2 by (intros ->; apply Hk, elem_of_cons; by left).
  rewrite IH; [done|]. intros Hin. apply Hk, elem_of_cons. by right.
Qed.

(** The keys stored by the loop come from the keys it is given, and
    [__proto__] is never among the new ones. *)
Lemma env_set_fold_keys (l acc : list (string * string)) k :
  k ∈ (foldl (λ envs kv, env_set envs kv.1 kv.2) acc l).*1 →
  k ∈ acc.*1 ∨ (k ∈ l.*1 ∧ k ≠ "__proto__").
Proof.
  revert acc. induction l as [|[k0 v0] l IH]; intros acc; csimpl; [by left|].
  intros Hin. apply IH in Hin as [Hin|[Hin Hne]].
  - unfold env_set in Hin. case_bool_decide as Hp; [by left|].
    apply put_keys in Hin as [?| ->]; [by left|].
    right. split; [apply elem_of_cons; by left | done].
  - right. split; [apply elem_of_cons; by right | done].
Qed.

Lemma constructEnvs_keys (env : list (string * string)) k :
  k ∈ (constructEnvs env).*1 → (k ∉ excluded_envs) ∧ k ≠ "__proto__" ∧ k ∈ env.*1.
Proof.
  unfold constructEnvs. intros Hin.
  apply env_set_fold_keys in Hin as [Hin|[Hin Hne]]; [by apply elem_of_nil in Hin|].
  apply list_elem_of_fmap in Hin as ([k' v] & -> & Hin).
  apply list_elem_of_filter in Hin as [Hnot Hin]. split_and!; [done | done |].
  apply list_elem_of_fmap. by exists (k', v).
Qed.

(** On distinct keys the loop appends, in order, what it is given, less
    [__proto__]. *)
Lemma env_set_fold_distinct (l acc : list (string * string)) :
  NoDup (acc ++ l).*1 →
  foldl (λ envs kv, env_set envs kv.1 kv.2) acc l
  = acc ++ filter (λ kv, kv.1 ≠ "__proto__") l.
Proof.
  revert acc. induction l as [|[k v] l IH]; intros acc Hnd; csimpl.
  { by rewrite app_nil_r. }
  assert (Hk : k ∉ acc.*1).
  { rewrite fmap_app in Hnd. apply NoDup_app in Hnd as (_ & Hd & _).
    intros Hin. apply (Hd k Hin). csimpl. apply elem_of_cons. by left. }
  assert (Hnd' : NoDup (acc ++ l).*1).
  { rewrite fmap_app in Hnd |- *. apply NoDup_app in Hnd as (Ha & Hd & Hl).
    csimpl in Hl. apply NoDup_cons in Hl as [_ Hl].
    apply NoDup_app. split_and!; [done | | done].
    intros x Hx Hin. apply (Hd x Hx). csimpl. apply elem_of_cons. by right. }
  rewrite filter_cons. unfold env_set at 2. cbn [fst snd].
  case_bool_decide as Hp.
  - rewrite decide_False by (intros Hne; by apply Hne). by apply IH.
  - rewrite decide_True by done. rewrite put_fresh by done.
    rewrite IH; [by rewrite <- app_assoc|].
    rewrite <- app_assoc. csimpl.
    rewrite fmap_app in Hnd |- *. csimpl. done.
Qed.

Lemma constructEnvs_distinct (env : list (string * string)) :
  NoDup env.*1 →
  constructEnvs env
  = filter (λ kv, kv.1 ≠ "__proto__") (filter (λ kv, kv.1 ∉ excluded_envs) env).
Proof.
  intros Hnd. unfold constructEnvs. rewrite env_set_fold_distinct; [done|].
  simpl. induction env as [|[k v] env IH]; [constructor|].
  csimpl in Hnd. apply NoDup_cons in Hnd as [Hk Hnd].
  rewrite filter_cons. case_decide; [|by apply IH].
  csimpl. apply NoDup_cons. split; [|by apply IH].
  intros Hin. apply Hk. apply list_elem_of_fmap in Hin as ([k' v'] & -> & Hin).
  apply list_elem_of_filter in Hin as [_ Hin]. apply list_elem_of_fmap. by exists (k', v').
Qed.

Lemma assoc_filter {A} (P : string → Prop) `{∀ k, Decision (P k)} k
    (l : list (string * A)) :
  P k → assoc k (filter (λ kv, P kv.1) l) = assoc k l.
Proof.
  intros Hk. induction l as [|[k' a] l IH]; [done|].
  rewrite filter_cons. cbn [fst]. case_decide as Hk'; csimpl.
  - by rewrite IH.
  - rewrite bool_decide_eq_false_2 by (by intros ->). done.
Qed.

(** X12. [process.env] has each name once. [constructEnvs] stores nothing
    under an excluded name, nor under [__proto__], whose assignment goes to
    the prototype setter and is ignored for a string; every other name gets
    the value it has in [process.env], and applying the function to its own
    result changes nothing. *)
Theorem constructEnvs_forwards_the_rest (env : list (string * string)) :
  NoDup env.*1 →
  (∀ k, k ∈ excluded_envs ∨ k = "__proto__" → assoc k (constructEnvs env) = None)
  ∧ (∀ k, k ∉ excluded_envs → k ≠ "__proto__" →
       assoc k (constructEnvs env) = assoc k env)
  ∧ constructEnvs (constructEnvs env) = constructEnvs env.
Proof.
  intros Hnd. split_and!.
  - intros k Hk. apply assoc_not_in. intros Hin.
    apply constructEnvs_keys in Hin as (Hex & Hp & _). by destruct Hk.
  - intros k Hex Hp. rewrite constructEnvs_distinct by done.
    etrans; [exact (assoc_filter (λ k, k ≠ "__proto__") k _ Hp)|].
    exact (assoc_filter (λ k, k ∉ excluded_envs) k env Hex).
  - assert (Hnd' : NoDup (constructEnvs env).*1).
    { rewrite constructEnvs_distinct by done.
      clear -Hnd. induction env as [|[k v] env IH]; [constructor|].
      csimpl in Hnd. apply NoDup_cons in Hnd as [Hk Hnd].
      assert (Hsub : ∀ k',
        k' ∈ (filter (λ kv : string * string, kv.1 ≠ "__proto__")
                (filter (λ kv : string * string, kv.1 ∉ excluded_envs) env)).*1 →
        k' ∈ env.*1).
      { intros k' Hin. apply list_elem_of_fmap in Hin as ([k0 v0] & -> & Hin).
        apply list_elem_of_filter in Hin as [_ Hin].
        apply list_elem_of_filter in Hin as [_ Hin].
        apply list_elem_of_fmap. by exists (k0, v0). }
      rewrite filter_cons. case_decide; [|by apply IH].
      rewrite filter_cons. case_decide; [|by apply IH].
      csimpl. apply NoDup_cons. split; [|by apply IH].
      intros Hin. by apply Hk, Hsub. }
    rewrite (constructEnvs_distinct (constructEnvs env)) by done.
    rewrite (constructEnvs_distinct env) by done.
    rewrite !list_filter_filter. apply list_filter_iff. intros [k v]. simpl. tauto.
Qed.

Lemma constructEnvs_forwards_the_rest_witness :
  assoc "STAGE" (constructEnvs [("__proto__", "x"); ("PATH", "/bin"); ("STAGE", "dev")])
  = Some "dev"
  ∧ assoc "__proto__"
      (constructEnvs [("__proto__", "x"); ("PATH", "/bin"); ("STAGE", "dev")]) = None
  ∧ assoc "PATH"
      (constructEnvs [("__proto__", "x"); ("PATH", "/bin"); ("STAGE", "dev")]) = None.
Proof.
  destruct (constructEnvs_forwards_the_rest
              [("__proto__", "x"); ("PATH", "/bin"); ("STAGE", "dev")])
    as (H1 & H2 & _).
  - apply (bool_decide_unpack _). vm_compute. exact I.
  - split_and!.
    + rewrite H2; [reflexivity | | discriminate].
      apply (bool_decide_unpack _). vm_compute. exact I.
    + apply H1. by right.
    + apply H1. left. apply (bool_decide_unpack _). vm_compute. exact I.
Defined.

Lemma step_keeps_env (w : World) (te : Z * Event) :
  process_env (step w te).1 = process_env w.
Proof.
  destruct w as [[] ss ts env], te as [now []]; exec; repeat (split_match; simpl; try done).
Qed.

Lemma run_keeps_env (tr : list (Z * Event)) (w : World) :
  process_env (run w tr).1 = process_env w.
Proof.
  revert w. induction tr as [|te tr IH]; intros w; [done|]. simpl.
  pose proof (step_keeps_env w te) as H1.
  destruct (step w te) as [w1 e1]. specialize (IH w1).
  destruct (run w1 tr) as [w2 e2]. simpl in *. congruence.
Qed.

Ltac effect_cases H :=
  repeat (apply elem_of_cons in H as [H|H]; [try discriminate|]);
  try (by apply elem_of_nil in H).

(** Every frame leaves on the socket held after the step, and a request
    carries what [_ref] and the environment hold at that moment. *)
Lemma step_sends (w : World) (te : Z * Event) (c : nat) (f : Frame) :
  ESend c f ∈ (step w te).2 →
  ws (ref (step w te).1) = Some c
  ∧ ∀ rq, f = LambdaRequest rq →
      req_debugRequestId rq = debugRequestId (ref (step w te).1)
      ∧ req_event rq = event (ref (step w te).1)
      ∧ req_env rq = constructEnvs (process_env w)
      ∧ req_debugSrcPath rq = assoc "SST_DEBUG_SRC_PATH" (process_env w)
      ∧ req_debugSrcHandler rq = assoc "SST_DEBUG_SRC_HANDLER" (process_env w)
      ∧ ∃ ctx, context (ref (step w te).1) = Some ctx
               ∧ req_functionName rq = functionName ctx
               ∧ req_memoryLimitInMB rq = memoryLimitInMB ctx
               ∧ req_awsRequestId rq = awsRequestId ctx
               ∧ req_debugRequestTimeoutInMs rq = getRemainingTimeInMillis ctx te.1.
Proof.
  destruct w as [[] ss ts env], te as [now []]; exec;
    repeat (split_match; simpl; try done); intros Hin;
    rewrite ?elem_of_app in Hin;
    repeat match goal with H : _ ∨ _ |- _ => destruct H end;
    effect_cases Hin.
  all: injection Hin as -> ->; (split; [done|]); intros rq Hrq; try discriminate;
    injection Hrq as <-; simpl; split_and!; try done; eauto 10.
Qed.


Lemma run_effect (tr : list (Z * Event)) (w : World) (e : Effect) :
  e ∈ (run w tr).2 →
  ∃ tr1 te tr2, tr = tr1 ++ te :: tr2 ∧ e ∈ (step (run w tr1).1 te).2.
Proof.
  revert w. induction tr as [|te tr IH]; intros w Hin; simpl in Hin.
  { by apply elem_of_nil in Hin. }
  destruct (step w te) as [w1 e1] eqn:Hstep.
  destruct (run w1 tr) as [w2 e2] eqn:Hrun. simpl in Hin.
  apply elem_of_app in Hin as [Hin|Hin].
  - exists [], te, tr. simpl. rewrite Hstep. done.
  - destruct (IH w1) as (tr1 & te' & tr2 & -> & Hin'); [by rewrite Hrun|].
    exists (te :: tr1), te', tr2. split; [done|]. simpl. rewrite Hstep.
    destruct (run w1 tr1). done.
Qed.

(** X13. In every run from the initial world, each request frame carries the
    process environment filtered by [constructEnvs], so none of the excluded
    names, together with the source path and handler read from it. *)
Theorem requests_carry_filtered_environment (env : list (string * string))
    (tr : list (Z * Event)) (c : nat) (rq : Request) :
  ESend c (LambdaRequest rq) ∈ (run (initial env) tr).2 →
  req_env rq = constructEnvs env
  ∧ (∀ k, k ∈ excluded_envs → k ∉ (req_env rq).*1)
  ∧ req_debugSrcPath rq = assoc "SST_DEBUG_SRC_PATH" env
  ∧ req_debugSrcHandler rq = assoc "SST_DEBUG_SRC_HANDLER" env.
Proof.
  intros Hin. apply run_effect in Hin as (tr1 & te & tr2 & _ & Hin).
  destruct (step_sends _ _ _ _ Hin) as (_ & H). destruct (H rq eq_refl) as (_ & _ & He & Hp & Hh & _).
  rewrite run_keeps_env in He, Hp, Hh. simpl in He, Hp, Hh.
  split_and!; try done.
  intros k Hk Hin'. rewrite He in Hin'.
  by apply constructEnvs_keys in Hin' as (Hnot & _).
Qed.

Lemma requests_carry_filtered_environment_witness :
  "SST_DEBUG_ENDPOINT"
  ∉ (req_env (mkRequest (Some "req-5") 29994 None None (Some payload0) "fn" "128" "req"
                        [("STAGE", "dev")])).*1.
Proof.
  destruct (requests_carry_filtered_environment env0
              [(5%Z, Invoke payload0 ctx0 7); (6%Z, WsOpen 0)] 0
              (mkRequest (Some "req-5") 29994 None None (Some payload0) "fn" "128" "req"
                         [("STAGE", "dev")])) as (_ & H & _).
  - apply elem_of_cons; right; apply elem_of_cons; left; reflexivity.
  - apply H. apply elem_of_cons. by left.
Defined.

(** X15. Whatever the world and the event, a frame is only ever sent on the
    socket that [_ref.ws] holds when the handler is done; a request is sent
    only by an invocation or by the opening of a socket, and a keep-alive
    only by a timer: messages, errors and closes never send anything. *)
Theorem frames_go_to_the_held_socket (w : World) (te : Z * Event) (c : nat) (f : Frame) :
  ESend c f ∈ (step w te).2 →
  ws (ref (step w te).1) = Some c
  ∧ match f with
    | LambdaRequest _ => is_invoke te.2 = true ∨ ∃ c', te.2 = WsOpen c'
    | KeepAlive => ∃ t, te.2 = Timeout t
    end.
Proof.
  destruct w as [[] ss ts env], te as [now []]; exec;
    repeat (split_match; simpl; try done); intros Hin;
    rewrite ?elem_of_app in Hin;
    repeat match goal with H : _ ∨ _ |- _ => destruct H end;
    effect_cases Hin.
  all: simplify_eq; (split; [done|]); eauto.
Qed.

Lemma frames_go_to_the_held_socket_witness :
  ws (ref (step w_sent (540006%Z, Timeout 0)).1) = Some 0.
Proof.
  apply (frames_go_to_the_held_socket w_sent (540006%Z, Timeout 0) 0 KeepAlive).
  apply elem_of_cons. left. reflexivity.
Defined.

(** X16. In every world reached from the initial one, a socket that is not
    closed and still carries a handler of [connectAndSendMessage] is the one
    held in [_ref.ws]: at most one socket can reach the stub, and a retired
    or replaced socket never does. *)
Theorem only_the_held_socket_listens (env : list (string * string))
    (tr : list (Z * Event)) (c : nat) (s : Socket) :
  sockets (run (initial env) tr).1 !! c = Some s → listening s = true →
  ws (ref (run (initial env) tr).1) = Some c.
Proof.
  intros Hs Hl.
  exact (single_listener_run tr (initial env) (single_listener_initial env) c s Hs Hl).
Qed.

Lemma only_the_held_socket_listens_witness :
  ws (ref (run (initial env0)
             [(5%Z, Invoke payload0 ctx0 7); (6%Z, WsOpen 0);
              (1800005%Z, Invoke payload0 ctx0 8)]).1) = Some 1.
Proof.
  apply (only_the_held_socket_listens env0
           [(5%Z, Invoke payload0 ctx0 7); (6%Z, WsOpen 0);
            (1800005%Z, Invoke payload0 ctx0 8)] 1
           (mkSocket (Some "wss://debug") Live Live Live Live false)); reflexivity.
Defined.

(** X17. An invocation that finds no socket in [_ref.ws] (first run, or after
    an unresolvable-target close) creates one socket and sends nothing yet;
    it stores the socket and the time, forgets the last error and sets no
    timer. When that socket opens, this invocation's request goes out and
    the keep-alive timer is set. *)
Theorem invocation_without_socket_connects (w : World) (now : Z) (ev : json)
    (ctx : Context) (cb : nat) :
  ws (ref w) = None →
  ∃ w1,
    let c' := length (sockets w) in
    step w (now, Invoke ev ctx cb)
    = (w1, [ENewWebSocket c' (assoc "SST_DEBUG_ENDPOINT" (process_env w))])
    ∧ ws (ref w1) = Some c'
    ∧ wsConnectedAt (ref w1) = now
    ∧ wsLastConnectError (ref w1) = None
    ∧ keepAliveTimer (ref w1) = None
    ∧ timers w1 = timers w
    ∧ (∀ t, ∃ w2 rq,
         step w1 (t, WsOpen c')
         = (w2, [ESend c' (LambdaRequest rq); ESetTimeout (length (timers w)) 540000])
         ∧ req_event rq = Some ev
         ∧ req_debugRequestId rq = Some (awsRequestId ctx +:+ "-" +:+ pretty now)).
Proof.
  intros Hws. destruct w as [[] ss ts env]. simpl in *. subst.
  eexists. exec. split_and!; try reflexivity.
  intros t. exec. rewrite lookup_app_r by done. rewrite Nat.sub_diag. simpl. eauto.
Qed.

Lemma invocation_without_socket_connects_witness :
  ∃ w1, step (initial env0) (5%Z, Invoke payload0 ctx0 7)
        = (w1, [ENewWebSocket 0 (Some "wss://debug")]).
Proof.
  destruct (invocation_without_socket_connects (initial env0) 5%Z payload0 ctx0 7)
    as (w1 & H & _); [reflexivity|].
  exists w1. exact H.
Defined.


(** *** Request ids *)

Lemma request_id_inj (a : string) (n1 n2 : Z) :
  a +:+ "-" +:+ pretty n1 = a +:+ "-" +:+ pretty n2 → n1 = n2.
Proof.
  intros H. apply (inj (String.app a)) in H. apply (inj (String.app "-")) in H.
  by apply (inj pretty) in H.
Qed.

Lemma invoke_sets_request_id (w : World) (now : Z) (ev : json) (ctx : Context) (cb : nat) :
  debugRequestId (ref (step w (now, Invoke ev ctx cb)).1)
  = Some (awsRequestId ctx +:+ "-" +:+ pretty now)
  ∧ callback (ref (step w (now, Invoke ev ctx cb)).1) = Some cb
  ∧ event (ref (step w (now, Invoke ev ctx cb)).1) = Some ev.
Proof.
  destruct w as [[] ss ts env]; exec; repeat (split_match; simpl; try done).
Qed.

(** X18. Two invocations with the same [awsRequestId] at different times get
    different request ids, so once the later one has started, a response
    frame carrying the id of the earlier one is dropped without any effect. *)
Theorem earlier_response_is_dropped (w : World) (now1 now2 t : Z) (ev : json)
    (ctx : Context) (cb : nat) (c : nat) (s : Socket) (j : json) :
  now1 ≠ now2 →
  let w2 := (step w (now2, Invoke ev ctx cb)).1 in
  sockets w2 !! c = Some s → closed s = false → onmessage s = Live →
  field j "action" = Some (JStr lambdaResponse) →
  field j "debugRequestId" = Some (JStr (awsRequestId ctx +:+ "-" +:+ pretty now1)) →
  awsRequestId ctx +:+ "-" +:+ pretty now1 ≠ awsRequestId ctx +:+ "-" +:+ pretty now2
  ∧ step w2 (t, WsMessage c (Some j)) = (w2, []).
Proof.
  intros Hne w2 Hs Hc Hm Ha Hid.
  assert (Hids : awsRequestId ctx +:+ "-" +:+ pretty now1
                 ≠ awsRequestId ctx +:+ "-" +:+ pretty now2)
    by (intros H; by apply request_id_inj in H).
  split; [done|].
  destruct (invoke_sets_request_id w now2 ev ctx cb) as (Hrid & _).
  fold w2 in Hrid. clearbody w2.
  assert (H1 : is_string (field j "action") failedNotConnected = false)
    by (by rewrite Ha).
  assert (H2 : is_string (field j "action") failedUnknown = false)
    by (by rewrite Ha).
  assert (H3 : differs (field j "debugRequestId") (debugRequestId (ref w2)) = true).
  { rewrite Hid, Hrid. simpl. by rewrite (bool_decide_eq_false_2 _ Hids). }
  destruct w2 as [r ss ts env]. simpl in *.
  exec. rewrite Hs, Hc, Hm.
  destruct j; try discriminate; simpl in *.
  rewrite H1, H2. simpl. rewrite H3, orb_true_r. reflexivity.
Qed.

Lemma earlier_response_is_dropped_witness :
  let w2 := (step w_sent (5000%Z, Invoke JNull ctx0 8)).1 in
  step w2 (5001%Z, WsMessage 0 (Some (response "req-5"))) = (w2, []).
Proof.
  intros w2.
  destruct (earlier_response_is_dropped w_sent 5%Z 5000%Z 5001%Z JNull ctx0 8 0
              (mkSocket (Some "wss://debug") Live Live Live Live false) (response "req-5"))
    as (_ & H); [discriminate | reflexivity | reflexivity | reflexivity | reflexivity
                | reflexivity |].
  exact H.
Defined.

(** *** Messages *)

(** X19. A message, whatever it contains (unparsable data and [null]
    included), never touches the transport: [_ref] and the sockets are as
    before, and the only effects are stopping the stored timer, calling the
    stored callback and throwing; no socket is created or closed, nothing is
    sent and no timer is set. *)
Theorem message_leaves_transport_alone (w : World) (now : Z) (c : nat)
    (data : option json) :
  ref (step w (now, WsMessage c data)).1 = ref w
  ∧ sockets (step w (now, WsMessage c data)).1 = sockets w
  ∧ length (timers (step w (now, WsMessage c data)).1) = length (timers w)
  ∧ ∀ e, e ∈ (step w (now, WsMessage c data)).2 → message_effect w e.
Proof.
  destruct w as [[] ss ts env]; exec; repeat (split_match; simpl);
    (split_and!; [done | done | by rewrite ?length_alter |]);
    intros e Hin; rewrite ?elem_of_app in Hin;
    repeat match goal with H : _ ∨ _ |- _ => destruct H end;
    repeat (apply elem_of_cons in Hin as [->|Hin]);
    try (by apply elem_of_nil in Hin);
    unfold message_effect; simpl; eauto 10.
Qed.

(** *** Timers *)

Lemma step_keeps_unstored_timer (w : World) (te : Z * Event) (t : nat) (d : Z) :
  timers w !! t = Some (mkTimer d Pending) →
  keepAliveTimer (ref w) ≠ Some t ∨ is_invoke te.2 = true →
  te.2 ≠ Timeout t →
  timers (step w te).1 !! t = Some (mkTimer d Pending)
  ∧ keepAliveTimer (ref (step w te).1) ≠ Some t.
Proof.
  intros Ht Hk Hte.
  assert (Hlt : t < length (timers w)) by (eapply lookup_lt_Some; eauto).
  destruct w as [[] ss ts env], te as [now []]; simpl in *;
    (destruct Hk as [Hk|Hk]; [|try discriminate]);
    exec; repeat (split_match; simpl); try done.
  all: (split; [|first [done | intros [= Heq]; lia]]).
  all: repeat first
    [ done
    | apply lookup_app_l_Some
    | match goal with
      | |- alter cancel ?i _ !! _ = _ =>
          destruct (decide (i = t)); [subst; done | rewrite list_lookup_alter_ne by done]
      | |- <[?i:=_]> _ !! _ = _ =>
          destruct (decide (i = t)); [subst; done | rewrite list_lookup_insert_ne by done]
      end ].
Qed.

(** X21. [main] resets [_ref.keepAliveTimer] without stopping the timer it
    held. A timer still pending when an invocation arrives is therefore
    never stopped afterwards: it stays pending through every later event,
    until it fires. *)
Theorem pending_timer_survives_next_invocation (w : World) (now : Z) (ev : json)
    (ctx : Context) (cb : nat) (t : nat) (d : Z) (tr : list (Z * Event)) :
  timers w !! t = Some (mkTimer d Pending) →
  Forall (λ te, te.2 ≠ Timeout t) tr →
  timers (run w ((now, Invoke ev ctx cb) :: tr)).1 !! t = Some (mkTimer d Pending)
  ∧ keepAliveTimer (ref (run w ((now, Invoke ev ctx cb) :: tr)).1) ≠ Some t.
Proof.
  intros Ht Htr.
  assert (Hgen : ∀ tr (w : World),
    timers w !! t = Some (mkTimer d Pending) → keepAliveTimer (ref w) ≠ Some t →
    Forall (λ te, te.2 ≠ Timeout t) tr →
    timers (run w tr).1 !! t = Some (mkTimer d Pending)
    ∧ keepAliveTimer (ref (run w tr).1) ≠ Some t).
  { clear. induction tr as [|te tr IH]; intros w Ht Hk Htr; [done|].
    inversion Htr as [|?? Hte Htr']; subst. simpl.
    destruct (step_keeps_unstored_timer w te t d Ht (or_introl Hk) Hte) as [Ht1 Hk1].
    destruct (step w te) as [w1 e1]. simpl in *.
    specialize (IH w1 Ht1 Hk1 Htr'). destruct (run w1 tr) as [w2 e2]. done. }
  simpl.
  destruct (step_keeps_unstored_timer w (now, Invoke ev ctx cb) t d Ht) as [Ht1 Hk1];
    [by right | done |].
  destruct (step w (now, Invoke ev ctx cb)) as [w1 e1]. simpl in *.
  specialize (Hgen tr w1 Ht1 Hk1 Htr). destruct (run w1 tr) as [w2 e2]. done.
Qed.

Lemma pending_timer_survives_next_invocation_witness :
  let r := run w_sent [(5000%Z, Invoke JNull ctx0 8);
                       (5001%Z, WsMessage 0 (Some (response "req-5000")));
                       (540006%Z, Timeout 0)] in
  timers (run w_sent [(5000%Z, Invoke JNull ctx0 8);
                      (5001%Z, WsMessage 0 (Some (response "req-5000")))]).1 !! 0
  = Some (mkTimer 540006 Pending)
  ∧ r.2 = [ESend 0 (LambdaRequest
                      (mkRequest (Some "req-5000") 25000 None None (Some JNull)
                                 "fn" "128" "req" [("STAGE", "dev")]));
           ESetTimeout 1 540000; EClearTimeout 1; ECallback 8 (Some (JObj [("y", JNum 2)]));
           ESend 0 KeepAlive].
Proof.
  intros r. split; [|reflexivity].
  apply (pending_timer_survives_next_invocation w_sent 5000%Z JNull ctx0 8 0 540006%Z
           [(5001%Z, WsMessage 0 (Some (response "req-5000")))]); [reflexivity|].
  repeat constructor. discriminate.
Defined.


(** *** The invocation a frame belongs to *)











End RelayTraces.
